(** * The Walk: the location-driven audio mixer (class [AudioMixer])

    A shallow embedding of the [AudioMixer] class of [js/zoneDebugMap.js]
    (the second document of that file) and a verification of its zone
    volume computation, its part start protocol and its oneshot trigger
    controller.

    Conventions of the embedding.
    - A JavaScript number is a [num]: an exact rational, one of the two
      infinities or NaN.  Arithmetic follows IEEE 754 on the special values
      (division by zero yields an infinity or NaN) and is exact on finite
      values; binary64 rounding and the sign of zero are not represented.
    - An optional property of a configuration object is an [option]:
      [None] is [undefined].
    - The mutable object graph (layers, Web Audio nodes) is an explicit
      store: nodes live in the audio context under numeric handles, a layer
      holds handles, so aliasing between [layer.gainNode] and the
      [layerGains] map is visible.  Calls on an [AudioParam] are recorded in
      order; the audio clock is not represented.
    - [Map]s and [Set]s whose iteration order is observable are
      insertion-ordered association lists ([JSMap], [JSSet]); those that are
      only queried are [gmap]s and [gset]s.
    - A method is a function from the mixer to a [Result]: how the call
      ended (returned, or threw), the mixer afterwards, and the trace of
      what it wrote to the console and handed to the event loop (timers,
      un-awaited closures).  An [async] method runs to completion in one
      step and a rejected promise is a thrown exception; loads are atomic,
      so [loadingLayers] and [loadingPromises] are always empty and are
      left out.  [lastDebugMessage], the debug panel, [resumeContext],
      [getActiveLayersInfo] and the [onended] callback of a oneshot are not
      represented.
    - [calculateDistance] (trigonometry on doubles) and the fetching and
      decoding of audio are parameters, the class [Host].
    - Of [ZoneDebugMap] (the first document of that file) the markers and
      circles it keeps are embedded, as the options they are created with;
      the Leaflet map itself and the marker of the listener are not.  Of
      the application ([TheWalkApp]) only [pauseWalk] is embedded, as far as
      it drives the mixer. *)

From Stdlib Require Import QArith Qminmax Lqa.
From stdpp Require Import gmap strings list.

Local Open Scope Q_scope.

(** ** JavaScript numbers *)

Inductive num : Type :=
  | Fin (q : Q)
  | PInf
  | NInf
  | NaN.

Definition is_finite (n : num) : bool :=
  match n with Fin _ => true | _ => false end.

(** [a <= b]; every comparison with NaN is false. *)
Definition num_le (a b : num) : bool :=
  match a, b with
  | NaN, _ | _, NaN => false
  | Fin x, Fin y => Qle_bool x y
  | NInf, _ => true
  | _, PInf => true
  | _, _ => false
  end.

(** [a < b] *)
Definition num_lt (a b : num) : bool :=
  match a, b with
  | NaN, _ | _, NaN => false
  | Fin x, Fin y => negb (Qle_bool y x)
  | PInf, _ => false
  | _, NInf => false
  | _, _ => true
  end.

(** [a > b] *)
Definition num_gt (a b : num) : bool := num_lt b a.

(** [a + b] *)
Definition num_add (a b : num) : num :=
  match a, b with
  | NaN, _ | _, NaN => NaN
  | Fin x, Fin y => Fin (x + y)
  | PInf, NInf | NInf, PInf => NaN
  | PInf, _ | _, PInf => PInf
  | NInf, _ | _, NInf => NInf
  end.

(** [a - b] *)
Definition num_sub (a b : num) : num :=
  match a, b with
  | NaN, _ | _, NaN => NaN
  | Fin x, Fin y => Fin (x - y)
  | PInf, PInf | NInf, NInf => NaN
  | PInf, _ => PInf
  | NInf, _ => NInf
  | Fin _, PInf => NInf
  | Fin _, NInf => PInf
  end.

(** The infinity carrying the sign of [x], NaN when [x] is zero. *)
Definition signed_inf (x : Q) (if_pos if_neg : num) : num :=
  match x ?= 0 with
  | Gt => if_pos
  | Lt => if_neg
  | Eq => NaN
  end.

(** [a * b] *)
Definition num_mul (a b : num) : num :=
  match a, b with
  | NaN, _ | _, NaN => NaN
  | Fin x, Fin y => Fin (x * y)
  | Fin x, PInf | PInf, Fin x => signed_inf x PInf NInf
  | Fin x, NInf | NInf, Fin x => signed_inf x NInf PInf
  | PInf, PInf | NInf, NInf => PInf
  | PInf, NInf | NInf, PInf => NInf
  end.

(** [a / b]; a zero divisor counts as +0. *)
Definition num_div (a b : num) : num :=
  match a, b with
  | NaN, _ | _, NaN => NaN
  | Fin x, Fin y =>
      if Qeq_bool y 0 then signed_inf x PInf NInf else Fin (x / y)
  | Fin _, _ => Fin 0
  | PInf, Fin y => if Qle_bool 0 y then PInf else NInf
  | NInf, Fin y => if Qle_bool 0 y then NInf else PInf
  | _, _ => NaN
  end.

(** [Math.max(a, b)] *)
Definition num_max (a b : num) : num :=
  match a, b with
  | NaN, _ | _, NaN => NaN
  | _, _ => if num_le a b then b else a
  end.

(** [Math.min(a, b)] *)
Definition num_min (a b : num) : num :=
  match a, b with
  | NaN, _ | _, NaN => NaN
  | _, _ => if num_le a b then a else b
  end.

(** Truthiness of a number: 0 and NaN are falsy. *)
Definition num_truthy (a : num) : bool :=
  match a with
  | Fin x => negb (Qeq_bool x 0)
  | PInf | NInf => true
  | NaN => false
  end.

(** ToNumber of an optional numeric property: [undefined] is NaN. *)
Definition to_number (v : option num) : num :=
  match v with Some n => n | None => NaN end.

(** [v || d] for an optional numeric property [v]. *)
Definition num_or (v : option num) (d : num) : num :=
  match v with
  | Some n => if num_truthy n then n else d
  | None => d
  end.

(** [v || d] for an optional boolean property. *)
Definition bool_or (v : option bool) (d : bool) : bool :=
  match v with
  | Some true => true
  | _ => d
  end.

(** Truthiness of an optional string: [null] and the empty string are falsy. *)
Definition str_truthy (v : option string) : bool :=
  match v with
  | Some s => negb (String.eqb s "")
  | None => false
  end.

(** Equality of numbers as values: rationals up to [==]. *)
Definition num_eq (a b : num) : Prop :=
  match a, b with
  | Fin x, Fin y => x == y
  | PInf, PInf | NInf, NInf | NaN, NaN => True
  | _, _ => False
  end.

Infix "=n=" := num_eq (at level 70, no associativity).

(** ** Insertion-ordered maps and sets *)

Module JSMap.
Abbreviation t V := (list (string * V)).

Section Ops.
Context {V : Type}.

Definition empty : t V := [].

Fixpoint get (k : string) (m : t V) : option V :=
  match m with
  | [] => None
  | (k', v) :: m' => if String.eqb k k' then Some v else get k m'
  end.

(** [Map.prototype.set]: an existing key keeps its position. *)
Fixpoint set (k : string) (v : V) (m : t V) : t V :=
  match m with
  | [] => [(k, v)]
  | (k', v') :: m' =>
      if String.eqb k k' then (k, v) :: m' else (k', v') :: set k v m'
  end.

Definition keys (m : t V) : list string := map fst m.
End Ops.
End JSMap.

Module JSSet.
Abbreviation t := (list string).

Definition empty : t := [].

Definition has (k : string) (s : t) : bool :=
  existsb (String.eqb k) s.

(** [Set.prototype.add]: a present element keeps its position. *)
Definition add (k : string) (s : t) : t :=
  if has k s then s else s ++ [k].

Definition size (s : t) : nat := length s.
End JSSet.

(** ** The Web Audio object graph *)

Record AudioBuffer : Type := { decodedFrom : string }.

(** One call on an [AudioParam]; times are relative to [currentTime]. *)
Inductive automation : Type :=
  | SetValue (v : num)                   (* setValueAtTime(v, currentTime) *)
  | HoldCurrent                          (* setValueAtTime(param.value, currentTime) *)
  | LinearRamp (target duration : num)   (* linearRampToValueAtTime(target, currentTime + duration) *)
  | CancelScheduled.                     (* cancelScheduledValues(currentTime) *)

Inductive output : Type :=
  | Unconnected
  | Destination
  | ToNode (h : nat).

Record GainNode : Type := {
  gain : list automation;   (* calls on [node.gain], oldest first *)
  gain_out : output
}.

Record BufferSource : Type := {
  src_buffer : option AudioBuffer;
  src_loop : bool;
  src_out : output;
  src_started : bool;
  src_stopped : bool
}.

Record AudioContext : Type := {
  next_handle : nat;
  sources : gmap nat BufferSource;
  gains : gmap nat GainNode
}.

Definition newAudioContext : AudioContext :=
  {| next_handle := 0; sources := ∅; gains := ∅ |}.

Definition createBufferSource (ctx : AudioContext) : nat * AudioContext :=
  let h := next_handle ctx in
  (h, {| next_handle := S h;
         sources := <[h := {| src_buffer := None; src_loop := false;
                              src_out := Unconnected; src_started := false;
                              src_stopped := false |}]> (sources ctx);
         gains := gains ctx |}).

Definition createGain (ctx : AudioContext) : nat * AudioContext :=
  let h := next_handle ctx in
  (h, {| next_handle := S h;
         sources := sources ctx;
         gains := <[h := {| gain := []; gain_out := Unconnected |}]> (gains ctx) |}).

Definition updSource (h : nat) (f : BufferSource → BufferSource)
    (ctx : AudioContext) : AudioContext :=
  {| next_handle := next_handle ctx;
     sources := alter f h (sources ctx);
     gains := gains ctx |}.

Definition updGain (h : nat) (f : GainNode → GainNode)
    (ctx : AudioContext) : AudioContext :=
  {| next_handle := next_handle ctx;
     sources := sources ctx;
     gains := alter f h (gains ctx) |}.

(** [source.buffer = b; source.loop = l; source.connect(g)] *)
Definition configureSource (b : option AudioBuffer) (l : bool) (g : nat)
    (n : BufferSource) : BufferSource :=
  {| src_buffer := b; src_loop := l; src_out := ToNode g;
     src_started := src_started n; src_stopped := src_stopped n |}.

(** [source.start()] *)
Definition startSource (n : BufferSource) : BufferSource :=
  {| src_buffer := src_buffer n; src_loop := src_loop n; src_out := src_out n;
     src_started := true; src_stopped := src_stopped n |}.

(** [source.stop()] *)
Definition stopSource (n : BufferSource) : BufferSource :=
  {| src_buffer := src_buffer n; src_loop := src_loop n; src_out := src_out n;
     src_started := src_started n; src_stopped := true |}.

(** A call on [node.gain]. *)
Definition automate (a : automation) (n : GainNode) : GainNode :=
  {| gain := gain n ++ [a]; gain_out := gain_out n |}.

(** [node.connect(dest)] *)
Definition connectGain (o : output) (n : GainNode) : GainNode :=
  {| gain := gain n; gain_out := o |}.

(** A source that produces sound: started and not stopped. *)
Definition running (n : BufferSource) : bool :=
  src_started n && negb (src_stopped n).

Definition runningHandles (ctx : AudioContext) : gset nat :=
  dom (filter (λ kv, running kv.2 = true) (sources ctx)).

(** ** Layers, zones and the mixer *)

Module Layer.
Record t : Type := {
  buffer : option AudioBuffer;
  source : option nat;
  gainNode : option nat;
  isPlaying : bool;
  loop : bool;
  volume : num;
  url : option string
}.

Definition with_playback (src gn : option nat) (playing : bool) (l : t) : t :=
  {| buffer := buffer l; source := src; gainNode := gn; isPlaying := playing;
     loop := loop l; volume := volume l; url := url l |}.

Definition with_isPlaying (playing : bool) (l : t) : t :=
  with_playback (source l) (gainNode l) playing l.

Definition with_volume (v : num) (l : t) : t :=
  {| buffer := buffer l; source := source l; gainNode := gainNode l;
     isPlaying := isPlaying l; loop := loop l; volume := v; url := url l |}.
End Layer.

Record LatLng : Type := { lat : num; lng : num }.

Record Position : Type := { latitude : num; longitude : num }.

(** The argument of [addAudioZone]. *)
Module ZoneConfig.
Record t : Type := {
  id : string;
  center : LatLng;
  radius : option num;
  audioLayers : list string;
  fadeDistance : option num;
  maxVolume : option num;
  isOneshot : option bool
}.
End ZoneConfig.

Module Zone.
Record t : Type := {
  id : string;
  center : LatLng;
  radius : option num;
  audioLayers : list string;
  fadeDistance : num;
  maxVolume : num;
  isOneshot : bool
}.
End Zone.

Record AudioMixer : Type := {
  audioContext : option AudioContext;
  masterGain : option nat;
  musicBus : option nat;
  oneshotBus : option nat;
  audioLayers : JSMap.t Layer.t;
  audioZones : list Zone.t;
  isInitialized : bool;
  masterVolume : num;
  layerToPart : gmap string string;
  partToLayers : gmap string JSSet.t;
  startedParts : gset string;
  layerGains : gmap string nat;
  playedOneshots : gset string;
  activeOneshots : gset string
}.

(** [new AudioMixer()] *)
Definition constructor : AudioMixer :=
  {| audioContext := None; masterGain := None; musicBus := None;
     oneshotBus := None; audioLayers := JSMap.empty; audioZones := [];
     isInitialized := false; masterVolume := Fin 0.7;
     layerToPart := ∅; partToLayers := ∅; startedParts := ∅;
     layerGains := ∅; playedOneshots := ∅; activeOneshots := ∅ |}.

Definition set_audioLayers (f : JSMap.t Layer.t → JSMap.t Layer.t)
    (s : AudioMixer) : AudioMixer :=
  {| audioContext := audioContext s; masterGain := masterGain s;
     musicBus := musicBus s; oneshotBus := oneshotBus s;
     audioLayers := f (audioLayers s); audioZones := audioZones s;
     isInitialized := isInitialized s; masterVolume := masterVolume s;
     layerToPart := layerToPart s; partToLayers := partToLayers s;
     startedParts := startedParts s; layerGains := layerGains s;
     playedOneshots := playedOneshots s; activeOneshots := activeOneshots s |}.

Definition set_audioContext (f : AudioContext → AudioContext)
    (s : AudioMixer) : AudioMixer :=
  {| audioContext := f <$> audioContext s; masterGain := masterGain s;
     musicBus := musicBus s; oneshotBus := oneshotBus s;
     audioLayers := audioLayers s; audioZones := audioZones s;
     isInitialized := isInitialized s; masterVolume := masterVolume s;
     layerToPart := layerToPart s; partToLayers := partToLayers s;
     startedParts := startedParts s; layerGains := layerGains s;
     playedOneshots := playedOneshots s; activeOneshots := activeOneshots s |}.

Definition set_audioZones (f : list Zone.t → list Zone.t)
    (s : AudioMixer) : AudioMixer :=
  {| audioContext := audioContext s; masterGain := masterGain s;
     musicBus := musicBus s; oneshotBus := oneshotBus s;
     audioLayers := audioLayers s; audioZones := f (audioZones s);
     isInitialized := isInitialized s; masterVolume := masterVolume s;
     layerToPart := layerToPart s; partToLayers := partToLayers s;
     startedParts := startedParts s; layerGains := layerGains s;
     playedOneshots := playedOneshots s; activeOneshots := activeOneshots s |}.

Definition set_masterVolume (v : num) (s : AudioMixer) : AudioMixer :=
  {| audioContext := audioContext s; masterGain := masterGain s;
     musicBus := musicBus s; oneshotBus := oneshotBus s;
     audioLayers := audioLayers s; audioZones := audioZones s;
     isInitialized := isInitialized s; masterVolume := v;
     layerToPart := layerToPart s; partToLayers := partToLayers s;
     startedParts := startedParts s; layerGains := layerGains s;
     playedOneshots := playedOneshots s; activeOneshots := activeOneshots s |}.

Definition set_parts (l2p : gmap string string) (p2l : gmap string JSSet.t)
    (s : AudioMixer) : AudioMixer :=
  {| audioContext := audioContext s; masterGain := masterGain s;
     musicBus := musicBus s; oneshotBus := oneshotBus s;
     audioLayers := audioLayers s; audioZones := audioZones s;
     isInitialized := isInitialized s; masterVolume := masterVolume s;
     layerToPart := l2p; partToLayers := p2l;
     startedParts := startedParts s; layerGains := layerGains s;
     playedOneshots := playedOneshots s; activeOneshots := activeOneshots s |}.

Definition set_startedParts (f : gset string → gset string)
    (s : AudioMixer) : AudioMixer :=
  {| audioContext := audioContext s; masterGain := masterGain s;
     musicBus := musicBus s; oneshotBus := oneshotBus s;
     audioLayers := audioLayers s; audioZones := audioZones s;
     isInitialized := isInitialized s; masterVolume := masterVolume s;
     layerToPart := layerToPart s; partToLayers := partToLayers s;
     startedParts := f (startedParts s); layerGains := layerGains s;
     playedOneshots := playedOneshots s; activeOneshots := activeOneshots s |}.

Definition set_layerGains (f : gmap string nat → gmap string nat)
    (s : AudioMixer) : AudioMixer :=
  {| audioContext := audioContext s; masterGain := masterGain s;
     musicBus := musicBus s; oneshotBus := oneshotBus s;
     audioLayers := audioLayers s; audioZones := audioZones s;
     isInitialized := isInitialized s; masterVolume := masterVolume s;
     layerToPart := layerToPart s; partToLayers := partToLayers s;
     startedParts := startedParts s; layerGains := f (layerGains s);
     playedOneshots := playedOneshots s; activeOneshots := activeOneshots s |}.

Definition set_playedOneshots (f : gset string → gset string)
    (s : AudioMixer) : AudioMixer :=
  {| audioContext := audioContext s; masterGain := masterGain s;
     musicBus := musicBus s; oneshotBus := oneshotBus s;
     audioLayers := audioLayers s; audioZones := audioZones s;
     isInitialized := isInitialized s; masterVolume := masterVolume s;
     layerToPart := layerToPart s; partToLayers := partToLayers s;
     startedParts := startedParts s; layerGains := layerGains s;
     playedOneshots := f (playedOneshots s);
     activeOneshots := activeOneshots s |}.

Definition set_activeOneshots (f : gset string → gset string)
    (s : AudioMixer) : AudioMixer :=
  {| audioContext := audioContext s; masterGain := masterGain s;
     musicBus := musicBus s; oneshotBus := oneshotBus s;
     audioLayers := audioLayers s; audioZones := audioZones s;
     isInitialized := isInitialized s; masterVolume := masterVolume s;
     layerToPart := layerToPart s; partToLayers := partToLayers s;
     startedParts := startedParts s; layerGains := layerGains s;
     playedOneshots := playedOneshots s;
     activeOneshots := f (activeOneshots s) |}.

(** The assignments of [initialize()]: the context, its three buses and
    the flag. *)
Definition set_initialized (ctx : AudioContext) (master music oneshot : nat)
    (s : AudioMixer) : AudioMixer :=
  {| audioContext := Some ctx; masterGain := Some master;
     musicBus := Some music; oneshotBus := Some oneshot;
     audioLayers := audioLayers s; audioZones := audioZones s;
     isInitialized := true; masterVolume := masterVolume s;
     layerToPart := layerToPart s; partToLayers := partToLayers s;
     startedParts := startedParts s; layerGains := layerGains s;
     playedOneshots := playedOneshots s;
     activeOneshots := activeOneshots s |}.

(** In-place mutation of the layer object stored under [layerId]. *)
Definition mutateLayer (layerId : string) (f : Layer.t → Layer.t)
    (s : AudioMixer) : AudioMixer :=
  match JSMap.get layerId (audioLayers s) with
  | Some l => set_audioLayers (JSMap.set layerId (f l)) s
  | None => s
  end.

(** ** Effects: state, exceptions and the trace of what a call reports *)

(** Work handed to the event loop: callbacks of timers and of un-awaited
    [async] closures. *)
Inductive task : Type :=
  | OneshotTask (layerId : string)     (* ensureLayerLoaded(id) then playOneShot(id) *)
  | BackgroundLoad (layerId : string)  (* ensureLayerLoaded(id), not awaited *)
  | StopLayerTask (layerId : string)   (* stopLayer(id) *)
  | DuckTask (target duration : num).  (* duckMusicBus(target, duration) *)

(** What a call writes to the console (and to [lastDebugMessage]) and what
    it schedules. *)
Inductive event : Type :=
  | LayerNotFound (layerId : string)
  | Loaded (layerId : string)
  | LoadFailed (layerId : string)
  | NoPartId
  | PartAlreadyStarted (partId : string)
  | PartNoLayers (partId : string)
  | PartWaiting (partId : string) (notLoaded : list string)
  | PartStarted (partId : string)
  | ZoneAdded (zoneId : string) (oneshot : bool)
  | LayerNotLoaded (layerId : string)
  | PlayingLayer (layerId : string) (vol : num)
  | FadeNoLayer (layerId : string)
  | FadeNoGain (layerId : string)
  | Fading (layerId : string) (target duration : num)
  | StoppedLayer (layerId : string)
  | WalkCompleted (zoneId : string)
  | FinaleLocked
  | OneshotTriggered (zoneId : string)
  | OneshotAlreadyPlaying (layerId : string)
  | OneshotPlaying (layerId : string)
  | Spawn (t : task)
  | SetTimeout (ms : N) (t : task).

Inductive exn : Type :=
  | TypeError
  | LoadError (layerId : string).

Inductive outcome (A : Type) : Type :=
  | Returned (a : A)
  | Threw (e : exn).
Arguments Returned {A} a.
Arguments Threw {A} e.

Record Result (A : Type) : Type := {
  res : outcome A;
  post : AudioMixer;
  out : list event
}.
Arguments res {A} _.
Arguments post {A} _.
Arguments out {A} _.

Definition M (A : Type) : Type := AudioMixer → Result A.

Definition ret {A} (a : A) : M A :=
  λ s, {| res := Returned a; post := s; out := [] |}.

Definition bind {A B} (m : M A) (k : A → M B) : M B :=
  λ s,
    let r := m s in
    match res r with
    | Returned a =>
        let r' := k a (post r) in
        {| res := res r'; post := post r'; out := out r ++ out r' |}
    | Threw e => {| res := Threw e; post := post r; out := out r |}
    end.

Definition throw {A} (e : exn) : M A :=
  λ s, {| res := Threw e; post := s; out := [] |}.

Definition emit (e : event) : M unit :=
  λ s, {| res := Returned tt; post := s; out := [e] |}.

Definition modify (f : AudioMixer → AudioMixer) : M unit :=
  λ s, {| res := Returned tt; post := f s; out := [] |}.

Definition gets {A} (f : AudioMixer → A) : M A :=
  λ s, {| res := Returned (f s); post := s; out := [] |}.

Notation "x <- m ;; k" := (bind m (λ x, k))
  (at level 100, m at next level, right associativity).
Notation "m ;; k" := (bind m (λ _, k))
  (at level 100, right associativity).

(** [list.forEach(f)]; an exception ends the iteration. *)
Fixpoint forEach {A} (f : A → M unit) (l : list A) : M unit :=
  match l with
  | [] => ret tt
  | x :: l' => f x ;; forEach f l'
  end.

(** [await Promise.all(ms)]: every promise settles; the result rejects with
    the first rejection. *)
Fixpoint promiseAll (ms : list (M unit)) : M unit :=
  match ms with
  | [] => ret tt
  | m :: ms' =>
      λ s,
        let r := m s in
        let r' := promiseAll ms' (post r) in
        {| res := match res r with
                  | Returned _ => res r'
                  | Threw e => Threw e
                  end;
           post := post r';
           out := out r ++ out r' |}
  end.

(** ** External collaborators *)

Class Host : Type := {
  (** [calculateDistance(lat1, lon1, lat2, lon2)]: the haversine distance in
      metres; its trigonometry is outside the embedding. *)
  calculateDistance : num → num → num → num → num;
  (** [fetch(url)] followed by [decodeAudioData]: the decoded buffer, or
      [None] when fetching or decoding fails. *)
  fetchAndDecode : string → option AudioBuffer
}.

(** ** The methods of [AudioMixer] *)

Section Methods.
Context `{Host}.

(** [isReady()] *)
Definition isReady (s : AudioMixer) : bool :=
  isInitialized s && bool_decide (is_Some (audioContext s))
    && bool_decide (is_Some (masterGain s)).

(** [initialize()]; the construction of the context itself does not fail
    in the embedding. *)
Definition initialize : M unit := λ s,
  if isInitialized s then ret tt s
  else
    let '(master, ctx) := createGain newAudioContext in
    let ctx := updGain master (connectGain Destination) ctx in
    let ctx := updGain master (automate (SetValue (masterVolume s))) ctx in
    let '(music, ctx) := createGain ctx in
    let ctx := updGain music (connectGain (ToNode master)) ctx in
    let ctx := updGain music (automate (SetValue (Fin 1))) ctx in
    let '(oneshot, ctx) := createGain ctx in
    let ctx := updGain oneshot (connectGain (ToNode master)) ctx in
    let ctx := updGain oneshot (automate (SetValue (Fin 1))) ctx in
    modify (set_initialized ctx master music oneshot) s.

(** [loadAudio(url, layerId)] *)
Definition loadAudio (url layerId : string) : M unit := λ s,
  match audioContext s, fetchAndDecode url with
  | Some _, Some audioBuffer =>
      let existing := JSMap.get layerId (audioLayers s) in
      let layer :=
        {| Layer.buffer := Some audioBuffer;
           Layer.source := existing ≫= Layer.source;
           Layer.gainNode := existing ≫= Layer.gainNode;
           Layer.isPlaying := from_option Layer.isPlaying false existing;
           Layer.loop := from_option Layer.loop true existing;
           Layer.volume := from_option Layer.volume (Fin 1) existing;
           Layer.url := if str_truthy (existing ≫= Layer.url)
                        then existing ≫= Layer.url else Some url |} in
      (modify (set_audioLayers (JSMap.set layerId layer)) ;;
       emit (Loaded layerId)) s
  | _, _ => (emit (LoadFailed layerId) ;; throw (LoadError layerId)) s
  end.

(** [ensureLayerLoaded(layerId)]; a load started here has settled when the
    call returns, so no load is ever found in flight. *)
Definition ensureLayerLoaded (layerId : string) : M unit := λ s,
  match JSMap.get layerId (audioLayers s) with
  | None => emit (LayerNotFound layerId) s
  | Some layer =>
      if bool_decide (is_Some (Layer.buffer layer)) then ret tt s
      else if negb (str_truthy (Layer.url layer)) then ret tt s
      else loadAudio (default "" (Layer.url layer)) layerId s
  end.

(** [registerLayerDefaults(layerId, { loop, volume, url })]; an omitted
    option is [None]. *)
Definition registerLayerDefaults (layerId : string) (loop : option bool)
    (volume : option num) (url : option string) : M unit := λ s,
  let existing := JSMap.get layerId (audioLayers s) in
  let existingUrl := existing ≫= Layer.url in
  modify (set_audioLayers (JSMap.set layerId
    {| Layer.buffer := existing ≫= Layer.buffer;
       Layer.source := None;
       Layer.gainNode := None;
       Layer.isPlaying := false;
       Layer.loop := default true loop;
       Layer.volume := num_max (Fin 0) (num_min (Fin 1) (default (Fin 1) volume));
       Layer.url := if str_truthy url then url
                    else if str_truthy existingUrl then existingUrl
                    else None |})) s.

(** [registerLayerPart(layerId, partId)] *)
Definition registerLayerPart (layerId partId : string) : M unit := λ s,
  if String.eqb partId "" || String.eqb layerId "" then ret tt s
  else
    let p2l := match partToLayers s !! partId with
               | Some _ => partToLayers s
               | None => <[partId := JSSet.empty]> (partToLayers s)
               end in
    modify (set_parts (<[layerId := partId]> (layerToPart s))
              (alter (JSSet.add layerId) partId p2l)) s.

Definition layerLoaded (s : AudioMixer) (layerId : string) : bool :=
  match JSMap.get layerId (audioLayers s) with
  | Some l => bool_decide (is_Some (Layer.buffer l))
  | None => false
  end.

(** The body of the second [layerSet.forEach] of [startPart].  Without a
    context its first statement raises a TypeError; the buses exist whenever
    the context does. *)
Definition startPartLayer (layerId : string) : M unit := λ s,
  match JSMap.get layerId (audioLayers s) with
  | None => ret tt s
  | Some l =>
      if negb (bool_decide (is_Some (Layer.buffer l))) then ret tt s
      else if Layer.isPlaying l then ret tt s
      else
        match audioContext s, musicBus s with
        | Some ctx, Some bus =>
            let '(src, ctx) := createBufferSource ctx in
            let '(g, ctx) := createGain ctx in
            let ctx := updSource src (configureSource (Layer.buffer l) true g) ctx in
            let ctx := updGain g (automate (SetValue (Fin 0))) ctx in
            let ctx := updGain g (connectGain (ToNode bus)) ctx in
            let ctx := updSource src startSource ctx in
            modify (λ s,
              set_layerGains (insert layerId g)
                (mutateLayer layerId (Layer.with_playback (Some src) (Some g) true)
                   (set_audioContext (λ _, ctx) s))) s
        | _, _ => throw TypeError s
        end
  end.

(** [startPart(partId)] *)
Definition startPart (partId : string) : M unit := λ s,
  if String.eqb partId "" then emit NoPartId s
  else if bool_decide (partId ∈ startedParts s) then
    emit (PartAlreadyStarted partId) s
  else
    match partToLayers s !! partId with
    | None => emit (PartNoLayers partId) s
    | Some layerSet =>
        if Nat.eqb (JSSet.size layerSet) 0 then emit (PartNoLayers partId) s
        else
          let notLoaded := filter (λ layerId, layerLoaded s layerId = false) layerSet in
          if negb (Nat.eqb (length notLoaded) 0) then
            emit (PartWaiting partId notLoaded) s
          else
            (forEach startPartLayer layerSet ;;
             modify (set_startedParts (union {[partId]})) ;;
             emit (PartStarted partId)) s
    end.

(** The object [zone] that [addAudioZone(config)] builds. *)
Definition zoneOf (config : ZoneConfig.t) : Zone.t :=
  {| Zone.id := ZoneConfig.id config;
     Zone.center := ZoneConfig.center config;
     Zone.radius := ZoneConfig.radius config;
     Zone.audioLayers := ZoneConfig.audioLayers config;
     Zone.fadeDistance := num_or (ZoneConfig.fadeDistance config) (Fin 50);
     Zone.maxVolume := num_or (ZoneConfig.maxVolume config) (Fin 1);
     Zone.isOneshot := bool_or (ZoneConfig.isOneshot config) false |}.

(** [addAudioZone(config)] *)
Definition addAudioZone (config : ZoneConfig.t) : M unit :=
  let zone := zoneOf config in
  modify (set_audioZones (λ zones, zones ++ [zone])) ;;
  emit (ZoneAdded (Zone.id zone) (Zone.isOneshot zone)).

(** [playLayer(layerId, volume, loop)] *)
Definition playLayer (layerId : string) (volume : num) (loop : bool) : M unit := λ s,
  match JSMap.get layerId (audioLayers s) with
  | None => emit (LayerNotLoaded layerId) s
  | Some layer =>
      if negb (bool_decide (is_Some (Layer.buffer layer))) then
        emit (LayerNotLoaded layerId) s
      else
        match audioContext s, musicBus s with
        | Some ctx, Some bus =>
            let ctx := match Layer.source layer with
                       | Some old => updSource old stopSource ctx
                       | None => ctx
                       end in
            let '(source, ctx) := createBufferSource ctx in
            let '(gainNode, ctx) := createGain ctx in
            let ctx := updGain gainNode (automate (SetValue (Fin 0))) ctx in
            let ctx := updSource source
                         (configureSource (Layer.buffer layer) loop gainNode) ctx in
            let ctx := updGain gainNode (connectGain (ToNode bus)) ctx in
            let ctx := updSource source startSource ctx in
            let targetGain := num_mul volume (masterVolume s) in
            let ctx := updGain gainNode
                         (automate (LinearRamp targetGain (Fin 0.05))) ctx in
            (modify (λ s,
               mutateLayer layerId
                 (Layer.with_playback (Some source) (Some gainNode) true)
                 (set_audioContext (λ _, ctx) s)) ;;
             emit (PlayingLayer layerId volume)) s
        | _, _ => throw TypeError s
        end
  end.

(** [stopLayer(layerId)] *)
Definition stopLayer (layerId : string) : M unit := λ s,
  match JSMap.get layerId (audioLayers s) with
  | None => ret tt s
  | Some layer =>
      if negb (Layer.isPlaying layer) then ret tt s
      else
        (modify (λ s,
           mutateLayer layerId (Layer.with_playback None None false)
             (match Layer.source layer with
              | Some src => set_audioContext (updSource src stopSource) s
              | None => s
              end)) ;;
         emit (StoppedLayer layerId)) s
  end.

(** [setLayerVolume(layerId, volume)] *)
Definition setLayerVolume (layerId : string) (volume : num) : M unit := λ s,
  match JSMap.get layerId (audioLayers s) with
  | None => ret tt s
  | Some layer =>
      let v := num_max (Fin 0) (num_min (Fin 1) volume) in
      modify (λ s,
        mutateLayer layerId (Layer.with_volume v)
          (match Layer.gainNode layer with
           | Some g =>
               set_audioContext
                 (updGain g (automate (SetValue (num_mul v (masterVolume s))))) s
           | None => s
           end)) s
  end.

(** [fadeLayer(layerId, targetVolume, duration)] *)
Definition fadeLayer (layerId : string) (targetVolume duration : num) : M unit := λ s,
  match JSMap.get layerId (audioLayers s) with
  | None => emit (FadeNoLayer layerId) s
  | Some layer =>
      let gainNode := match Layer.gainNode layer with
                      | Some g => Some g
                      | None => layerGains s !! layerId
                      end in
      match gainNode with
      | None => emit (FadeNoGain layerId) s
      | Some g =>
          let targetGain := num_mul targetVolume (masterVolume s) in
          (modify (λ s,
             mutateLayer layerId (Layer.with_volume targetVolume)
               (set_audioContext
                  (λ ctx, updGain g (automate (LinearRamp targetGain duration))
                            (updGain g (automate HoldCurrent) ctx)) s)) ;;
           emit (Fading layerId targetGain duration)) s
      end
  end.

(** [setMasterVolume(volume)] *)
Definition setMasterVolume (volume : num) : M unit := λ s,
  let v := num_max (Fin 0) (num_min (Fin 1) volume) in
  modify (λ s,
    match masterGain s with
    | Some g =>
        set_audioContext (updGain g (automate (SetValue v))) (set_masterVolume v s)
    | None => set_masterVolume v s
    end) s.

(** [duckMusicBus(targetGain, duration)] *)
Definition duckMusicBus (targetGain duration : num) : M unit := λ s,
  match musicBus s with
  | None => ret tt s
  | Some bus =>
      modify (set_audioContext (λ ctx,
        updGain bus (automate (LinearRamp targetGain duration))
          (updGain bus (automate HoldCurrent)
             (updGain bus (automate CancelScheduled) ctx)))) s
  end.

(** [playOneShot(layerId)]; the [onended] callback it installs is not part
    of the embedding. *)
Definition playOneShot (layerId : string) : M unit := λ s,
  match JSMap.get layerId (audioLayers s) with
  | None => emit (LayerNotFound layerId) s
  | Some layer =>
      if negb (bool_decide (is_Some (Layer.buffer layer))) then
        emit (LayerNotLoaded layerId) s
      else if bool_decide (layerId ∈ activeOneshots s) then
        emit (OneshotAlreadyPlaying layerId) s
      else
        match audioContext s, oneshotBus s with
        | Some ctx, Some bus =>
            let '(source, ctx) := createBufferSource ctx in
            let '(g, ctx) := createGain ctx in
            let ctx := updSource source
                         (configureSource (Layer.buffer layer) false g) ctx in
            let ctx := updGain g (automate (SetValue (Fin 1))) ctx in
            let ctx := updGain g (connectGain (ToNode bus)) ctx in
            let ctx := updSource source startSource ctx in
            (modify (λ s,
               mutateLayer layerId (Layer.with_isPlaying true)
                 (set_activeOneshots (union {[layerId]})
                    (set_audioContext (λ _, ctx) s))) ;;
             emit (OneshotPlaying layerId) ;;
             if String.eqb layerId "oneshot8" then
               duckMusicBus (Fin 0) (Fin 0.5) ;;
               emit (SetTimeout 55600%N (DuckTask (Fin 1) (Fin 30)))
             else if String.eqb layerId "oneshot5" then
               duckMusicBus (Fin 0) (Fin 0.5) ;;
               emit (SetTimeout 70000%N (DuckTask (Fin 1) (Fin 20)))
             else
               duckMusicBus (Fin 0.6) (Fin 0.3)) s
        | _, _ => throw TypeError s
        end
  end.

(** [progressivePreload(position)]; the loads it kicks off are not awaited. *)
Definition progressivePreload (position : option Position) : M unit :=
  match position with
  | None => ret tt
  | Some position =>
      zones <- gets audioZones ;;
      forEach (λ zone,
        let d := calculateDistance (latitude position) (longitude position)
                   (lat (Zone.center zone)) (lng (Zone.center zone)) in
        let preloadDistance :=
          num_add (num_add (num_or (Zone.radius zone) (Fin 0))
                     (num_or (Some (Zone.fadeDistance zone)) (Fin 0)))
            (Fin 150) in
        if num_le d preloadDistance then
          forEach (λ layerId, emit (Spawn (BackgroundLoad layerId)))
            (Zone.audioLayers zone)
        else ret tt) zones
  end.

(** *** [updateLocationAudio]: step 1, the oneshot zones *)

(** [calculateDistance(position.latitude, position.longitude,
    zone.center.lat, zone.center.lng)] *)
Definition zoneDistance (position : Position) (zone : Zone.t) : num :=
  calculateDistance (latitude position) (longitude position)
    (lat (Zone.center zone)) (lng (Zone.center zone)).

(** [Math.max(1, zone.radius || 10)] *)
Definition triggerRadius (zone : Zone.t) : num :=
  num_max (Fin 1) (num_or (Zone.radius zone) (Fin 10)).

(** The callback of [this.audioZones.forEach] in step 1. *)
Definition oneshotStep (position : Position) (zone : Zone.t) : M unit := λ s,
  if negb (Zone.isOneshot zone) then ret tt s
  else
    let distance := zoneDistance position zone in
    let triggerRadius := triggerRadius zone in
    let alreadyPlayed := bool_decide (Zone.id zone ∈ playedOneshots s) in
    if num_le distance triggerRadius && negb alreadyPlayed then
      if bool_decide ("oneshot_finale" ∈ playedOneshots s)
         && negb (String.eqb (Zone.id zone) "oneshot_finale") then
        emit (WalkCompleted (Zone.id zone)) s
      else if String.eqb (Zone.id zone) "oneshot_finale"
              && negb (bool_decide ("oneshot_9" ∈ playedOneshots s)) then
        emit FinaleLocked s
      else
        (modify (set_playedOneshots (union {[Zone.id zone]})) ;;
         emit (OneshotTriggered (Zone.id zone)) ;;
         forEach (λ layerId, emit (Spawn (OneshotTask layerId)))
           (Zone.audioLayers zone)) s
    else ret tt s.

(** *** Step 2, the target volume of every music layer *)

(** The volume a music zone contributes at [distance] from its centre. *)
Definition zoneVolume (distance : num) (zone : Zone.t) : num :=
  let radius := to_number (Zone.radius zone) in
  if num_le distance radius then
    let fadeStart := num_max (Fin 0) (num_sub radius (Zone.fadeDistance zone)) in
    if num_le distance fadeStart then Zone.maxVolume zone
    else num_mul (Zone.maxVolume zone)
           (num_div (num_sub radius distance) (Zone.fadeDistance zone))
  else Fin 0.

(** The callback of [zone.audioLayers.forEach] in step 2. *)
Definition raiseTarget (volume : num) (layerTargetVolumes : JSMap.t num)
    (layerId : string) : JSMap.t num :=
  let currentTargetVol := num_or (JSMap.get layerId layerTargetVolumes) (Fin 0) in
  JSMap.set layerId (num_max currentTargetVol volume) layerTargetVolumes.

(** The body of [for (const zone of this.audioZones)] in step 2. *)
Definition zoneTargets (position : Position) (layerTargetVolumes : JSMap.t num)
    (zone : Zone.t) : JSMap.t num :=
  if Zone.isOneshot zone then layerTargetVolumes
  else
    let volume := zoneVolume (zoneDistance position zone) zone in
    fold_left (raiseTarget volume) (Zone.audioLayers zone) layerTargetVolumes.

Definition computeLayerTargetVolumes (position : Position)
    (zones : list Zone.t) : JSMap.t num :=
  fold_left (zoneTargets position) zones JSMap.empty.

(** [layerTargetVolumes.get(layerId) || 0] *)
Definition targetVolume (layerTargetVolumes : JSMap.t num) (layerId : string) : num :=
  num_or (JSMap.get layerId layerTargetVolumes) (Fin 0).

(** *** Step 3, the parts to start *)

Definition queuePart (s : AudioMixer) (layerTargetVolumes : JSMap.t num)
    (partsToStart : JSSet.t) (layerId : string) : JSSet.t :=
  if num_gt (to_number (JSMap.get layerId layerTargetVolumes)) (Fin 0) then
    match layerToPart s !! layerId with
    | Some partId =>
        if negb (String.eqb partId "") && negb (bool_decide (partId ∈ startedParts s))
        then JSSet.add partId partsToStart
        else partsToStart
    | None => partsToStart
    end
  else partsToStart.

Definition collectPartsToStart (s : AudioMixer)
    (layerTargetVolumes : JSMap.t num) : JSSet.t :=
  fold_left (queuePart s layerTargetVolumes) (JSMap.keys layerTargetVolumes)
    JSSet.empty.

(** The body of [for (const partId of partsToStart)]. *)
Definition loadAndStartPart (partId : string) : M unit :=
  layerSet <- gets (λ s, partToLayers s !! partId) ;;
  match layerSet with
  | Some layerSet => promiseAll (map ensureLayerLoaded layerSet)
  | None => ret tt
  end ;;
  startPart partId.

(** *** Step 4, the fades *)

(** The callback of [this.audioLayers.forEach] in step 4. *)
Definition applyFade (layerTargetVolumes : JSMap.t num) (layerId : string) : M unit := λ s,
  match JSMap.get layerId (audioLayers s) with
  | None => ret tt s
  | Some layer =>
      if bool_decide (layerId ∈ activeOneshots s) then ret tt s
      else if String.prefix "oneshot" layerId then ret tt s
      else
        let targetVolume := targetVolume layerTargetVolumes layerId in
        if num_gt targetVolume (Fin 0) then
          if negb (Layer.isPlaying layer) then playLayer layerId targetVolume true s
          else fadeLayer layerId targetVolume (Fin 0.4) s
        else if Layer.isPlaying layer then
          match layerToPart s !! layerId with
          | Some partId =>
              if negb (String.eqb partId "") then fadeLayer layerId (Fin 0) (Fin 0.8) s
              else (fadeLayer layerId (Fin 0) (Fin 0.8) ;;
                    emit (SetTimeout 900%N (StopLayerTask layerId))) s
          | None => (fadeLayer layerId (Fin 0) (Fin 0.8) ;;
                     emit (SetTimeout 900%N (StopLayerTask layerId))) s
          end
        else ret tt s
  end.

(** [updateLocationAudio(position)] *)
Definition updateLocationAudio (position : option Position) : M unit := λ s,
  match position with
  | None => ret tt s
  | Some position =>
      if negb (isReady s) then ret tt s
      else
        (forEach (oneshotStep position) (audioZones s) ;;
         layerTargetVolumes <- gets (λ s, computeLayerTargetVolumes position (audioZones s)) ;;
         partsToStart <- gets (λ s, collectPartsToStart s layerTargetVolumes) ;;
         forEach loadAndStartPart partsToStart ;;
         layerIds <- gets (λ s, JSMap.keys (audioLayers s)) ;;
         forEach (applyFade layerTargetVolumes) layerIds) s
  end.

(** [stopAll()] *)
Definition stopAll : M unit :=
  layerIds <- gets (λ s, JSMap.keys (audioLayers s)) ;;
  forEach stopLayer layerIds.

(** [reset()] *)
Definition reset : M unit :=
  stopAll ;;
  modify (set_startedParts (λ _, ∅)) ;;
  modify (set_playedOneshots (λ _, ∅)) ;;
  modify (set_activeOneshots (λ _, ∅)) ;;
  modify (set_layerGains (λ _, ∅)) ;;
  modify (set_audioLayers
            (map (λ kv, (kv.1, Layer.with_playback None None false kv.2)))).

(** The callback of an un-awaited closure or of a timer. *)
Definition runTask (t : task) : M unit :=
  match t with
  | OneshotTask layerId => ensureLayerLoaded layerId ;; playOneShot layerId
  | BackgroundLoad layerId => ensureLayerLoaded layerId
  | StopLayerTask layerId => stopLayer layerId
  | DuckTask target duration => duckMusicBus target duration
  end.
End Methods.


(** ** Sessions: sequences of calls on one mixer *)

Inductive call : Type :=
  | Initialize
  | LoadAudio (url layerId : string)
  | EnsureLayerLoaded (layerId : string)
  | RegisterLayerDefaults (layerId : string) (loop : option bool)
      (volume : option num) (url : option string)
  | RegisterLayerPart (layerId partId : string)
  | StartPart (partId : string)
  | AddAudioZone (config : ZoneConfig.t)
  | PlayLayer (layerId : string) (volume : num) (loop : bool)
  | StopLayer (layerId : string)
  | SetLayerVolume (layerId : string) (volume : num)
  | FadeLayer (layerId : string) (targetVolume duration : num)
  | SetMasterVolume (volume : num)
  | UpdateLocationAudio (position : option Position)
  | PlayOneShot (layerId : string)
  | ProgressivePreload (position : option Position)
  | StopAll
  | Reset
  | RunTask (t : task).

Definition perform `{Host} (c : call) : M unit :=
  match c with
  | Initialize => initialize
  | LoadAudio url layerId => loadAudio url layerId
  | EnsureLayerLoaded layerId => ensureLayerLoaded layerId
  | RegisterLayerDefaults layerId loop volume url =>
      registerLayerDefaults layerId loop volume url
  | RegisterLayerPart layerId partId => registerLayerPart layerId partId
  | StartPart partId => startPart partId
  | AddAudioZone config => addAudioZone config
  | PlayLayer layerId volume loop => playLayer layerId volume loop
  | StopLayer layerId => stopLayer layerId
  | SetLayerVolume layerId volume => setLayerVolume layerId volume
  | FadeLayer layerId targetVolume duration => fadeLayer layerId targetVolume duration
  | SetMasterVolume volume => setMasterVolume volume
  | UpdateLocationAudio position => updateLocationAudio position
  | PlayOneShot layerId => playOneShot layerId
  | ProgressivePreload position => progressivePreload position
  | StopAll => stopAll
  | Reset => reset
  | RunTask t => runTask t
  end.

Definition isResetCall (c : call) : bool :=
  match c with Reset => true | _ => false end.

(** Every call is its own turn of the event loop: an exception (or a
    rejected promise) ends that call only. *)
Fixpoint runSession `{Host} (calls : list call) : M unit :=
  match calls with
  | [] => ret tt
  | c :: calls' =>
      λ s,
        let r := perform c s in
        let r' := runSession calls' (post r) in
        {| res := res r'; post := post r'; out := out r ++ out r' |}
  end.

(** An observation of the mixer that ignores everything but the zone
    registry and the set of played oneshots. *)
Class Insensitive {X : Type} (f : AudioMixer → X) : Prop := {
  ins_initialized ctx master music oneshot s :
    f (set_initialized ctx master music oneshot s) = f s;
  ins_audioLayers g s : f (set_audioLayers g s) = f s;
  ins_audioContext g s : f (set_audioContext g s) = f s;
  ins_masterVolume v s : f (set_masterVolume v s) = f s;
  ins_parts l2p p2l s : f (set_parts l2p p2l s) = f s;
  ins_startedParts g s : f (set_startedParts g s) = f s;
  ins_layerGains g s : f (set_layerGains g s) = f s;
  ins_activeOneshots g s : f (set_activeOneshots g s) = f s
}.

(** Events other than the firing of a oneshot zone. *)
Definition notTrigger (e : event) : Prop :=
  match e with OneshotTriggered _ => False | _ => True end.

(** What a call that stays out of the oneshot controller guarantees for
    the observation [f]: the result [r] of running it from [s] leaves [f]
    as it was and reports no firing. *)
Definition framed {X A : Type} (f : AudioMixer → X) (s : AudioMixer)
    (r : Result A) : Prop :=
  f (post r) = f s ∧ Forall notTrigger (out r).

(** How often the zone [zoneId] fired in a trace. *)
Definition isTrigger (zoneId : string) (e : event) : bool :=
  match e with
  | OneshotTriggered z => String.eqb z zoneId
  | _ => false
  end.

Fixpoint fireCount (zoneId : string) (trace : list event) : nat :=
  match trace with
  | [] => 0
  | e :: trace' =>
      (if isTrigger zoneId e then 1 else 0)%nat + fireCount zoneId trace'
  end.

(** Whether a trace reports any playback or fade of [layerId]. *)
Definition touchesLayer (layerId : string) (e : event) : bool :=
  match e with
  | PlayingLayer l _ | Fading l _ _ | LayerNotLoaded l
  | FadeNoLayer l | FadeNoGain l => String.eqb l layerId
  | _ => false
  end.

(** Whether step 1 fires [zone] at [position] in state [s]: the zone is a
    oneshot in range that has not played, the walk is not completed (or the
    zone is the finale) and, for the finale, oneshot 9 has played. *)
Definition fires `{Host} (position : Position) (zone : Zone.t)
    (s : AudioMixer) : bool :=
  Zone.isOneshot zone
  && num_le (zoneDistance position zone) (triggerRadius zone)
  && negb (bool_decide (Zone.id zone ∈ playedOneshots s))
  && negb (bool_decide ("oneshot_finale" ∈ playedOneshots s)
           && negb (String.eqb (Zone.id zone) "oneshot_finale"))
  && negb (String.eqb (Zone.id zone) "oneshot_finale"
           && negb (bool_decide ("oneshot_9" ∈ playedOneshots s))).

(** ** Properties of states used in the statements *)

(** [layerId] runs on nodes that did not exist before handle [n]: its layer
    is marked playing and holds a running, looping source and a gain node
    whose only automation so far pins the gain to 0. *)
Definition freshSince (n : nat) (s' : AudioMixer) (layerId : string) : bool :=
  match JSMap.get layerId (audioLayers s'), audioContext s' with
  | Some l', Some ctx' =>
      match Layer.source l', Layer.gainNode l' with
      | Some src, Some g =>
          Layer.isPlaying l' && (n <=? src)%nat && (n <=? g)%nat
          && match sources ctx' !! src, gains ctx' !! g with
             | Some node, Some gn =>
                 src_loop node && running node
                 && match gain gn with
                    | [SetValue (Fin q)] => Qeq_bool q 0
                    | _ => false
                    end
             | _, _ => false
             end
      | _, _ => false
      end
  | _, _ => false
  end.

(** [layerId] was started afresh by the step from [s] to [s']. *)
Definition startedFresh (s s' : AudioMixer) (layerId : string) : bool :=
  match audioContext s with
  | Some ctx => freshSince (next_handle ctx) s' layerId
  | None => false
  end.

(** The handles of the sources that produce sound. *)
Definition runningSources (s : AudioMixer) : gset nat :=
  match audioContext s with
  | Some ctx => runningHandles ctx
  | None => ∅
  end.

(** [freshSince] as a proposition, with the handles known to the context. *)
Definition runsFresh (n : nat) (s' : AudioMixer) (layerId : string) : Prop :=
  ∃ l' ctx' src g node gn,
    JSMap.get layerId (audioLayers s') = Some l'
    ∧ audioContext s' = Some ctx'
    ∧ Layer.source l' = Some src ∧ Layer.gainNode l' = Some g
    ∧ Layer.isPlaying l' = true
    ∧ (n ≤ src < next_handle ctx')%nat ∧ (n ≤ g < next_handle ctx')%nat
    ∧ sources ctx' !! src = Some node ∧ gains ctx' !! g = Some gn
    ∧ src_loop node = true ∧ running node = true
    ∧ gain gn = [SetValue (Fin 0)].

(** A member layer that [startPart] can start: loaded and not playing. *)
Definition idleLoaded (l : Layer.t) : bool :=
  bool_decide (is_Some (Layer.buffer l)) && negb (Layer.isPlaying l).

(** The rational a finite number stands for (0 for the others). *)
Definition valueOf (n : num) : Q :=
  match n with Fin q => q | _ => 0 end.

(** The largest value among [base] and the numbers of [cs]. *)
Definition maxOf (base : Q) (cs : list num) : Q :=
  fold_left (λ acc c, Qmax acc (valueOf c)) cs base.

(** A numeric property that is absent or a finite number. *)
Definition finiteOrAbsent (v : option num) : Prop :=
  match v with
  | None | Some (Fin _) => True
  | Some _ => False
  end.

(** A zone as the data model has it: numbers are finite and the maximum
    volume is not negative (the radius may be missing). *)
Definition wellFormed (zone : Zone.t) : Prop :=
  finiteOrAbsent (Zone.radius zone)
  ∧ ∃ f m, Zone.fadeDistance zone = Fin f ∧ Zone.maxVolume zone = Fin m ∧ 0 <= m.

(** A finite number that is not negative. *)
Definition nonneg (n : num) : Prop := ∃ q, n = Fin q ∧ 0 <= q.

(** The ramp branch of [zoneVolume], the only one that divides. *)
Definition reachesDivision (distance : num) (zone : Zone.t) : bool :=
  let radius := to_number (Zone.radius zone) in
  num_le distance radius
  && negb (num_le distance
             (num_max (Fin 0) (num_sub radius (Zone.fadeDistance zone)))).

(** The contributions to [layerId] at [position]: one per music zone that
    lists the layer. *)
Definition contributions `{Host} (position : Position) (zones : list Zone.t)
    (layerId : string) : list num :=
  map (λ zone, zoneVolume (zoneDistance position zone) zone)
    (filter (λ zone, Zone.isOneshot zone = false
                     ∧ layerId ∈ Zone.audioLayers zone) zones).

(** ** A host for concrete scenarios

    Positions lie on one meridian and latitudes are read as metres, so the
    distance is the absolute difference of the latitudes; every URL decodes
    except those starting with [missing]. *)
Definition lineHost : Host :=
  {| calculateDistance lat1 lon1 lat2 lon2 :=
       num_max (num_sub lat1 lat2) (num_sub lat2 lat1);
     fetchAndDecode url :=
       if String.prefix "missing" url then None
       else Some {| decodedFrom := url |} |}.

Definition at_metre (m : Q) : Position :=
  {| latitude := Fin m; longitude := Fin 0 |}.

Definition origin : LatLng := {| lat := Fin 0; lng := Fin 0 |}.

Definition musicZone (zoneId : string) (radius fadeDistance maxVolume : Q)
    (layers : list string) : ZoneConfig.t :=
  {| ZoneConfig.id := zoneId; ZoneConfig.center := origin;
     ZoneConfig.radius := Some (Fin radius);
     ZoneConfig.audioLayers := layers;
     ZoneConfig.fadeDistance := Some (Fin fadeDistance);
     ZoneConfig.maxVolume := Some (Fin maxVolume);
     ZoneConfig.isOneshot := None |}.

Definition oneshotZone (zoneId : string) (centre radius : Q)
    (layers : list string) : ZoneConfig.t :=
  {| ZoneConfig.id := zoneId;
     ZoneConfig.center := {| lat := Fin centre; lng := Fin 0 |};
     ZoneConfig.radius := Some (Fin radius);
     ZoneConfig.audioLayers := layers;
     ZoneConfig.fadeDistance := None;
     ZoneConfig.maxVolume := None;
     ZoneConfig.isOneshot := Some true |}.

(** Scenario: oneshot 9 at the origin and the finale 100 m north of it, on
    an initialized mixer. *)
Definition finaleWalk : list call :=
  [ Initialize;
    AddAudioZone (oneshotZone "oneshot_9" 0 10 ["oneshot9"]);
    AddAudioZone (oneshotZone "oneshot_finale" 100 10 ["oneshotFinale"]) ].

(** Scenario: two ordinary oneshots 100 m apart, on an initialized mixer. *)
Definition twoOneshots : list call :=
  [ Initialize;
    AddAudioZone (oneshotZone "oneshot_1" 0 10 ["oneshot1"]);
    AddAudioZone (oneshotZone "oneshot_2" 100 10 ["oneshot2"]) ].

(** Scenario: the part P of two loaded layers A and B on an initialized
    mixer, with A already playing on its own. *)
Definition partWithBusyMember : list call :=
  [ Initialize;
    RegisterLayerDefaults "A" None None (Some "a.mp3");
    RegisterLayerDefaults "B" None None (Some "b.mp3");
    RegisterLayerPart "A" "P";
    RegisterLayerPart "B" "P";
    LoadAudio "a.mp3" "A";
    LoadAudio "b.mp3" "B";
    PlayLayer "A" (Fin 1) true ].

(** Scenario: the part P of the stems A and B under one zone and the lone
    layer C, loaded, under another; [stemB] is the URL of B. *)
Definition stemsAndSolo (stemB : string) : list call :=
  [ Initialize;
    RegisterLayerDefaults "A" None None (Some "a.mp3");
    RegisterLayerDefaults "B" None None (Some stemB);
    RegisterLayerDefaults "C" None None (Some "c.mp3");
    RegisterLayerPart "A" "P";
    RegisterLayerPart "B" "P";
    LoadAudio "c.mp3" "C";
    AddAudioZone (musicZone "stems" 100 20 1 ["A"; "B"]);
    AddAudioZone (musicZone "solo" 100 20 0.8 ["C"]) ].

(** The mixer after a session that starts from [new AudioMixer()]. *)
Definition after `{Host} (calls : list call) : AudioMixer :=
  post (runSession calls constructor).

(** ** Summaries of calls *)

(** What running a call from [s] guarantees when [s] satisfies [I]: the
    mixer afterwards satisfies [I] again, an exception it ends with
    satisfies [E] and every event it reports satisfies [T]. *)
Definition ensures {A : Type} (I : AudioMixer → Prop) (E : exn → Prop)
    (T : event → Prop) (s : AudioMixer) (r : Result A) : Prop :=
  I s → I (post r) ∧ (∀ e, res r = Threw e → E e) ∧ Forall T (out r).

(** Every layer that [audioLayers.get] can return satisfies [P]. *)
Definition allLayers (P : Layer.t → Prop) (s : AudioMixer) : Prop :=
  ∀ layerId l, JSMap.get layerId (audioLayers s) = Some l → P l.

(** The handles of the source nodes are below the next handle. *)
Definition ordered (ctx : AudioContext) : Prop :=
  ∀ h, is_Some (sources ctx !! h) → (h < next_handle ctx)%nat.

(** A layer of a mixer in a consistent state: it plays only with a buffer,
    has a buffer only if the context exists, and the source it holds is a
    node of the context. *)
Definition layerOk (s : AudioMixer) (l : Layer.t) : Prop :=
  (Layer.isPlaying l = true → is_Some (Layer.buffer l))
  ∧ (is_Some (Layer.buffer l) → is_Some (audioContext s))
  ∧ (∀ h, Layer.source l = Some h →
       ∃ ctx, audioContext s = Some ctx ∧ (h < next_handle ctx)%nat).

(** The source [h] produces sound and no layer holds it. *)
Definition unheld (h : nat) (s : AudioMixer) : Prop :=
  allLayers (λ l, Layer.source l ≠ Some h) s
  ∧ ∃ ctx node, audioContext s = Some ctx ∧ sources ctx !! h = Some node
                ∧ running node = true.

(** The handles of the three buses are below the next handle. *)
Definition busesBelow (s : AudioMixer) (ctx : AudioContext) : Prop :=
  ∀ h, masterGain s = Some h ∨ musicBus s = Some h ∨ oneshotBus s = Some h →
       (h < next_handle ctx)%nat.

(** The states a mixer can be in: the context, its buses and the flag come
    together, and the layers are consistent with them.  With [watch = Some
    h], in addition, [h] is a sounding source that no layer holds. *)
Definition sane (watch : option nat) (s : AudioMixer) : Prop :=
  allLayers (layerOk s) s
  ∧ (is_Some (audioContext s) →
     isInitialized s = true ∧ is_Some (masterGain s)
     ∧ is_Some (musicBus s) ∧ is_Some (oneshotBus s))
  ∧ (isInitialized s = true → is_Some (audioContext s))
  ∧ (∀ ctx, audioContext s = Some ctx → ordered ctx ∧ busesBelow s ctx)
  ∧ (∀ h, watch = Some h → unheld h s).

(** An observation of the mixer that loading, playing, stopping and the
    firing of zones leave alone. *)
Class Bystander {X : Type} (f : AudioMixer → X) : Prop := {
  bystander_audioLayers g s : f (set_audioLayers g s) = f s;
  bystander_audioContext g s : f (set_audioContext g s) = f s;
  bystander_startedParts g s : f (set_startedParts g s) = f s;
  bystander_layerGains g s : f (set_layerGains g s) = f s;
  bystander_playedOneshots g s : f (set_playedOneshots g s) = f s
}.

(** An observation of the mixer's settings: a bystander that the playback
    of oneshots leaves alone as well. *)
Class Setting {X : Type} (f : AudioMixer → X) : Prop := {
  setting_bystander :: Bystander f;
  setting_activeOneshots g s : f (set_activeOneshots g s) = f s
}.

(** The calls that configure the mixer; the others load, play and stop. *)
Definition configures (c : call) : bool :=
  match c with
  | Initialize | RegisterLayerPart _ _ | AddAudioZone _ | SetMasterVolume _ => true
  | _ => false
  end.


(** The volumes [setMasterVolume] was called with in a session. *)
Definition masterVolumesSet (calls : list call) : list num :=
  omap (λ c, match c with SetMasterVolume v => Some v | _ => None end) calls.

(** A finite number between 0 and 1. *)
Definition inUnitRange (n : num) : Prop := ∃ q, n = Fin q ∧ 0 <= q ∧ q <= 1.

(** The registry of parts is consistent: the part of a layer lists the
    layer, and every part has an id and members, each once. *)
Definition partsOk (s : AudioMixer) : Prop :=
  (∀ layerId partId, layerToPart s !! layerId = Some partId →
     ∃ members, partToLayers s !! partId = Some members ∧ layerId ∈ members)
  ∧ (∀ partId members, partToLayers s !! partId = Some members →
       partId ≠ "" ∧ members ≠ [] ∧ NoDup members ∧ "" ∉ members).

(** A playing layer holds the source [h]. *)
Definition holds (s : AudioMixer) (h : nat) : Prop :=
  ∃ layerId l, JSMap.get layerId (audioLayers s) = Some l
               ∧ Layer.isPlaying l = true ∧ Layer.source l = Some h.

(** [stopLayer] on a layer object. *)
Definition stopped (l : Layer.t) : Layer.t :=
  if Layer.isPlaying l then Layer.with_playback None None false l else l.

(** What stopping layers does not look at. *)
Definition besidesPlayback (s : AudioMixer) :=
  (masterGain s, musicBus s, oneshotBus s, isInitialized s, masterVolume s,
   audioZones s, layerToPart s, partToLayers s,
   startedParts s, layerGains s, playedOneshots s, activeOneshots s).

(** [s] is [s0] after some of its playing layers were stopped: those layers
    lost their nodes, their sources were stopped, and nothing else
    changed; a source is as it was as long as the layers that hold it
    are. *)
Definition quieter (s0 s : AudioMixer) : Prop :=
  besidesPlayback s = besidesPlayback s0
  ∧ JSMap.keys (audioLayers s) = JSMap.keys (audioLayers s0)
  ∧ (∀ layerId,
       JSMap.get layerId (audioLayers s) = JSMap.get layerId (audioLayers s0)
       ∨ ∃ l, JSMap.get layerId (audioLayers s0) = Some l
              ∧ Layer.isPlaying l = true
              ∧ JSMap.get layerId (audioLayers s)
                = Some (Layer.with_playback None None false l))
  ∧ match audioContext s0, audioContext s with
    | Some ctx0, Some ctx =>
        next_handle ctx = next_handle ctx0 ∧ gains ctx = gains ctx0
        ∧ ∀ h, (sources ctx !! h = sources ctx0 !! h
                ∧ ∀ layerId l,
                    JSMap.get layerId (audioLayers s0) = Some l →
                    Layer.isPlaying l = true → Layer.source l = Some h →
                    JSMap.get layerId (audioLayers s) = Some l)
               ∨ (sources ctx !! h = stopSource <$> sources ctx0 !! h
                  ∧ holds s0 h)
    | None, None => True
    | _, _ => False
    end.

(** How [playOneShot] ducks the music for a layer: the gain the music bus
    ramps to, the duration of the ramp, and the timer that brings the music
    back (oneshot 5 and oneshot 8 silence the music and restore it
    themselves). *)
Definition duckingFor (layerId : string) : num * num * list event :=
  if String.eqb layerId "oneshot8" then
    (Fin 0, Fin 0.5, [SetTimeout 55600%N (DuckTask (Fin 1) (Fin 30))])
  else if String.eqb layerId "oneshot5" then
    (Fin 0, Fin 0.5, [SetTimeout 70000%N (DuckTask (Fin 1) (Fin 20))])
  else (Fin 0.6, Fin 0.3, []).

(** The three calls of [duckMusicBus] on the gain of the music bus. *)
Definition ducked (target duration : num) (n : GainNode) : GainNode :=
  automate (LinearRamp target duration)
    (automate HoldCurrent (automate CancelScheduled n)).


(** [(zone.radius || 0) + (zone.fadeDistance || 0) + margin], the distance
    from which [progressivePreload] requests the layers of a zone. *)
Definition preloadDistance (zone : Zone.t) : num :=
  num_add (num_add (num_or (Zone.radius zone) (Fin 0))
             (num_or (Some (Zone.fadeDistance zone)) (Fin 0)))
    (Fin 150).

(** The loads [progressivePreload] requests for one zone. *)
Definition preloadRequests `{Host} (position : Position) (zone : Zone.t) : list event :=
  if num_le (zoneDistance position zone) (preloadDistance zone) then
    map (λ layerId, Spawn (BackgroundLoad layerId)) (Zone.audioLayers zone)
  else [].

(** How often the part [partId] was started in a trace. *)
Definition isPartStart (partId : string) (e : event) : bool :=
  match e with
  | PartStarted p => String.eqb p partId
  | _ => false
  end.

Fixpoint partStarts (partId : string) (trace : list event) : nat :=
  match trace with
  | [] => 0
  | e :: trace' =>
      (if isPartStart partId e then 1 else 0)%nat + partStarts partId trace'
  end.

(** The starts of [partId] that a call reports are accounted for by the
    set of started parts: the set only grows, and the part is reported once
    if it entered the set and not at all otherwise. *)
Definition tallied {A : Type} (partId : string) (s : AudioMixer)
    (r : Result A) : Prop :=
  startedParts s ⊆ startedParts (post r)
  ∧ partStarts partId (out r)
    = if bool_decide (partId ∈ startedParts (post r) ∧ partId ∉ startedParts s)
      then 1%nat else 0%nat.

(** ** The zone debug map (class [ZoneDebugMap])

    The Leaflet map itself is not represented: a circle or marker is the
    record of the options it is created with, and [zoneMarkers] and
    [zoneCircles] are the lists the class keeps.  The text of the popup is
    left out. *)

Module DebugMap.
(** The properties of a GeoJSON feature that the map reads. *)
Record Props : Type := {
  Name : option string;
  radius_m : option num;
  fadeDistance : option num
}.

(** The options of [L.circleMarker]. *)
Record Marker : Type := {
  markerAt : LatLng;
  markerRadius : num;
  markerFillColor : string;
  markerColor : string;
  markerWeight : num;
  markerOpacity : num;
  markerFillOpacity : num
}.

(** The options of [L.circle]. *)
Record Circle : Type := {
  circleAt : LatLng;
  circleRadius : num;
  circleColor : string;
  circleWeight : num;
  circleDashArray : option string;
  circleFillColor : string;
  circleFillOpacity : num
}.

Record t : Type := {
  zoneMarkers : list Marker;
  zoneCircles : list Circle
}.

(** [new ZoneDebugMap()], before [init()] *)
Definition constructor : t := {| zoneMarkers := []; zoneCircles := [] |}.

(** [hay.includes(needle)] *)
Fixpoint includes (needle hay : string) : bool :=
  String.prefix needle hay
  || match hay with
     | EmptyString => false
     | String _ hay' => includes needle hay'
     end.

(** The colour coding of [addZoneMarker]. *)
Definition colorOf (name : string) : string :=
  if includes "music 1" name then "#ff0000"
  else if includes "music 2" name then "#00ff00"
  else if includes "music 3" name then "#0000ff"
  else if includes "music 4" name then "#ffff00"
  else if includes "music 5" name then "#ff00ff"
  else "#00ff00".

(** [addZoneMarker(props, coords)] with [coords = [lng, lat]]; without a
    name, [props.Name.includes] raises a TypeError and the result is
    [None]. *)
Definition addZoneMarker (props : Props) (coords : num * num) (m : t) : option t :=
  let lat := coords.2 in
  let lng := coords.1 in
  let radius := num_or (radius_m props) (Fin 50) in
  let fadeDistance := num_or (fadeDistance props) (Fin 30) in
  match Name props with
  | None => None
  | Some name =>
      let color := colorOf name in
      let marker := {| markerAt := {| lat := lat; lng := lng |};
                       markerRadius := Fin 5; markerFillColor := color;
                       markerColor := "#fff"; markerWeight := Fin 1;
                       markerOpacity := Fin 1; markerFillOpacity := Fin 0.8 |} in
      let innerCircle := {| circleAt := {| lat := lat; lng := lng |};
                            circleRadius := radius; circleColor := color;
                            circleWeight := Fin 2; circleDashArray := None;
                            circleFillColor := color;
                            circleFillOpacity := Fin 0.1 |} in
      let outerCircle := {| circleAt := {| lat := lat; lng := lng |};
                            circleRadius := num_add radius fadeDistance;
                            circleColor := color; circleWeight := Fin 1;
                            circleDashArray := Some "5, 5";
                            circleFillColor := color;
                            circleFillOpacity := Fin 0.05 |} in
      Some {| zoneMarkers := zoneMarkers m ++ [marker];
              zoneCircles := zoneCircles m ++ [innerCircle; outerCircle] |}
  end.


End DebugMap.

(** ** The walk application (class [TheWalkApp]), as far as it drives the
    mixer

    Of the application only the two flags of the walk are represented; its
    user interface, the wake lock and the location service are left out. *)

Record WalkApp : Type := { isWalking : bool; isPaused : bool }.

(** The callback of [audioMixer.audioLayers.forEach] in [pauseWalk]. *)
Definition pauseLayer (layerId : string) : M unit := λ s,
  match JSMap.get layerId (audioLayers s) with
  | None => ret tt s
  | Some layer =>
      if Layer.isPlaying layer && negb (String.prefix "oneshot" layerId) then
        (fadeLayer layerId (Fin 0) (Fin 0.5) ;;
         emit (SetTimeout 600%N (StopLayerTask layerId))) s
      else ret tt s
  end.

(** [pauseWalk()]: the flags afterwards. *)
Definition pauseWalk (app : WalkApp) : M WalkApp := λ s,
  if negb (isWalking app) || isPaused app then ret app s
  else
    (layerIds <- gets (λ s, JSMap.keys (audioLayers s)) ;;
     forEach pauseLayer layerIds ;;
     ret {| isWalking := isWalking app; isPaused := true |}) s.

(** The callbacks of the timers a trace has set, in the order in which
    they were set. *)
Definition timerTasks (trace : list event) : list task :=
  omap (λ e, match e with SetTimeout _ t => Some t | _ => None end) trace.

(** * Verification *)

(** ** Numbers *)

Lemma num_le_Fin (a b : Q) : num_le (Fin a) (Fin b) = true ↔ a <= b.
Proof. simpl. apply Qle_bool_iff. Qed.

Lemma num_le_Fin_false (a b : Q) : num_le (Fin a) (Fin b) = false ↔ b < a.
Proof.
  simpl. split; intros Hab.
  - apply Qnot_le_lt. intros Hle. apply Qle_bool_iff in Hle. congruence.
  - destruct (Qle_bool a b) eqn:E; [|done].
    apply Qle_bool_iff in E. lra.
Qed.

Lemma Qeq_bool_false (a b : Q) : Qeq_bool a b = false ↔ ¬ a == b.
Proof.
  split.
  - intros E Hab. apply Qeq_bool_iff in Hab. congruence.
  - intros Hab. destruct (Qeq_bool a b) eqn:E; [|done].
    apply Qeq_bool_iff in E. contradiction.
Qed.

Lemma num_max_Fin (a b : Q) :
  num_max (Fin a) (Fin b) = Fin (if Qle_bool a b then b else a).
Proof. simpl. by destruct (Qle_bool a b). Qed.

Lemma fadeStart_Qmax (r f : Q) :
  ∃ q, num_max (Fin 0) (num_sub (Fin r) (Fin f)) = Fin q ∧ q == Qmax 0 (r - f).
Proof.
  simpl num_sub. rewrite num_max_Fin.
  destruct (Qle_bool 0 (r - f)) eqn:E; eexists; split; try reflexivity.
  - apply Qle_bool_iff in E. symmetry. apply Q.max_r. done.
  - apply (num_le_Fin_false 0 (r - f)) in E. symmetry. apply Q.max_l. lra.
Qed.

Section Volume.
Context `{Host}.

Lemma zoneVolume_outside (z : Zone.t) (r d : Q) :
  Zone.radius z = Some (Fin r) → r < d → zoneVolume (Fin d) z = Fin 0.
Proof.
  intros Hr Hd. unfold zoneVolume. rewrite Hr. simpl to_number.
  apply num_le_Fin_false in Hd. by rewrite Hd.
Qed.

Lemma zoneVolume_core (z : Zone.t) (r f d : Q) :
  Zone.radius z = Some (Fin r) → Zone.fadeDistance z = Fin f →
  d <= r → d <= Qmax 0 (r - f) → zoneVolume (Fin d) z = Zone.maxVolume z.
Proof.
  intros Hr Hf Hd Hcore. unfold zoneVolume. rewrite Hr, Hf. simpl to_number.
  apply num_le_Fin in Hd. rewrite Hd.
  destruct (fadeStart_Qmax r f) as (q & -> & Hq).
  assert (num_le (Fin d) (Fin q) = true) as ->; [|done].
  apply num_le_Fin. lra.
Qed.

Lemma ramp_divisor_nonzero (r f d : Q) :
  d <= r → ¬ d <= Qmax 0 (r - f) → 0 < f.
Proof.
  intros Hd Hring.
  destruct (Q.max_spec 0 (r - f)) as [[? E]|[? E]]; rewrite E in Hring; lra.
Qed.

Lemma zoneVolume_ramp (z : Zone.t) (r f m d : Q) :
  Zone.radius z = Some (Fin r) → Zone.fadeDistance z = Fin f →
  Zone.maxVolume z = Fin m →
  d <= r → ¬ d <= Qmax 0 (r - f) →
  zoneVolume (Fin d) z = Fin (m * ((r - d) / f)).
Proof.
  intros Hr Hf Hm Hd Hring. unfold zoneVolume. rewrite Hr, Hf, Hm. simpl to_number.
  pose proof (ramp_divisor_nonzero _ _ _ Hd Hring) as Hpos.
  apply num_le_Fin in Hd. rewrite Hd.
  destruct (fadeStart_Qmax r f) as (q & -> & Hq).
  assert (num_le (Fin d) (Fin q) = false) as ->.
  { apply num_le_Fin_false. apply Qnot_le_lt. intros Hle. apply Hring. lra. }
  simpl. assert (Qeq_bool f 0 = false) as ->; [|done].
  apply Qeq_bool_false. lra.
Qed.
End Volume.

(** ** Insertion-ordered maps *)

Lemma JSMap_get_set_eq {V} (k : string) (v : V) (m : JSMap.t V) :
  JSMap.get k (JSMap.set k v m) = Some v.
Proof.
  induction m as [|[k' v'] m IH]; simpl.
  - by rewrite String.eqb_refl.
  - destruct (String.eqb k k') eqn:E; simpl.
    + by rewrite String.eqb_refl.
    + by rewrite E.
Qed.

Lemma JSMap_get_set_ne {V} (k k' : string) (v : V) (m : JSMap.t V) :
  k ≠ k' → JSMap.get k (JSMap.set k' v m) = JSMap.get k m.
Proof.
  intros Hne. induction m as [|[k1 v1] m IH]; simpl.
  - apply String.eqb_neq in Hne. by rewrite Hne.
  - destruct (String.eqb k' k1) eqn:E; simpl.
    + apply String.eqb_eq in E. subst k1.
      apply String.eqb_neq in Hne. by rewrite Hne.
    + by rewrite IH.
Qed.

Lemma JSMap_keys_set_present {V} (k : string) (v : V) (m : JSMap.t V) :
  is_Some (JSMap.get k m) → JSMap.keys (JSMap.set k v m) = JSMap.keys m.
Proof.
  unfold JSMap.keys. induction m as [|[k' v'] m IH]; simpl.
  - by intros [? [=]].
  - destruct (String.eqb k k') eqn:E; simpl; intros Hs.
    + apply String.eqb_eq in E. by subst.
    + by rewrite IH.
Qed.

(** ** The contribution of one zone (C1) *)

Section ZoneContribution.
Context `{Host}.

(** C1. For a music zone [z] whose radius [r], fade distance [f] and maximum
    volume [m] are numbers, and a position at distance [d] from its centre,
    the contribution that step 2 of [updateLocationAudio] computes is 0 when
    [d > r], [m] when [d <= max(0, r - f)], and [m * (r - d) / f] otherwise;
    that contribution is what the zone raises its layers' targets with.  For
    the zone registered with radius 100, fade distance 20, maximum volume
    1.0 and the single layer L1, the target of L1 is 1.0 at distance 0, 0.5
    at distance 90 and 0 at distance 150. *)
Theorem zone_contribution_piecewise (z : Zone.t) (p : Position) (r f m d : Q) :
  Zone.radius z = Some (Fin r) →
  Zone.fadeDistance z = Fin f →
  Zone.maxVolume z = Fin m →
  zoneDistance p z = Fin d →
  let contribution := zoneVolume (zoneDistance p z) z in
  (r < d → contribution = Fin 0)
  ∧ (d <= r → d <= Qmax 0 (r - f) → contribution = Fin m)
  ∧ (d <= r → ¬ d <= Qmax 0 (r - f) → contribution =n= Fin (m * (r - d) / f))
  ∧ (Zone.isOneshot z = false →
     ∀ targets, zoneTargets p targets z
                = fold_left (raiseTarget contribution) (Zone.audioLayers z) targets)
  ∧ (let registry :=
       audioZones (after [AddAudioZone (musicZone "z1" 100 20 1 ["L1"])]) in
     ∀ (p' : Position) (d' : Q),
       calculateDistance (latitude p') (longitude p') (Fin 0) (Fin 0) = Fin d' →
       let target := targetVolume (computeLayerTargetVolumes p' registry) "L1" in
       (d' == 0 → target =n= Fin 1)
       ∧ (d' == 90 → target =n= Fin 0.5)
       ∧ (d' == 150 → target =n= Fin 0)).
Proof.
  intros Hr Hf Hm Hd contribution. subst contribution. rewrite Hd.
  split; [|split; [|split; [|split]]].
  - intros Hout. by apply (zoneVolume_outside z r d).
  - intros Hin Hcore. rewrite (zoneVolume_core z r f d) by done. done.
  - intros Hin Hring. rewrite (zoneVolume_ramp z r f m d) by done.
    simpl. unfold Qdiv. ring.
  - intros Hmusic targets. unfold zoneTargets. by rewrite Hmusic, Hd.
  - intros registry p' d' Hd' target.
    assert (∃ z1, registry = [z1] ∧ Zone.radius z1 = Some (Fin 100)
                  ∧ Zone.fadeDistance z1 = Fin 20 ∧ Zone.maxVolume z1 = Fin 1
                  ∧ Zone.isOneshot z1 = false ∧ Zone.audioLayers z1 = ["L1"]
                  ∧ Zone.center z1 = origin)
      as (z1 & Hreg & Hr1 & Hf1 & Hm1 & Hmusic & Hlayers & Hcentre).
    { eexists. split; [reflexivity|]. by repeat split. }
    assert (target = num_or (Some (num_max (Fin 0) (zoneVolume (Fin d') z1))) (Fin 0))
      as Htarget.
    { subst target. rewrite Hreg. unfold computeLayerTargetVolumes. simpl.
      unfold zoneTargets. rewrite Hmusic, Hlayers. simpl.
      unfold raiseTarget, targetVolume. simpl.
      unfold zoneDistance. rewrite Hcentre. simpl. by rewrite Hd'. }
    rewrite Htarget. clear Htarget.
    split; [|split]; intros E.
    + rewrite (zoneVolume_core z1 100 20 d') by
        (try done; try lra;
         destruct (Q.max_spec 0 (100 - 20)) as [[? E']|[? E']]; rewrite E'; lra).
      rewrite Hm1. reflexivity.
    + rewrite (zoneVolume_ramp z1 100 20 1 d'); try done; try lra.
      * simpl. destruct (Qle_bool 0 (1 * ((100 - d') / 20))) eqn:Ele.
        -- simpl. destruct (Qeq_bool (1 * ((100 - d') / 20)) 0) eqn:Ez; simpl.
           ++ apply Qeq_bool_iff in Ez. rewrite E in Ez. discriminate Ez.
           ++ rewrite E. reflexivity.
        -- apply (num_le_Fin_false 0) in Ele. rewrite E in Ele.
           apply Qlt_not_le in Ele. exfalso. apply Ele. discriminate.
      * destruct (Q.max_spec 0 (100 - 20)) as [[? E']|[? E']]; rewrite E'; lra.
    + rewrite (zoneVolume_outside z1 100 d') by (done || lra). reflexivity.
Qed.
End ZoneContribution.

(** The inputs of the scenario of C1: the registered zone z1 seen from 90 m. *)
Lemma zone_contribution_piecewise_witness :
  let z := zoneOf (musicZone "z1" 100 20 1 ["L1"]) in
  let p := at_metre 90 in
  Zone.radius z = Some (Fin 100)
  ∧ Zone.fadeDistance z = Fin 20
  ∧ Zone.maxVolume z = Fin 1
  ∧ @zoneDistance lineHost p z = Fin 90
  ∧ (90 <= 100 → ¬ 90 <= Qmax 0 (100 - 20) →
     @zoneVolume (@zoneDistance lineHost p z) z =n= Fin (1 * (100 - 90) / 20)).
Proof.
  intros z p.
  assert (Zone.radius z = Some (Fin 100)) as Hr by reflexivity.
  assert (Zone.fadeDistance z = Fin 20) as Hf by reflexivity.
  assert (Zone.maxVolume z = Fin 1) as Hm by reflexivity.
  assert (@zoneDistance lineHost p z = Fin 90) as Hd by reflexivity.
  refine (conj Hr (conj Hf (conj Hm (conj Hd _)))).
  exact (proj1 (proj2 (proj2
    (@zone_contribution_piecewise lineHost z p 100 20 1 90 Hr Hf Hm Hd)))).
Defined.

(** ** Explicit zeros in a zone definition (C7) *)

(** C7 at its failing input.  A definition with an explicit fade distance of
    0 and an explicit maximum volume of 0 is stored with fade distance 50
    and maximum volume 1: at 90 m from the centre of its 100 m disc the zone
    contributes 0.2, where the definition asked for silence. *)
Theorem addAudioZone_overrides_explicit_zero :
  let z := zoneOf (musicZone "silent" 100 0 0 ["L1"]) in
  Zone.fadeDistance z = Fin 50
  ∧ Zone.maxVolume z = Fin 1
  ∧ zoneVolume (Fin 90) z =n= Fin 0.2
  ∧ zoneVolume (Fin 0) z =n= Fin 1.
Proof. repeat split. Qed.

(** ** Calls that stay out of the oneshot controller *)

Section Frame.
Context {X : Type} (f : AudioMixer → X) `{!Insensitive f}.
Context `{Host}.

Lemma framed_ret {A} (a : A) s : framed f s (ret a s).
Proof. by split; [|constructor]. Qed.

Lemma framed_throw {A} e s : framed f s (@throw A e s).
Proof. by split; [|constructor]. Qed.

Lemma framed_gets {A} (g : AudioMixer → A) s : framed f s (gets g s).
Proof. by split; [|constructor]. Qed.

Lemma framed_emit e s : notTrigger e → framed f s (emit e s).
Proof. intros He. split; [done|]. by repeat constructor. Qed.

Lemma framed_modify g s : f (g s) = f s → framed f s (modify g s).
Proof. intros Hg. by split; [|constructor]. Qed.

Lemma framed_bind {A B} (m : M A) (k : A → M B) s :
  framed f s (m s) → (∀ a s', framed f s' (k a s')) → framed f s (bind m k s).
Proof.
  intros [Hf Ho] Hk. unfold bind, framed.
  destruct (res (m s)) as [a|e] eqn:E; simpl; [|by split].
  destruct (Hk a (post (m s))) as [Hf' Ho']. split.
  - by rewrite Hf'.
  - by apply Forall_app.
Qed.

Lemma framed_forEach {A} (g : A → M unit) (l : list A) s :
  (∀ x s', framed f s' (g x s')) → framed f s (forEach g l s).
Proof.
  intros Hg. revert s. induction l as [|x l IH]; intros s; simpl.
  - apply framed_ret.
  - apply framed_bind; [apply Hg|]. intros _ s'. apply IH.
Qed.

Lemma framed_promiseAll (ms : list (M unit)) s :
  (∀ m s', m ∈ ms → framed f s' (m s')) → framed f s (promiseAll ms s).
Proof.
  revert s. induction ms as [|m ms IH]; intros s Hms; simpl.
  - apply framed_ret.
  - destruct (Hms m s) as [Hf Ho]; [left|].
    destruct (IH (post (m s))) as [Hf' Ho'].
    { intros m' s' Hm'. apply Hms. by right. }
    split; simpl.
    + by rewrite Hf'.
    + by apply Forall_app.
Qed.

Lemma mutateLayer_insensitive layerId g s : f (mutateLayer layerId g s) = f s.
Proof. unfold mutateLayer. case_match; [apply ins_audioLayers|done]. Qed.

Ltac untouched :=
  repeat first
    [ progress rewrite ?mutateLayer_insensitive, ?ins_initialized, ?ins_audioLayers,
        ?ins_audioContext, ?ins_masterVolume, ?ins_parts, ?ins_startedParts,
        ?ins_layerGains, ?ins_activeOneshots
    | case_match ];
  done.

Ltac frame :=
  repeat first
    [ apply framed_ret
    | apply framed_throw
    | apply framed_gets
    | apply framed_emit; exact I
    | apply framed_modify; untouched
    | apply framed_bind; [|intros ? ?]
    | apply framed_forEach; intros ? ?
    | progress cbv beta iota zeta delta [createBufferSource createGain]
    | case_match ].

Lemma framed_initialize s : framed f s (initialize s).
Proof. unfold initialize. frame. Qed.

Lemma framed_loadAudio url layerId s : framed f s (loadAudio url layerId s).
Proof. unfold loadAudio. frame. Qed.

Lemma framed_ensureLayerLoaded layerId s : framed f s (ensureLayerLoaded layerId s).
Proof. unfold ensureLayerLoaded. frame; apply framed_loadAudio. Qed.

Lemma framed_registerLayerDefaults layerId loop volume url s :
  framed f s (registerLayerDefaults layerId loop volume url s).
Proof. unfold registerLayerDefaults. frame. Qed.

Lemma framed_registerLayerPart layerId partId s :
  framed f s (registerLayerPart layerId partId s).
Proof. unfold registerLayerPart. frame. Qed.

Lemma framed_startPartLayer layerId s : framed f s (startPartLayer layerId s).
Proof. unfold startPartLayer. frame. Qed.

Lemma framed_startPart partId s : framed f s (startPart partId s).
Proof. unfold startPart. frame. apply framed_startPartLayer. Qed.

Lemma framed_playLayer layerId volume loop s : framed f s (playLayer layerId volume loop s).
Proof. unfold playLayer. frame. Qed.

Lemma framed_stopLayer layerId s : framed f s (stopLayer layerId s).
Proof. unfold stopLayer. frame. Qed.

Lemma framed_setLayerVolume layerId volume s : framed f s (setLayerVolume layerId volume s).
Proof. unfold setLayerVolume. frame. Qed.

Lemma framed_fadeLayer layerId target duration s :
  framed f s (fadeLayer layerId target duration s).
Proof. unfold fadeLayer. frame. Qed.

Lemma framed_setMasterVolume volume s : framed f s (setMasterVolume volume s).
Proof. unfold setMasterVolume. frame. Qed.

Lemma framed_duckMusicBus target duration s : framed f s (duckMusicBus target duration s).
Proof. unfold duckMusicBus. frame. Qed.

Lemma framed_playOneShot layerId s : framed f s (playOneShot layerId s).
Proof. unfold playOneShot. frame; apply framed_duckMusicBus. Qed.

Lemma framed_progressivePreload position s : framed f s (progressivePreload position s).
Proof. unfold progressivePreload. frame. Qed.

Lemma framed_stopAll s : framed f s (stopAll s).
Proof. unfold stopAll. frame. apply framed_stopLayer. Qed.

Lemma framed_runTask t s : framed f s (runTask t s).
Proof.
  destruct t; simpl.
  - apply framed_bind; [apply framed_ensureLayerLoaded|].
    intros _ s'. apply framed_playOneShot.
  - apply framed_ensureLayerLoaded.
  - apply framed_stopLayer.
  - apply framed_duckMusicBus.
Qed.

Lemma framed_loadAndStartPart partId s : framed f s (loadAndStartPart partId s).
Proof.
  unfold loadAndStartPart.
  apply framed_bind; [apply framed_gets|]. intros layerSet s1.
  apply framed_bind; [|intros _ s2; apply framed_startPart].
  destruct layerSet as [layerSet|]; [|apply framed_ret].
  apply framed_promiseAll. intros m s2 Hm.
  apply list_elem_of_fmap in Hm as (layerId & -> & _).
  apply framed_ensureLayerLoaded.
Qed.

Lemma framed_applyFade targets layerId s : framed f s (applyFade targets layerId s).
Proof.
  unfold applyFade.
  repeat case_match;
    repeat first
      [ apply framed_ret | apply framed_playLayer | apply framed_fadeLayer
      | apply framed_emit; exact I
      | apply framed_bind; [|intros ? ?] ].
Qed.
End Frame.

(** ** The oneshot trigger controller *)

#[local] Instance playedOneshots_insensitive : Insensitive playedOneshots.
Proof. by constructor. Qed.

#[local] Instance audioZones_insensitive : Insensitive audioZones.
Proof. by constructor. Qed.

Lemma fireCount_app (zoneId : string) (t1 t2 : list event) :
  fireCount zoneId (t1 ++ t2) = (fireCount zoneId t1 + fireCount zoneId t2)%nat.
Proof. induction t1 as [|e t1 IH]; simpl; [done|]. rewrite IH. lia. Qed.

Lemma fireCount_quiet (zoneId : string) (t : list event) :
  Forall notTrigger t → fireCount zoneId t = 0%nat.
Proof.
  induction 1 as [|e t He _ IH]; simpl; [done|].
  rewrite IH. by destruct e.
Qed.

Section Oneshots.
Context `{Host}.

Lemma oneshotStep_spec (p : Position) (z : Zone.t) (s : AudioMixer) :
  let r := oneshotStep p z s in
  res r = Returned tt
  ∧ if fires p z s then
      post r = set_playedOneshots (union {[Zone.id z]}) s
      ∧ out r = OneshotTriggered (Zone.id z)
                  :: map (λ layerId, Spawn (OneshotTask layerId)) (Zone.audioLayers z)
    else post r = s ∧ Forall notTrigger (out r).
Proof.
  assert (∀ (ls : list string) s',
    let r := forEach (λ layerId, emit (Spawn (OneshotTask layerId))) ls s' in
    res r = Returned tt ∧ post r = s'
    ∧ out r = map (λ layerId, Spawn (OneshotTask layerId)) ls) as Hspawn.
  { induction ls as [|l ls IH]; intros s'; simpl; [done|].
    unfold bind. simpl. destruct (IH s') as (-> & -> & ->). done. }
  unfold oneshotStep, fires.
  destruct (Zone.isOneshot z); simpl; [|by repeat constructor].
  destruct (num_le (zoneDistance p z) (triggerRadius z)); simpl;
    [|by repeat constructor].
  destruct (bool_decide (Zone.id z ∈ playedOneshots s)); simpl;
    [by repeat constructor|].
  destruct (bool_decide ("oneshot_finale" ∈ playedOneshots s)
            && negb (String.eqb (Zone.id z) "oneshot_finale")); simpl;
    [by repeat constructor|].
  destruct (String.eqb (Zone.id z) "oneshot_finale"
            && negb (bool_decide ("oneshot_9" ∈ playedOneshots s))); simpl;
    [by repeat constructor|].
  unfold bind. simpl.
  destruct (Hspawn (Zone.audioLayers z)
              (set_playedOneshots (union {[Zone.id z]}) s)) as (-> & -> & ->).
  done.
Qed.

(** Step 1 leaves alone whatever ignores the played set. *)
Lemma oneshotStep_keeps {X} (f : AudioMixer → X) (p : Position) (z : Zone.t)
    (s : AudioMixer) :
  (∀ g s', f (set_playedOneshots g s') = f s') →
  f (post (oneshotStep p z s)) = f s.
Proof.
  intros Hf. destruct (oneshotStep_spec p z s) as [_ Hr].
  destruct (fires p z s); destruct Hr as [-> _]; [apply Hf|done].
Qed.

Lemma step1_keeps {X} (f : AudioMixer → X) (p : Position) (zones : list Zone.t)
    (s : AudioMixer) :
  (∀ g s', f (set_playedOneshots g s') = f s') →
  f (post (forEach (oneshotStep p) zones s)) = f s.
Proof.
  intros Hf. revert s. induction zones as [|z zones IH]; intros s; simpl; [done|].
  unfold bind. destruct (oneshotStep_spec p z s) as [-> _]. simpl.
  rewrite IH. by apply oneshotStep_keeps.
Qed.

(** What step 1 does to the played set and how often each zone fires: a
    zone id is reported exactly when it enters the set. *)
Lemma step1_played (p : Position) (zones : list Zone.t) (s : AudioMixer) (zoneId : string) :
  let r := forEach (oneshotStep p) zones s in
  res r = Returned tt
  ∧ playedOneshots s ⊆ playedOneshots (post r)
  ∧ fireCount zoneId (out r)
    = if bool_decide (zoneId ∈ playedOneshots (post r) ∧ zoneId ∉ playedOneshots s)
      then 1%nat else 0%nat.
Proof.
  revert s. induction zones as [|z zones IH]; intros s; simpl.
  - split; [done|]. split; [done|]. rewrite bool_decide_eq_false_2; [done|].
    intros [? ?]. done.
  - unfold bind. destruct (oneshotStep_spec p z s) as [Hres Hstep].
    rewrite Hres. simpl.
    destruct (IH (post (oneshotStep p z s))) as (Hres' & Hsub & Hcount).
    rewrite Hres'. split; [done|].
    rewrite fireCount_app, Hcount. clear Hcount.
    destruct (fires p z s) eqn:Hfires.
    + destruct Hstep as [Hpost Hout]. rewrite Hpost in *. simpl in Hsub |- *.
      rewrite Hout. simpl.
      assert (fireCount zoneId
                (map (λ layerId, Spawn (OneshotTask layerId)) (Zone.audioLayers z))
              = 0%nat) as ->.
      { apply fireCount_quiet. apply Forall_fmap. by apply Forall_true. }
      assert (Zone.id z ∉ playedOneshots s) as Hfresh.
      { unfold fires in Hfires. intros Hin.
        apply (bool_decide_eq_true_2 _) in Hin. rewrite Hin in Hfires.
        by rewrite !andb_false_r in Hfires. }
      assert (playedOneshots s
              ⊆ playedOneshots
                  (post (forEach (oneshotStep p) zones
                           (set_playedOneshots (union {[Zone.id z]}) s)))) as Hsub'.
      { intros y Hy. apply Hsub, elem_of_union. by right. }
      split; [done|].
      destruct (String.eqb (Zone.id z) zoneId) eqn:E.
      * apply String.eqb_eq in E. subst zoneId.
        rewrite (bool_decide_eq_false_2 (_ ∧ Zone.id z ∉ _ ∪ _)).
        2:{ intros [_ Hnot]. apply Hnot, elem_of_union. left.
            by apply elem_of_singleton. }
        rewrite bool_decide_eq_true_2; [done|].
        split; [|done]. apply Hsub, elem_of_union. left. by apply elem_of_singleton.
      * apply String.eqb_neq in E. simpl.
        match goal with
        | |- (if bool_decide ?P then _ else _) = (if bool_decide ?Q then _ else _) =>
            rewrite (bool_decide_ext P Q)
        end; [done|].
        split; intros [Hin Hnot]; (split; [done|]); intros Hy; apply Hnot.
        -- apply elem_of_union. by right.
        -- apply elem_of_union in Hy as [Hy|Hy]; [|done].
           apply elem_of_singleton in Hy. by subst.
    + destruct Hstep as [Hpost Hout]. rewrite Hpost in *.
      rewrite (fireCount_quiet _ _ Hout). done.
Qed.

Lemma entered_compose (P Q R : gset string) (x : string) :
  P ⊆ Q → Q ⊆ R →
  ((if bool_decide (x ∈ Q ∧ x ∉ P) then 1 else 0)
   + (if bool_decide (x ∈ R ∧ x ∉ Q) then 1 else 0))%nat
  = if bool_decide (x ∈ R ∧ x ∉ P) then 1%nat else 0%nat.
Proof.
  intros HPQ HQR. specialize (HPQ x). specialize (HQR x).
  repeat case_bool_decide; first [done | exfalso; tauto].
Qed.

Lemma bind_framed_tail {X A B} (f : AudioMixer → X) (m : M A) (k : A → M B)
    (s : AudioMixer) :
  (∀ a s', framed f s' (k a s')) →
  f (post (bind m k s)) = f (post (m s))
  ∧ ∃ tail, out (bind m k s) = out (m s) ++ tail ∧ Forall notTrigger tail.
Proof.
  intros Hk. unfold bind. destruct (res (m s)) as [a|e]; simpl.
  - destruct (Hk a (post (m s))) as [Hf Ho]. split; [done|]. eauto.
  - split; [done|]. exists []. by rewrite app_nil_r.
Qed.

(** Steps 2 to 4 stay out of the oneshot controller. *)
Lemma framed_music_steps {X} (f : AudioMixer → X) `{!Insensitive f}
    (p : Position) (s : AudioMixer) :
  framed f s
    ((layerTargetVolumes <- gets (λ s, computeLayerTargetVolumes p (audioZones s)) ;;
      partsToStart <- gets (λ s, collectPartsToStart s layerTargetVolumes) ;;
      forEach loadAndStartPart partsToStart ;;
      layerIds <- gets (λ s, JSMap.keys (audioLayers s)) ;;
      forEach (applyFade layerTargetVolumes) layerIds) s).
Proof.
  apply framed_bind; [apply framed_gets|]. intros targets s1.
  apply framed_bind; [apply framed_gets|]. intros parts s2.
  apply framed_bind.
  { apply framed_forEach. intros partId s3. by apply framed_loadAndStartPart. }
  intros _ s3. apply framed_bind; [apply framed_gets|]. intros ids s4.
  apply framed_forEach. intros layerId s5. by apply framed_applyFade.
Qed.

(** The played set and the firings of one call of [updateLocationAudio]
    are those of its step 1. *)
Lemma tick_is_step1 (p : Position) (s : AudioMixer) :
  isReady s = true →
  let r := updateLocationAudio (Some p) s in
  let r1 := forEach (oneshotStep p) (audioZones s) s in
  playedOneshots (post r) = playedOneshots (post r1)
  ∧ ∀ zoneId, fireCount zoneId (out r) = fireCount zoneId (out r1).
Proof.
  intros Hready r r1. subst r r1. unfold updateLocationAudio. rewrite Hready. simpl.
  match goal with
  | |- context [bind ?m ?k s] =>
      destruct (bind_framed_tail playedOneshots m k s) as (Hf & tail & Hout & Hq)
  end.
  { intros _ s'. apply framed_music_steps. apply _. }
  split; [done|]. intros zoneId.
  rewrite Hout, fireCount_app, (fireCount_quiet _ tail Hq). lia.
Qed.

Lemma tick_idle (position : option Position) (s : AudioMixer) :
  position = None ∨ isReady s = false →
  post (updateLocationAudio position s) = s
  ∧ out (updateLocationAudio position s) = [].
Proof.
  unfold updateLocationAudio. intros [->|Hnot]; [done|].
  destruct position; [|done]. by rewrite Hnot.
Qed.

Lemma tick_played (position : option Position) (s : AudioMixer) (zoneId : string) :
  let r := updateLocationAudio position s in
  playedOneshots s ⊆ playedOneshots (post r)
  ∧ fireCount zoneId (out r)
    = if bool_decide (zoneId ∈ playedOneshots (post r) ∧ zoneId ∉ playedOneshots s)
      then 1%nat else 0%nat.
Proof.
  intros r. subst r.
  destruct position as [p|]; [destruct (isReady s) eqn:Hready|].
  - destruct (tick_is_step1 p s Hready) as [-> Hcount]. rewrite Hcount.
    by destruct (step1_played p (audioZones s) s zoneId) as (_ & ? & ?).
  - destruct (tick_idle (Some p) s) as [-> ->]; [by right|]. simpl.
    split; [done|]. rewrite bool_decide_eq_false_2; [done|]. tauto.
  - destruct (tick_idle None s) as [-> ->]; [by left|]. simpl.
    split; [done|]. rewrite bool_decide_eq_false_2; [done|]. tauto.
Qed.

(** Every call but [updateLocationAudio] and [reset] stays out of the
    oneshot controller. *)
Lemma perform_framed (c : call) (s : AudioMixer) :
  isResetCall c = false →
  (∀ position, c ≠ UpdateLocationAudio position) →
  framed playedOneshots s (perform c s).
Proof.
  intros Hreset Hupdate. destruct c; simpl; try discriminate Hreset.
  - by apply framed_initialize.
  - by apply framed_loadAudio.
  - by apply framed_ensureLayerLoaded.
  - by apply framed_registerLayerDefaults.
  - by apply framed_registerLayerPart.
  - by apply framed_startPart.
  - split; [done|]. by repeat constructor.
  - by apply framed_playLayer.
  - by apply framed_stopLayer.
  - by apply framed_setLayerVolume.
  - by apply framed_fadeLayer.
  - by apply framed_setMasterVolume.
  - by destruct (Hupdate position).
  - by apply framed_playOneShot.
  - by apply framed_progressivePreload.
  - by apply framed_stopAll.
  - by apply framed_runTask.
Qed.

Lemma perform_played (c : call) (s : AudioMixer) (zoneId : string) :
  isResetCall c = false →
  let r := perform c s in
  playedOneshots s ⊆ playedOneshots (post r)
  ∧ fireCount zoneId (out r)
    = if bool_decide (zoneId ∈ playedOneshots (post r) ∧ zoneId ∉ playedOneshots s)
      then 1%nat else 0%nat.
Proof.
  intros Hreset r. subst r.
  assert ((∃ position, c = UpdateLocationAudio position)
          ∨ ∀ position, c ≠ UpdateLocationAudio position) as [[position ->]|Hother].
  { destruct c; try (by right); left; eauto. }
  - apply tick_played.
  - destruct (perform_framed c s Hreset Hother) as [Hf Hq].
    rewrite Hf, (fireCount_quiet _ _ Hq). split; [done|].
    rewrite bool_decide_eq_false_2; [done|]. tauto.
Qed.

Lemma session_played (calls : list call) (s : AudioMixer) (zoneId : string) :
  Forall (λ c, isResetCall c = false) calls →
  let r := runSession calls s in
  playedOneshots s ⊆ playedOneshots (post r)
  ∧ fireCount zoneId (out r)
    = if bool_decide (zoneId ∈ playedOneshots (post r) ∧ zoneId ∉ playedOneshots s)
      then 1%nat else 0%nat.
Proof.
  intros Hcalls. revert s.
  induction Hcalls as [|c calls Hc _ IH]; intros s; simpl.
  - split; [done|]. rewrite bool_decide_eq_false_2; [done|]. tauto.
  - destruct (perform_played c s zoneId Hc) as [Hsub Hcount].
    destruct (IH (post (perform c s))) as [Hsub' Hcount'].
    split; [by etrans|].
    rewrite fireCount_app, Hcount, Hcount'. by apply entered_compose.
Qed.

Lemma forEach_returns {A} (g : A → M unit) (l : list A) (s : AudioMixer) :
  (∀ x s', res (g x s') = Returned tt) → res (forEach g l s) = Returned tt.
Proof.
  intros Hg. revert s. induction l as [|x l IH]; intros s; simpl; [done|].
  unfold bind. rewrite Hg. simpl. apply IH.
Qed.

Lemma stopLayer_returns (layerId : string) (s : AudioMixer) :
  res (stopLayer layerId s) = Returned tt.
Proof. unfold stopLayer. by repeat case_match. Qed.

Lemma reset_clears (s : AudioMixer) :
  res (reset s) = Returned tt
  ∧ playedOneshots (post (reset s)) = ∅
  ∧ startedParts (post (reset s)) = ∅
  ∧ activeOneshots (post (reset s)) = ∅.
Proof.
  unfold reset, bind.
  assert (res (stopAll s) = Returned tt) as ->; [|done].
  unfold stopAll, bind. simpl. apply forEach_returns, stopLayer_returns.
Qed.

(** Once the finale has played, step 1 does nothing at all. *)
Lemma fires_completed (p : Position) (z : Zone.t) (s : AudioMixer) :
  "oneshot_finale" ∈ playedOneshots s → fires p z s = false.
Proof.
  intros Hfinale. unfold fires.
  rewrite (bool_decide_eq_true_2 ("oneshot_finale" ∈ _) Hfinale).
  destruct (String.eqb (Zone.id z) "oneshot_finale") eqn:E.
  - apply String.eqb_eq in E. rewrite E.
    rewrite (bool_decide_eq_true_2 ("oneshot_finale" ∈ _) Hfinale).
    simpl. by rewrite !andb_false_r.
  - simpl. by rewrite !andb_false_r.
Qed.

Lemma step1_completed (p : Position) (zones : list Zone.t) (s : AudioMixer) :
  "oneshot_finale" ∈ playedOneshots s →
  let r := forEach (oneshotStep p) zones s in
  post r = s ∧ Forall notTrigger (out r).
Proof.
  intros Hfinale. induction zones as [|z zones IH]; simpl; [by split|].
  unfold bind. destruct (oneshotStep_spec p z s) as [-> Hstep].
  rewrite (fires_completed p z s Hfinale) in Hstep. destruct Hstep as [-> Hq].
  simpl. destruct IH as [-> Hq']. split; [done|]. by apply Forall_app.
Qed.

(** The finale cannot enter the played set in a step 1 that ends without
    oneshot 9 in it. *)
Lemma step1_finale_locked (p : Position) (zones : list Zone.t) (s : AudioMixer) :
  let r := forEach (oneshotStep p) zones s in
  "oneshot_9" ∉ playedOneshots (post r) →
  "oneshot_finale" ∉ playedOneshots s →
  "oneshot_finale" ∉ playedOneshots (post r).
Proof.
  revert s. induction zones as [|z zones IH]; intros s; simpl; [done|].
  unfold bind. destruct (oneshotStep_spec p z s) as [-> Hstep]. simpl.
  intros H9 Hfinale. apply IH; [done|].
  destruct (fires p z s) eqn:Hfires; destruct Hstep as [Hpost _];
    rewrite Hpost in *; [|done].
  simpl. intros Hin. apply elem_of_union in Hin as [Hin|Hin]; [|done].
  apply elem_of_singleton in Hin.
  destruct (step1_played p zones (set_playedOneshots (union {[Zone.id z]}) s) "oneshot_9")
    as (_ & Hsub & _).
  apply H9, Hsub. simpl. apply elem_of_union. right.
  unfold fires in Hfires. rewrite <- Hin, String.eqb_refl in Hfires.
  destruct (bool_decide ("oneshot_9" ∈ playedOneshots s)) eqn:E9.
  - by apply bool_decide_eq_true_1 in E9.
  - simpl in Hfires. by rewrite !andb_false_r in Hfires.
Qed.

(** A oneshot zone in range has played after step 1 unless a gate held it
    back. *)
Lemma step1_reaches (p : Position) (zones : list Zone.t) (s : AudioMixer) (z : Zone.t) :
  z ∈ zones → Zone.isOneshot z = true →
  num_le (zoneDistance p z) (triggerRadius z) = true →
  let r := forEach (oneshotStep p) zones s in
  Zone.id z ∈ playedOneshots (post r)
  ∨ (Zone.id z ≠ "oneshot_finale" ∧ "oneshot_finale" ∈ playedOneshots (post r))
  ∨ (Zone.id z = "oneshot_finale" ∧ "oneshot_9" ∉ playedOneshots s).
Proof.
  intros Hz Honeshot Hrange. revert s.
  induction zones as [|z' zones IH]; intros s; [by apply elem_of_nil in Hz|].
  simpl. unfold bind. destruct (oneshotStep_spec p z' s) as [-> Hstep]. simpl.
  pose proof (step1_played p zones (post (oneshotStep p z' s))) as Hrest.
  apply elem_of_cons in Hz as [<-|Hz].
  - clear IH. unfold fires in Hstep. rewrite Honeshot, Hrange in Hstep. simpl in Hstep.
    destruct (bool_decide (Zone.id z ∈ playedOneshots s)) eqn:Eplayed; simpl in Hstep.
    { destruct Hstep as [Hpost _]; rewrite Hpost in *. left.
      destruct (Hrest (Zone.id z)) as (_ & Hsub & _).
      apply Hsub. by apply bool_decide_eq_true_1 in Eplayed. }
    destruct (String.eqb (Zone.id z) "oneshot_finale") eqn:Eid; simpl in Hstep.
    + apply String.eqb_eq in Eid. rewrite andb_false_r in Hstep. simpl in Hstep.
      destruct (bool_decide ("oneshot_9" ∈ playedOneshots s)) eqn:E9; simpl in Hstep.
      * destruct Hstep as [Hpost _]; rewrite Hpost in *. left.
        destruct (Hrest (Zone.id z)) as (_ & Hsub & _).
        apply Hsub. simpl. apply elem_of_union. left. by apply elem_of_singleton.
      * right. right. split; [done|]. by apply bool_decide_eq_false_1 in E9.
    + apply String.eqb_neq in Eid. rewrite !andb_true_r in Hstep.
      destruct (bool_decide ("oneshot_finale" ∈ playedOneshots s)) eqn:Ef; simpl in Hstep.
      * destruct Hstep as [Hpost _]; rewrite Hpost in *. right. left. split; [done|].
        destruct (Hrest "oneshot_finale") as (_ & Hsub & _).
        apply Hsub. by apply bool_decide_eq_true_1 in Ef.
      * destruct Hstep as [Hpost _]; rewrite Hpost in *. left.
        destruct (Hrest (Zone.id z)) as (_ & Hsub & _).
        apply Hsub. simpl. apply elem_of_union. left. by apply elem_of_singleton.
  - destruct (IH Hz (post (oneshotStep p z' s))) as [?|[?|[Hid H9]]]; [by left|by right; left|].
    right. right. split; [done|]. intros Hin. apply H9.
    destruct (fires p z' s); destruct Hstep as [Hpost _]; rewrite Hpost in *; [|done].
    simpl. apply elem_of_union. by right.
Qed.
End Oneshots.

(** Closed goals about concrete scenarios are settled by evaluation. *)
Ltac by_evaluation :=
  lazymatch goal with
  | |- _ ∈ _ =>
      first [ apply (bool_decide_unpack _); vm_compute; reflexivity
            | vm_compute; repeat constructor ]
  | |- _ ∉ _ => apply (bool_decide_unpack _); vm_compute; reflexivity
  | |- _ ≠ _ => apply (bool_decide_unpack _); vm_compute; reflexivity
  | |- is_Some _ => vm_compute; eexists; reflexivity
  | |- _ => vm_compute; reflexivity
  end.

Section OneshotClaims.
Context `{Host}.




(** C5. On a ready mixer whose registry holds the finale zone, at a position
    within its trigger radius and with the finale not yet played: a call of
    [updateLocationAudio] that ends without oneshot 9 among the played
    oneshots leaves the finale unplayed and unreported, and a call made once
    oneshot 9 has played fires the finale.  Whenever step 1 comes to a zone
    named oneshot_finale while oneshot 9 has not played, it leaves the mixer
    as it is and reports no firing. *)
Theorem finale_waits_for_oneshot_9 (s : AudioMixer) (p : Position) (finale : Zone.t) :
  isReady s = true →
  finale ∈ audioZones s →
  Zone.isOneshot finale = true →
  Zone.id finale = "oneshot_finale" →
  num_le (zoneDistance p finale) (triggerRadius finale) = true →
  "oneshot_finale" ∉ playedOneshots s →
  let r := updateLocationAudio (Some p) s in
  ("oneshot_9" ∉ playedOneshots (post r) →
   ("oneshot_finale" ∉ playedOneshots (post r))
   ∧ fireCount "oneshot_finale" (out r) = 0%nat)
  ∧ ("oneshot_9" ∈ playedOneshots s →
     "oneshot_finale" ∈ playedOneshots (post r)
     ∧ fireCount "oneshot_finale" (out r) = 1%nat)
  ∧ (∀ (p' : Position) (z : Zone.t) (s' : AudioMixer),
       Zone.id z = "oneshot_finale" →
       "oneshot_9" ∉ playedOneshots s' →
       post (oneshotStep p' z s') = s'
       ∧ Forall notTrigger (out (oneshotStep p' z s'))).
Proof.
  intros Hready Hz Honeshot Hid Hrange Hfresh r. subst r.
  destruct (tick_is_step1 p s Hready) as [Hplayed _].
  pose proof (tick_played (Some p) s "oneshot_finale") as [_ Hcount].
  assert (∀ (p' : Position) (z : Zone.t) (s' : AudioMixer),
            Zone.id z = "oneshot_finale" →
            "oneshot_9" ∉ playedOneshots s' →
            post (oneshotStep p' z s') = s'
            ∧ Forall notTrigger (out (oneshotStep p' z s'))) as Hzone.
  { intros p' z s' Hid' H9.
    destruct (oneshotStep_spec p' z s') as [_ Hstep].
    assert (fires p' z s' = false) as Hlocked.
    { unfold fires. rewrite Hid', String.eqb_refl.
      rewrite (bool_decide_eq_false_2 ("oneshot_9" ∈ _)) by done.
      simpl. by rewrite !andb_false_r. }
    by rewrite Hlocked in Hstep. }
  rewrite Hcount. split; [|split; [|exact Hzone]].
  - intros H9. rewrite Hplayed in H9 |- *.
    pose proof (step1_finale_locked p (audioZones s) s H9 Hfresh) as Hlocked.
    split; [done|]. rewrite bool_decide_eq_false_2; [done|]. tauto.
  - intros H9.
    assert ("oneshot_finale" ∈ playedOneshots (post (updateLocationAudio (Some p) s)))
      as Hnow.
    { rewrite Hplayed.
      destruct (step1_reaches p (audioZones s) s finale Hz Honeshot Hrange)
        as [Hin|[[Hne _]|[_ Hnot]]]; [by rewrite <- Hid|done|done]. }
    split; [done|]. by rewrite bool_decide_eq_true_2.
Qed.

(** C9, as the code has it.  Once the finale has played, no oneshot fires
    for the rest of the session: the played set stays as it is and no call
    reports a firing, wherever the positions lie.  The firing of an ordinary
    oneshot locks nothing: while the finale has not played, an ordinary
    oneshot zone in range that has not played does play. *)
Theorem finale_completes_the_walk (s : AudioMixer) :
  (∀ (calls : list call) (zoneId : string),
     Forall (λ c, isResetCall c = false) calls →
     "oneshot_finale" ∈ playedOneshots s →
     playedOneshots (post (runSession calls s)) = playedOneshots s
     ∧ fireCount zoneId (out (runSession calls s)) = 0%nat)
  ∧ (∀ (p : Position) (z : Zone.t),
       isReady s = true →
       z ∈ audioZones s →
       Zone.isOneshot z = true →
       Zone.id z ≠ "oneshot_finale" →
       num_le (zoneDistance p z) (triggerRadius z) = true →
       "oneshot_finale" ∉ playedOneshots (post (updateLocationAudio (Some p) s)) →
       Zone.id z ∈ playedOneshots (post (updateLocationAudio (Some p) s))).
Proof.
  split.
  - intros calls zoneId Hcalls Hfinale.
    assert (playedOneshots (post (runSession calls s)) = playedOneshots s) as Hsame.
    { revert s Hfinale. induction Hcalls as [|c calls Hc _ IH]; intros s Hfinale;
        simpl; [done|].
      assert (playedOneshots (post (perform c s)) = playedOneshots s) as Hstep.
      { assert ((∃ position, c = UpdateLocationAudio position)
                ∨ ∀ position, c ≠ UpdateLocationAudio position)
          as [[position ->]|Hother].
        { destruct c; try (by right); left; eauto. }
        - simpl. destruct position as [p|]; [destruct (isReady s) eqn:Hready|].
          + destruct (tick_is_step1 p s Hready) as [-> _].
            by destruct (step1_completed p (audioZones s) s Hfinale) as [-> _].
          + by destruct (tick_idle (Some p) s) as [-> _]; [right|].
          + by destruct (tick_idle None s) as [-> _]; [left|].
        - by destruct (perform_framed c s Hc Hother). }
      rewrite IH; [done|]. by rewrite Hstep. }
    split; [done|].
    destruct (session_played calls s zoneId Hcalls) as [_ ->].
    rewrite Hsame, bool_decide_eq_false_2; [done|]. tauto.
  - intros p z Hready Hz Honeshot Hordinary Hrange Hopen.
    destruct (tick_is_step1 p s Hready) as [Hplayed _].
    rewrite Hplayed in Hopen |- *.
    destruct (step1_reaches p (audioZones s) s z Hz Honeshot Hrange)
      as [?|[[_ Hdone]|[Hid _]]]; done.
Qed.
End OneshotClaims.


(** The walk of C5: locked at the finale, then oneshot 9, then the finale. *)
Lemma finale_waits_for_oneshot_9_witness :
  let finale := zoneOf (oneshotZone "oneshot_finale" 100 10 ["oneshotFinale"]) in
  let s0 := @after lineHost finaleWalk in
  let s2 := @after lineHost
              (finaleWalk ++ [UpdateLocationAudio (Some (at_metre 100));
                              UpdateLocationAudio (Some (at_metre 0))]) in
  (@isReady s0 = true ∧ finale ∈ audioZones s0
   ∧ @num_le (@zoneDistance lineHost (at_metre 100) finale) (triggerRadius finale) = true)
  ∧ ("oneshot_finale" ∉ playedOneshots
       (post (@updateLocationAudio lineHost (Some (at_metre 100)) s0)))
  ∧ "oneshot_9" ∈ playedOneshots s2
  ∧ "oneshot_finale" ∈ playedOneshots
      (post (@updateLocationAudio lineHost (Some (at_metre 100)) s2)).
Proof.
  intros finale s0 s2.
  assert (@isReady s0 = true) as Hready0 by by_evaluation.
  assert (finale ∈ audioZones s0) as Hz0 by by_evaluation.
  assert (@num_le (@zoneDistance lineHost (at_metre 100) finale) (triggerRadius finale)
          = true) as Hrange by by_evaluation.
  assert ("oneshot_9" ∈ playedOneshots s2) as H9 by by_evaluation.
  pose proof (@finale_waits_for_oneshot_9 lineHost s0 (at_metre 100) finale Hready0 Hz0
                ltac:(by_evaluation) ltac:(by_evaluation) Hrange ltac:(by_evaluation))
    as [Hlocked _].
  pose proof (@finale_waits_for_oneshot_9 lineHost s2 (at_metre 100) finale
                ltac:(by_evaluation) ltac:(by_evaluation)
                ltac:(by_evaluation) ltac:(by_evaluation) Hrange ltac:(by_evaluation))
    as [_ Hfires].
  refine (conj (conj Hready0 (conj Hz0 Hrange)) (conj _ (conj H9 _))).
  - apply Hlocked. by_evaluation.
  - apply Hfires, H9.
Defined.

(** C9 as stated fails: with oneshot 1 already played, an update inside the
    trigger radius of oneshot 2 fires oneshot 2. *)
Lemma ordinary_oneshot_locks_nothing :
  let s := @after lineHost (twoOneshots ++ [UpdateLocationAudio (Some (at_metre 0))]) in
  let r := @updateLocationAudio lineHost (Some (at_metre 100)) s in
  "oneshot_1" ∈ playedOneshots s
  ∧ ("oneshot_2" ∉ playedOneshots s)
  ∧ fireCount "oneshot_2" (out r) = 1%nat
  ∧ "oneshot_2" ∈ playedOneshots (post r).
Proof. intros s r. repeat split; by_evaluation. Qed.

(** The walks of C9: a completed one, and one with only oneshot 1 played. *)
Lemma finale_completes_the_walk_witness :
  let done := @after lineHost
                (finaleWalk ++ [UpdateLocationAudio (Some (at_metre 0));
                                UpdateLocationAudio (Some (at_metre 100))]) in
  let calls := [UpdateLocationAudio (Some (at_metre 0));
                AddAudioZone (oneshotZone "oneshot_1" 0 10 ["oneshot1"]);
                UpdateLocationAudio (Some (at_metre 0))] in
  "oneshot_finale" ∈ playedOneshots done
  ∧ playedOneshots (post (@runSession lineHost calls done)) = playedOneshots done
  ∧ fireCount "oneshot_1" (out (@runSession lineHost calls done)) = 0%nat.
Proof.
  intros done calls.
  assert ("oneshot_finale" ∈ playedOneshots done) as Hfinale by by_evaluation.
  refine (conj Hfinale _).
  apply (proj1 (@finale_completes_the_walk lineHost done) calls "oneshot_1");
    [by repeat constructor|exact Hfinale].
Defined.

(** ** No division by zero (C10) *)

Lemma num_or_finite (v : option num) (d : Q) :
  finiteOrAbsent v → ¬ d == 0 → ∃ q, num_or v (Fin d) = Fin q ∧ ¬ q == 0.
Proof.
  intros Hv Hd. destruct v as [[q| | |]|]; simpl in *; try done; [|by eauto].
  destruct (Qeq_bool q 0) eqn:E; simpl; [by eauto|].
  apply Qeq_bool_false in E. eauto.
Qed.

Lemma reachesDivision_Fin (z : Zone.t) (r f d : Q) :
  Zone.radius z = Some (Fin r) → Zone.fadeDistance z = Fin f →
  reachesDivision (Fin d) z = true ↔ d <= r ∧ ¬ d <= Qmax 0 (r - f).
Proof.
  intros Hr Hf. unfold reachesDivision. rewrite Hr, Hf. simpl to_number.
  destruct (fadeStart_Qmax r f) as (q & -> & Hq).
  rewrite andb_true_iff, negb_true_iff, num_le_Fin, num_le_Fin_false.
  rewrite <- Hq. split; intros [? ?]; split; try done; lra.
Qed.

Lemma reachesDivision_needs_finite (distance : num) (z : Zone.t) :
  reachesDivision distance z = true →
  (∃ f, Zone.fadeDistance z = Fin f) →
  ∃ d r, distance = Fin d ∧ Zone.radius z = Some (Fin r).
Proof.
  unfold reachesDivision. intros Hreach [f Hf]. rewrite Hf in Hreach.
  destruct (Zone.radius z) as [[r| | |]|], distance as [d| | |];
    simpl in Hreach; try discriminate Hreach; eauto.
  by destruct (Qle_bool 0 (r - f)).
Qed.

Lemma zoneVolume_branches (distance : num) (z : Zone.t) :
  zoneVolume distance z
  = if reachesDivision distance z then
      num_mul (Zone.maxVolume z)
        (num_div (num_sub (to_number (Zone.radius z)) distance) (Zone.fadeDistance z))
    else if num_le distance (to_number (Zone.radius z)) then Zone.maxVolume z
    else Fin 0.
Proof.
  unfold zoneVolume, reachesDivision.
  destruct (num_le distance (to_number (Zone.radius z))); simpl; [|done].
  by destruct (num_le distance _).
Qed.

(** C10. For a zone stored by [addAudioZone] from a definition whose radius,
    fade distance and maximum volume are finite numbers or absent, and for
    any distance: the stored fade distance is a finite number other than 0,
    the contribution computed by step 2 is a finite number (never NaN, never
    an infinity), and the branch that divides is entered only with a
    positive fade distance.  For any zone at all, a fade distance of 0 keeps
    the computation out of the dividing branch. *)
Theorem zone_volume_never_divides_by_zero (config : ZoneConfig.t) (distance : num) :
  finiteOrAbsent (ZoneConfig.radius config) →
  finiteOrAbsent (ZoneConfig.fadeDistance config) →
  finiteOrAbsent (ZoneConfig.maxVolume config) →
  let zone := zoneOf config in
  (∃ f, Zone.fadeDistance zone = Fin f ∧ ¬ f == 0)
  ∧ is_finite (zoneVolume distance zone) = true
  ∧ (reachesDivision distance zone = true →
     ∃ f, Zone.fadeDistance zone = Fin f ∧ 0 < f)
  ∧ (∀ (z : Zone.t) (f : Q),
       Zone.fadeDistance z = Fin f → f == 0 → reachesDivision distance z = false)
  ∧ (∀ z : Zone.t,
       zoneVolume distance z
       = if reachesDivision distance z then
           num_mul (Zone.maxVolume z)
             (num_div (num_sub (to_number (Zone.radius z)) distance)
                (Zone.fadeDistance z))
         else if num_le distance (to_number (Zone.radius z)) then Zone.maxVolume z
         else Fin 0).
Proof.
  intros Hradius Hfade Hmax zone.
  destruct (num_or_finite (ZoneConfig.fadeDistance config) 50 Hfade) as (f & Hf & Hf0);
    [done|].
  destruct (num_or_finite (ZoneConfig.maxVolume config) 1 Hmax) as (m & Hm & _);
    [done|].
  assert (Zone.fadeDistance zone = Fin f) as Hzf by done.
  assert (Zone.maxVolume zone = Fin m) as Hzm by done.
  assert (reachesDivision distance zone = true →
          ∃ d r, distance = Fin d ∧ Zone.radius zone = Some (Fin r)
                 ∧ d <= r ∧ ¬ d <= Qmax 0 (r - f)) as Hreach.
  { intros Hreach.
    destruct (reachesDivision_needs_finite distance zone Hreach) as (d & r & -> & Hr);
      [by eauto|].
    exists d, r. split; [done|]. split; [done|].
    by apply (reachesDivision_Fin zone r f d Hr Hzf). }
  split; [by eauto|]. split; [|split; [|split]].
  - rewrite zoneVolume_branches.
    destruct (reachesDivision distance zone) eqn:E.
    + destruct (Hreach eq_refl) as (d & r & -> & Hr & Hd & Hring).
      rewrite Hzf, Hzm, Hr. simpl.
      apply Qeq_bool_false in Hf0. by rewrite Hf0.
    + rewrite Hzm. by destruct (num_le distance _).
  - intros E. destruct (Hreach E) as (d & r & Hdist & Hr & Hd & Hring).
    exists f. split; [done|]. by apply (ramp_divisor_nonzero r f d).
  - intros z f' Hzf' Hzero.
    destruct (reachesDivision distance z) eqn:E; [|done]. exfalso.
    destruct (reachesDivision_needs_finite distance z E) as (d & r & -> & Hr);
      [by eauto|].
    destruct (proj1 (reachesDivision_Fin z r f' d Hr Hzf') E) as [Hd Hring].
    pose proof (ramp_divisor_nonzero r f' d Hd Hring). lra.
  - apply zoneVolume_branches.
Qed.

(** The definition of C10's witness leaves the fade distance out. *)
Lemma zone_volume_never_divides_by_zero_witness :
  let config :=
    {| ZoneConfig.id := "z"; ZoneConfig.center := origin;
       ZoneConfig.radius := Some (Fin 100); ZoneConfig.audioLayers := ["L1"];
       ZoneConfig.fadeDistance := None; ZoneConfig.maxVolume := Some (Fin 0.8);
       ZoneConfig.isOneshot := None |} in
  finiteOrAbsent (ZoneConfig.radius config)
  ∧ finiteOrAbsent (ZoneConfig.fadeDistance config)
  ∧ finiteOrAbsent (ZoneConfig.maxVolume config)
  ∧ is_finite (zoneVolume (Fin 75) (zoneOf config)) = true.
Proof.
  intros config.
  refine (conj I (conj I (conj I _))).
  exact (proj1 (proj2 (zone_volume_never_divides_by_zero config (Fin 75) I I I))).
Defined.

(** ** The part start protocol (C4) *)

Lemma runsFresh_freshSince (n : nat) (s' : AudioMixer) (layerId : string) :
  runsFresh n s' layerId → freshSince n s' layerId = true.
Proof.
  intros (l' & ctx' & src & g & node & gn & Hl & Hctx & Hsrc & Hg & Hplay
          & [Hn1 _] & [Hn2 _] & Hnode & Hgn & Hloop & Hrun & Hgain).
  unfold freshSince. rewrite Hl, Hctx, Hsrc, Hg, Hplay, Hnode, Hgn, Hloop, Hrun, Hgain.
  apply Nat.leb_le in Hn1, Hn2. by rewrite Hn1, Hn2.
Qed.

Lemma startPartLayer_skip (layerId : string) (s : AudioMixer) :
  (∀ l, JSMap.get layerId (audioLayers s) = Some l → idleLoaded l = false) →
  startPartLayer layerId s = ret tt s.
Proof.
  intros Hskip. unfold startPartLayer.
  destruct (JSMap.get layerId (audioLayers s)) as [l|]; [|done].
  specialize (Hskip l eq_refl). unfold idleLoaded in Hskip.
  destruct (bool_decide (is_Some (Layer.buffer l))); simpl in *; [|done].
  by destruct (Layer.isPlaying l).
Qed.

Lemma startPartLayer_idle (layerId : string) (s : AudioMixer) (l : Layer.t)
    (ctx : AudioContext) (bus : nat) :
  JSMap.get layerId (audioLayers s) = Some l →
  idleLoaded l = true →
  audioContext s = Some ctx → musicBus s = Some bus →
  let h := next_handle ctx in
  let r := startPartLayer layerId s in
  res r = Returned tt
  ∧ audioContext (post r)
    = Some {| next_handle := S (S h);
              sources := <[h := {| src_buffer := Layer.buffer l; src_loop := true;
                                   src_out := ToNode (S h); src_started := true;
                                   src_stopped := false |}]> (sources ctx);
              gains := <[S h := {| gain := [SetValue (Fin 0)];
                                   gain_out := ToNode bus |}]> (gains ctx) |}
  ∧ audioLayers (post r)
    = JSMap.set layerId (Layer.with_playback (Some h) (Some (S h)) true l) (audioLayers s)
  ∧ musicBus (post r) = musicBus s
  ∧ startedParts (post r) = startedParts s.
Proof.
  intros Hl Hidle Hctx Hbus h r. subst r. unfold startPartLayer.
  unfold idleLoaded in Hidle. apply andb_true_iff in Hidle as [Hbuf Hplay].
  apply negb_true_iff in Hplay.
  rewrite Hl, Hbuf, Hplay, Hctx, Hbus. simpl.
  unfold mutateLayer. simpl. rewrite Hl. simpl. rewrite Hctx. simpl.
  split; [done|]. split; [|done].
  unfold updSource, updGain. simpl. f_equal. f_equal.
  - by rewrite !alter_insert_eq.
  - by rewrite !alter_insert_eq.
Qed.

Lemma runsFresh_after_start (n : nat) (layerId other : string) (s : AudioMixer)
    (l : Layer.t) (ctx : AudioContext) (bus : nat) :
  JSMap.get layerId (audioLayers s) = Some l →
  idleLoaded l = true →
  audioContext s = Some ctx → musicBus s = Some bus →
  runsFresh n s other → runsFresh n (post (startPartLayer layerId s)) other.
Proof.
  intros Hl Hidle Hctx Hbus
    (l' & ctx' & src & g & node & gn & Hl' & Hctx' & Hsrc & Hg & Hplay
     & Hn1 & Hn2 & Hnode & Hgn & Hloop & Hrun & Hgain).
  rewrite Hctx in Hctx'. injection Hctx' as <-.
  destruct (startPartLayer_idle layerId s l ctx bus Hl Hidle Hctx Hbus)
    as (_ & Hctx1 & Hlayers & _ & _).
  assert (other ≠ layerId) as Hne.
  { intros ->. rewrite Hl in Hl'. injection Hl' as <-.
    unfold idleLoaded in Hidle. rewrite Hplay in Hidle.
    by rewrite andb_false_r in Hidle. }
  unfold runsFresh. rewrite Hlayers, Hctx1, JSMap_get_set_ne by done.
  eexists l', _, src, g, node, gn.
  split; [done|]. split; [reflexivity|]. simpl.
  rewrite !lookup_insert_ne by lia.
  repeat split; try done; lia.
Qed.

Lemma bool_decide_cons_ne (x y : string) (l : list string) :
  x ≠ y → bool_decide (x ∈ y :: l) = bool_decide (x ∈ l).
Proof.
  intros Hne. apply bool_decide_ext. rewrite elem_of_cons.
  split; [intros [?|?]; done|by right].
Qed.

Lemma startLayers_spec (ls : list string) (n : nat) (s : AudioMixer)
    (ctx : AudioContext) (bus : nat) :
  audioContext s = Some ctx → musicBus s = Some bus → (n ≤ next_handle ctx)%nat →
  let r := forEach startPartLayer ls s in
  res r = Returned tt
  ∧ startedParts (post r) = startedParts s
  ∧ ∀ layerId,
      (runsFresh n s layerId → runsFresh n (post r) layerId)
      ∧ ∀ l, JSMap.get layerId (audioLayers s) = Some l →
             if bool_decide (layerId ∈ ls) && idleLoaded l
             then runsFresh n (post r) layerId
             else JSMap.get layerId (audioLayers (post r)) = Some l.
Proof.
  revert s ctx. induction ls as [|x ls IH]; intros s ctx Hctx Hbus Hn; simpl.
  { split; [done|]. split; [done|]. intros layerId. split; [done|]. by intros l Hl. }
  destruct (JSMap.get x (audioLayers s)) as [lx|] eqn:Hx;
    [destruct (idleLoaded lx) eqn:Hidle|].
  - (* [x] is started *)
    destruct (startPartLayer_idle x s lx ctx bus Hx Hidle Hctx Hbus)
      as (Hres & Hctx1 & Hlayers & Hbus1 & Hparts).
    unfold bind. rewrite Hres. simpl.
    destruct (IH (post (startPartLayer x s)) _ Hctx1 (eq_trans Hbus1 Hbus))
      as (Hres' & Hparts' & Hrest); [simpl; lia|].
    rewrite Hres'. split; [done|]. split; [by rewrite Hparts'|].
    assert (runsFresh n (post (startPartLayer x s)) x) as Hfresh.
    { unfold runsFresh. rewrite Hlayers, Hctx1, JSMap_get_set_eq.
      eexists _, _, (next_handle ctx), (S (next_handle ctx)), _, _.
      split; [reflexivity|]. split; [reflexivity|]. simpl.
      rewrite !lookup_insert_eq. repeat split; try done; lia. }
    intros layerId. split.
    + intros Hrun. apply Hrest.
      by apply (runsFresh_after_start n x layerId s lx ctx bus).
    + intros l Hl. destruct (decide (layerId = x)) as [->|Hne].
      * rewrite Hx in Hl. injection Hl as <-. rewrite Hidle.
        rewrite bool_decide_eq_true_2 by left. simpl. by apply Hrest.
      * destruct (Hrest layerId) as [_ Hl'].
        specialize (Hl' l). rewrite Hlayers, JSMap_get_set_ne in Hl' by done.
        specialize (Hl' Hl).
        by rewrite (bool_decide_cons_ne layerId x ls).
  - (* [x] is skipped: not loaded or already playing *)
    unfold bind. rewrite startPartLayer_skip by (intros l; rewrite Hx; by intros [= <-]).
    simpl.
    destruct (IH s ctx Hctx Hbus Hn) as (Hres' & Hparts' & Hrest).
    rewrite Hres'. split; [done|]. split; [done|].
    intros layerId. split; [apply Hrest|].
    intros l Hl. destruct (Hrest layerId) as [_ Hl']. specialize (Hl' l Hl).
    destruct (decide (layerId = x)) as [->|Hne].
    + rewrite Hx in Hl. injection Hl as <-. rewrite Hidle in *.
      rewrite andb_false_r in *. done.
    + by rewrite (bool_decide_cons_ne layerId x ls).
  - (* [x] is not registered *)
    unfold bind. rewrite startPartLayer_skip by (intros l; by rewrite Hx).
    simpl.
    destruct (IH s ctx Hctx Hbus Hn) as (Hres' & Hparts' & Hrest).
    rewrite Hres'. split; [done|]. split; [done|].
    intros layerId. split; [apply Hrest|].
    intros l Hl. destruct (Hrest layerId) as [_ Hl']. specialize (Hl' l Hl).
    assert (layerId ≠ x) as Hne by (intros ->; by rewrite Hx in Hl).
    by rewrite (bool_decide_cons_ne layerId x ls).
Qed.

Lemma startLayers_silent (ls : list string) (s : AudioMixer) :
  out (forEach startPartLayer ls s) = [].
Proof.
  revert s. induction ls as [|x ls IH]; intros s; simpl; [done|].
  unfold bind.
  assert (out (startPartLayer x s) = []) as Hx.
  { unfold startPartLayer. by repeat case_match. }
  destruct (res (startPartLayer x s)); simpl; [|done]. by rewrite Hx, IH.
Qed.

Lemma startLayers_no_context (ls : list string) (s : AudioMixer) :
  audioContext s = None ∨ musicBus s = None →
  post (forEach startPartLayer ls s) = s.
Proof.
  intros Hnone. induction ls as [|x ls IH]; simpl; [done|].
  unfold bind.
  assert (startPartLayer x s = ret tt s ∨ startPartLayer x s = throw TypeError s)
    as [->| ->]; [|done..].
  unfold startPartLayer.
  destruct Hnone as [Hnone|Hnone]; rewrite Hnone; repeat case_match; auto.
Qed.

Lemma startLayers_threw (ls : list string) (s : AudioMixer) (e : exn) :
  res (forEach startPartLayer ls s) = Threw e → post (forEach startPartLayer ls s) = s.
Proof.
  intros Hthrew.
  destruct (audioContext s) as [ctx|] eqn:Hctx;
    [destruct (musicBus s) as [bus|] eqn:Hbus|].
  - destruct (startLayers_spec ls 0 s ctx bus Hctx Hbus) as [Hres _]; [lia|].
    by rewrite Hres in Hthrew.
  - apply startLayers_no_context. by right.
  - apply startLayers_no_context. by left.
Qed.

(** [startPart] either changes nothing or ends with the part marked. *)
Lemma startPart_outcome (partId : string) (s : AudioMixer) :
  post (startPart partId s) = s
  ∨ (partId ≠ "" ∧ partId ∈ startedParts (post (startPart partId s))).
Proof.
  unfold startPart.
  destruct (String.eqb partId "") eqn:Hid; [by left|]. apply String.eqb_neq in Hid.
  case_bool_decide; [by left|].
  destruct (partToLayers s !! partId) as [layerSet|]; [|by left].
  destruct (JSSet.size layerSet =? 0)%nat; [by left|].
  destruct (negb _); [by left|].
  unfold bind.
  destruct (res (forEach startPartLayer layerSet s)) as [[]|e] eqn:Hres; simpl.
  - right. split; [done|]. apply elem_of_union. left. by apply elem_of_singleton.
  - left. by apply (startLayers_threw layerSet s e).
Qed.

Lemma startPart_again (partId : string) (s : AudioMixer) :
  post (startPart partId (post (startPart partId s))) = post (startPart partId s).
Proof.
  destruct (startPart_outcome partId s) as [Hsame|[Hid Hstarted]].
  - by rewrite !Hsame.
  - unfold startPart at 1. apply String.eqb_neq in Hid. rewrite Hid.
    by rewrite bool_decide_eq_true_2.
Qed.

(** C4, as the code has it.  [startPart] changes nothing when the part is
    already started or has no member layers.  When a member lacks a loaded
    buffer it reports the members it waits for and changes nothing.
    Otherwise, on an initialized mixer, it marks the part started and starts
    every member that is not yet playing on a fresh looping source whose
    gain is pinned to 0, marking it playing; a member that is already
    playing is skipped and keeps the source it has.  Calling it again
    changes nothing, so the running sources stay the same. *)
Theorem startPart_starts_idle_members (s : AudioMixer) (partId : string) :
  let r := startPart partId s in
  (partId ∈ startedParts s ∨ partToLayers s !! partId = None
   ∨ partToLayers s !! partId = Some [] →
   res r = Returned tt ∧ post r = s)
  ∧ (∀ layerSet,
       partId ≠ "" → partId ∉ startedParts s →
       partToLayers s !! partId = Some layerSet → layerSet ≠ [] →
       let notLoaded := filter (λ layerId, layerLoaded s layerId = false) layerSet in
       (notLoaded ≠ [] →
        res r = Returned tt ∧ post r = s ∧ out r = [PartWaiting partId notLoaded])
       ∧ (notLoaded = [] → is_Some (audioContext s) → is_Some (musicBus s) →
          res r = Returned tt
          ∧ out r = [PartStarted partId]
          ∧ startedParts (post r) = {[partId]} ∪ startedParts s
          ∧ ∀ layerId l,
              layerId ∈ layerSet → JSMap.get layerId (audioLayers s) = Some l →
              if Layer.isPlaying l
              then JSMap.get layerId (audioLayers (post r)) = Some l
              else startedFresh s (post r) layerId = true))
  ∧ post (startPart partId (post r)) = post r
  ∧ runningSources (post (startPart partId (post r))) = runningSources (post r).
Proof.
  intros r. subst r. split; [|split; [|split]].
  - unfold startPart. intros Hnoop.
    destruct (String.eqb partId ""); [done|].
    case_bool_decide; [done|].
    destruct Hnoop as [?|[-> | ->]]; done.
  - intros layerSet Hid Hnew Hpart Hmembers notLoaded.
    unfold startPart. apply String.eqb_neq in Hid. rewrite Hid.
    rewrite bool_decide_eq_false_2, Hpart by done.
    assert ((JSSet.size layerSet =? 0)%nat = false) as ->.
    { apply Nat.eqb_neq. by destruct layerSet. }
    fold notLoaded. split.
    + intros Hwaiting.
      assert ((length notLoaded =? 0)%nat = false) as ->; [|done].
      apply Nat.eqb_neq. by destruct notLoaded.
    + intros Hloaded [ctx Hctx] [bus Hbus]. rewrite Hloaded. simpl.
      destruct (startLayers_spec layerSet (next_handle ctx) s ctx bus Hctx Hbus)
        as (Hres & Hparts & Hlayers); [lia|].
      unfold bind. rewrite Hres. simpl. rewrite startLayers_silent, Hparts.
      split; [done|]. split; [done|]. split; [done|].
      intros layerId l Hin Hl.
      destruct (Hlayers layerId) as [_ Hcase]. specialize (Hcase l Hl).
      rewrite bool_decide_eq_true_2 in Hcase by done.
      assert (bool_decide (is_Some (Layer.buffer l)) = true) as Hbuf.
      { assert (layerLoaded s layerId = true) as Hok.
        { destruct (layerLoaded s layerId) eqn:E; [done|].
          assert (layerId ∈ notLoaded) as Hbad by (by apply list_elem_of_filter).
          rewrite Hloaded in Hbad. by apply elem_of_nil in Hbad. }
        unfold layerLoaded in Hok. by rewrite Hl in Hok. }
      unfold idleLoaded in Hcase. rewrite Hbuf in Hcase. simpl in Hcase.
      destruct (Layer.isPlaying l); simpl in Hcase; [done|].
      unfold startedFresh. rewrite Hctx. by apply runsFresh_freshSince.
  - apply startPart_again.
  - by rewrite startPart_again.
Qed.

(** C4 as stated fails: with member A already playing, [startPart] marks the
    part started and starts B afresh, but A keeps its old source. *)
Lemma startPart_skips_playing_member :
  let s := @after lineHost partWithBusyMember in
  let r := startPart "P" s in
  partToLayers s !! "P" = Some ["A"; "B"]
  ∧ filter (λ layerId, layerLoaded s layerId = false) ["A"; "B"] = []
  ∧ ("P" ∉ startedParts s)
  ∧ res r = Returned tt
  ∧ "P" ∈ startedParts (post r)
  ∧ startedFresh s (post r) "B" = true
  ∧ startedFresh s (post r) "A" = false
  ∧ JSMap.get "A" (audioLayers (post r)) = JSMap.get "A" (audioLayers s).
Proof. intros s r. repeat split; by_evaluation. Qed.

(** The part of C4's scenario, started. *)
Lemma startPart_starts_idle_members_witness :
  let s := @after lineHost partWithBusyMember in
  let r := startPart "P" s in
  ("P" ≠ "" ∧ ("P" ∉ startedParts s) ∧ partToLayers s !! "P" = Some ["A"; "B"])
  ∧ startedParts (post r) = {[ "P" ]} ∪ startedParts s
  ∧ startedFresh s (post r) "B" = true
  ∧ post (startPart "P" (post r)) = post r.
Proof.
  intros s r.
  assert ("P" ≠ "") as Hid by done.
  assert ("P" ∉ startedParts s) as Hnew by by_evaluation.
  assert (partToLayers s !! "P" = Some ["A"; "B"]) as Hpart by by_evaluation.
  destruct (startPart_starts_idle_members s "P") as (_ & Hprotocol & Hagain & _).
  destruct (Hprotocol ["A"; "B"] Hid Hnew Hpart ltac:(done)) as [_ Hstart].
  destruct Hstart as (_ & _ & Hparts & Hlayers);
    [by_evaluation|by_evaluation|by_evaluation|].
  refine (conj (conj Hid (conj Hnew Hpart)) (conj Hparts (conj _ Hagain))).
  assert ("B" ∈ ["A"; "B"]) as HB by (right; left).
  assert (∃ l, JSMap.get "B" (audioLayers s) = Some l ∧ Layer.isPlaying l = false)
    as (lB & HlB & Hidle) by (eexists; split; by_evaluation).
  pose proof (Hlayers "B" lB HB HlB) as Hfresh.
  rewrite Hidle in Hfresh. exact Hfresh.
Defined.

(** ** The target of a layer is the loudest contribution (C2) *)

Lemma nonneg_valueOf (n : num) : nonneg n → n = Fin (valueOf n) ∧ 0 <= valueOf n.
Proof. intros (q & -> & Hq). done. Qed.

Lemma num_max_nonneg (a b : num) :
  nonneg a → nonneg b →
  nonneg (num_max a b) ∧ valueOf (num_max a b) == Qmax (valueOf a) (valueOf b).
Proof.
  intros (x & -> & Hx) (y & -> & Hy). rewrite num_max_Fin. simpl.
  destruct (Qle_bool x y) eqn:E.
  - apply Qle_bool_iff in E. split; [by exists y|]. symmetry. by apply Q.max_r.
  - apply (num_le_Fin_false x y) in E. split; [by exists x|].
    symmetry. apply Q.max_l. lra.
Qed.

Lemma num_or_nonneg (a : num) :
  nonneg a →
  nonneg (num_or (Some a) (Fin 0)) ∧ valueOf (num_or (Some a) (Fin 0)) == valueOf a.
Proof.
  intros (x & -> & Hx). simpl. destruct (Qeq_bool x 0) eqn:E; simpl.
  - apply Qeq_bool_iff in E. split; [by exists 0|]. by symmetry.
  - split; [by exists x|done].
Qed.

Lemma maxOf_le (base : Q) (cs : list num) :
  base <= maxOf base cs ∧ ∀ c, c ∈ cs → valueOf c <= maxOf base cs.
Proof.
  revert base. induction cs as [|c cs IH]; intros base; simpl.
  - split; [lra|]. intros c Hc. by apply elem_of_nil in Hc.
  - change (maxOf base (c :: cs)) with (maxOf (Qmax base (valueOf c)) cs).
    destruct (IH (Qmax base (valueOf c))) as [Hbase Hcs].
    pose proof (Q.le_max_l base (valueOf c)).
    pose proof (Q.le_max_r base (valueOf c)).
    split; [lra|]. intros c' Hc'. apply elem_of_cons in Hc' as [->|Hc'].
    + lra.
    + by apply Hcs.
Qed.

Lemma maxOf_attained (base : Q) (cs : list num) :
  maxOf base cs == base ∨ ∃ c, c ∈ cs ∧ maxOf base cs == valueOf c.
Proof.
  revert base. induction cs as [|c cs IH]; intros base; [by left|].
  change (maxOf base (c :: cs)) with (maxOf (Qmax base (valueOf c)) cs).
  destruct (IH (Qmax base (valueOf c))) as [Hbase|(c' & Hc' & Hmax)].
  - destruct (Q.max_spec base (valueOf c)) as [[_ E]|[_ E]].
    + right. exists c. split; [left|]. exact (Qeq_trans _ _ _ Hbase E).
    + left. exact (Qeq_trans _ _ _ Hbase E).
  - right. exists c'. split; [by right|done].
Qed.

Lemma maxOf_proper (base base' : Q) (cs : list num) :
  base == base' → maxOf base cs == maxOf base' cs.
Proof.
  revert base base'. induction cs as [|c cs IH]; intros base base' Hb; [done|].
  change (maxOf (Qmax base (valueOf c)) cs == maxOf (Qmax base' (valueOf c)) cs).
  apply IH. by rewrite Hb.
Qed.

Section LayerTargets.
Context `{Host}.

Lemma zoneVolume_nonneg (distance : num) (z : Zone.t) :
  wellFormed z → nonneg (zoneVolume distance z).
Proof.
  intros (Hradius & f & m & Hf & Hm & Hm0).
  rewrite zoneVolume_branches.
  destruct (reachesDivision distance z) eqn:Hreach.
  - destruct (reachesDivision_needs_finite distance z Hreach) as (d & r & -> & Hr);
      [by eauto|].
    destruct (proj1 (reachesDivision_Fin z r f d Hr Hf) Hreach) as [Hd Hring].
    pose proof (ramp_divisor_nonzero r f d Hd Hring) as Hpos.
    rewrite Hr, Hf, Hm. simpl.
    assert (Qeq_bool f 0 = false) as -> by (apply Qeq_bool_false; lra).
    eexists. split; [reflexivity|].
    apply Qmult_le_0_compat; [done|].
    apply Qmult_le_0_compat; [lra|]. apply Qinv_le_0_compat. lra.
  - destruct (num_le distance _); [by exists m|by exists 0].
Qed.

Lemma targetVolume_raise (v : num) (targets : JSMap.t num) (k k' : string) :
  targetVolume (raiseTarget v targets k') k
  = if decide (k = k')
    then num_or (Some (num_max (targetVolume targets k) v)) (Fin 0)
    else targetVolume targets k.
Proof.
  unfold targetVolume, raiseTarget. destruct (decide (k = k')) as [->|Hne].
  - by rewrite JSMap_get_set_eq.
  - by rewrite JSMap_get_set_ne.
Qed.

Lemma raise_layers (v : num) (ls : list string) (targets : JSMap.t num) (k : string) :
  nonneg v → nonneg (targetVolume targets k) →
  let targets' := fold_left (raiseTarget v) ls targets in
  nonneg (targetVolume targets' k)
  ∧ valueOf (targetVolume targets' k)
    == if bool_decide (k ∈ ls)
       then Qmax (valueOf (targetVolume targets k)) (valueOf v)
       else valueOf (targetVolume targets k).
Proof.
  intros Hv. revert targets. induction ls as [|l ls IH]; intros targets Hk; simpl.
  - split; [done|]. reflexivity.
  - assert (nonneg (targetVolume (raiseTarget v targets l) k)
            ∧ valueOf (targetVolume (raiseTarget v targets l) k)
              == if decide (k = l)
                 then Qmax (valueOf (targetVolume targets k)) (valueOf v)
                 else valueOf (targetVolume targets k)) as [Hk' Hval].
    { rewrite targetVolume_raise. destruct (decide (k = l)); [|done].
      destruct (num_max_nonneg _ _ Hk Hv) as [Hmax Hmaxv].
      destruct (num_or_nonneg _ Hmax) as [Hor Horv].
      split; [done|]. by rewrite Horv. }
    destruct (IH _ Hk') as [Hfinal Hfinalv]. split; [done|].
    rewrite Hfinalv. clear IH Hfinal Hfinalv.
    destruct (decide (k = l)) as [->|Hne].
    + rewrite (bool_decide_eq_true_2 (l ∈ l :: ls)) by left.
      case_bool_decide; rewrite Hval; [|done].
      rewrite <- Q.max_assoc, Q.max_id. done.
    + rewrite (bool_decide_cons_ne k l ls Hne).
      case_bool_decide; by rewrite Hval.
Qed.

Lemma contributions_cons (p : Position) (z : Zone.t) (zones : list Zone.t)
    (layerId : string) :
  contributions p (z :: zones) layerId
  = (if bool_decide (layerId ∈ Zone.audioLayers z) && negb (Zone.isOneshot z)
     then [zoneVolume (zoneDistance p z) z] else [])
    ++ contributions p zones layerId.
Proof.
  unfold contributions. rewrite filter_cons. case_decide as Hp.
  - destruct Hp as [-> Hin]. by rewrite bool_decide_eq_true_2.
  - destruct (Zone.isOneshot z); [by rewrite andb_false_r|].
    rewrite bool_decide_eq_false_2; [done|]. intros Hin. by apply Hp.
Qed.

Lemma contributions_nonneg (p : Position) (zones : list Zone.t) (layerId : string) :
  Forall (λ z, Zone.isOneshot z = false → wellFormed z) zones →
  ∀ c, c ∈ contributions p zones layerId → nonneg c.
Proof.
  induction 1 as [|z zones Hz _ IH]; intros c Hc.
  - by apply elem_of_nil in Hc.
  - rewrite contributions_cons in Hc. apply elem_of_app in Hc as [Hc|Hc]; [|by apply IH].
    destruct (Zone.isOneshot z); [by rewrite andb_false_r in Hc; apply elem_of_nil in Hc|].
    destruct (bool_decide _); simpl in Hc; [|by apply elem_of_nil in Hc].
    apply list_elem_of_singleton in Hc as ->. by apply zoneVolume_nonneg, Hz.
Qed.

Lemma targets_fold (p : Position) (zones : list Zone.t) (targets : JSMap.t num)
    (layerId : string) :
  Forall (λ z, Zone.isOneshot z = false → wellFormed z) zones →
  nonneg (targetVolume targets layerId) →
  let targets' := fold_left (zoneTargets p) zones targets in
  nonneg (targetVolume targets' layerId)
  ∧ valueOf (targetVolume targets' layerId)
    == maxOf (valueOf (targetVolume targets layerId)) (contributions p zones layerId).
Proof.
  intros Hzones. revert targets.
  induction Hzones as [|z zones Hz _ IH]; intros targets Hk; simpl; [done|].
  rewrite contributions_cons. unfold zoneTargets at 2 4.
  destruct (Zone.isOneshot z) eqn:Honeshot.
  - rewrite andb_false_r. simpl. by apply IH.
  - rewrite andb_true_r.
    destruct (raise_layers (zoneVolume (zoneDistance p z) z) (Zone.audioLayers z)
                targets layerId) as [Hk' Hval]; [by apply zoneVolume_nonneg, Hz|done|].
    destruct (IH _ Hk') as [Hfinal Hfinalv]. split; [done|].
    rewrite Hfinalv. case_bool_decide; simpl.
    + by apply maxOf_proper.
    + by apply maxOf_proper.
Qed.

(** C2. With zones as the data model has them, the target that step 2
    computes for a layer at a position is the maximum of the contributions
    of the music zones that list the layer, not their sum: it is a finite
    number that no such contribution exceeds, it equals one of them when
    there is any, and it is 0 when no music zone lists the layer.  With two
    zones of maximum volume 0.5 and 0.8 around the same centre, the target
    of their shared layer at distance 0 is 0.8. *)
Theorem layer_target_is_loudest_contribution (p : Position) (zones : list Zone.t)
    (layerId : string) :
  Forall (λ z, Zone.isOneshot z = false → wellFormed z) zones →
  let target := targetVolume (computeLayerTargetVolumes p zones) layerId in
  let cs := contributions p zones layerId in
  nonneg target
  ∧ (∀ c, c ∈ cs → num_le c target = true)
  ∧ (cs ≠ [] → ∃ c, c ∈ cs ∧ target =n= c)
  ∧ (cs = [] → target = Fin 0)
  ∧ (let registry :=
       audioZones (after [AddAudioZone (musicZone "quiet" 100 20 0.5 ["shared"]);
                          AddAudioZone (musicZone "loud" 60 10 0.8 ["shared"])]) in
     ∀ p' : Position,
       calculateDistance (latitude p') (longitude p') (Fin 0) (Fin 0) = Fin 0 →
       targetVolume (computeLayerTargetVolumes p' registry) "shared" =n= Fin 0.8).
Proof.
  intros Hzones target cs.
  destruct (targets_fold p zones JSMap.empty layerId Hzones) as [Hfinite Hvalue];
    [by exists 0|].
  fold (computeLayerTargetVolumes p zones) in Hfinite, Hvalue.
  fold target in Hfinite, Hvalue. fold cs in Hvalue.
  change (valueOf (targetVolume JSMap.empty layerId)) with 0 in Hvalue.
  destruct (nonneg_valueOf target Hfinite) as [Htarget Hpos].
  pose proof (contributions_nonneg p zones layerId Hzones) as Hcs. fold cs in Hcs.
  destruct (maxOf_le 0 cs) as [_ Hle].
  split; [done|]. split; [|split; [|split]].
  - intros c Hc. destruct (nonneg_valueOf c (Hcs c Hc)) as [-> _].
    rewrite Htarget. apply num_le_Fin. rewrite Hvalue. by apply Hle.
  - intros Hsome.
    destruct (maxOf_attained 0 cs) as [Hzero|(c & Hc & Hmax)].
    + assert (∃ c, c ∈ cs) as [c Hc].
      { clear -Hsome. clearbody cs. destruct cs as [|c ?]; [done|]. exists c. left. }
      exists c. split; [done|].
      destruct (nonneg_valueOf c (Hcs c Hc)) as [-> Hc0].
      rewrite Htarget. simpl in *. specialize (Hle c Hc). lra.
    + exists c. split; [done|].
      destruct (nonneg_valueOf c (Hcs c Hc)) as [-> _].
      rewrite Htarget. simpl. lra.
  - intros Hnone. subst target. unfold computeLayerTargetVolumes.
    clear -Hnone. subst cs.
    assert (∀ targets, targetVolume targets layerId = Fin 0 →
              targetVolume (fold_left (zoneTargets p) zones targets) layerId = Fin 0)
      as Hkeep; [|by apply Hkeep].
    induction zones as [|z zones IH]; intros targets Hk; simpl; [done|].
    rewrite contributions_cons in Hnone. apply app_eq_nil in Hnone as [Hz Hrest].
    apply IH; [done|]. unfold zoneTargets.
    destruct (Zone.isOneshot z); [done|]. rewrite andb_true_r in Hz.
    case_bool_decide as Hin; [done|]. clear -Hin Hk.
    revert targets Hk. induction (Zone.audioLayers z) as [|l ls IHl];
      intros targets Hk; simpl; [done|].
    apply IHl.
    + intros Hl. apply Hin. by right.
    + rewrite targetVolume_raise. case_decide as E; [|done].
      exfalso. apply Hin. rewrite E. left.
  - intros registry p' Hd.
    assert (registry = [zoneOf (musicZone "quiet" 100 20 0.5 ["shared"]);
                        zoneOf (musicZone "loud" 60 10 0.8 ["shared"])]) as -> by done.
    unfold computeLayerTargetVolumes, zoneTargets. simpl.
    unfold zoneDistance. simpl. rewrite Hd. reflexivity.
Qed.
End LayerTargets.

(** The registry of C2's witness: the two zones of its example. *)
Lemma layer_target_is_loudest_contribution_witness :
  let zones := [zoneOf (musicZone "quiet" 100 20 0.5 ["shared"]);
                zoneOf (musicZone "loud" 60 10 0.8 ["shared"])] in
  let target := @targetVolume (@computeLayerTargetVolumes lineHost (at_metre 0) zones)
                  "shared" in
  Forall (λ z, Zone.isOneshot z = false → wellFormed z) zones
  ∧ nonneg target
  ∧ (∀ c, c ∈ @contributions lineHost (at_metre 0) zones "shared" →
          num_le c target = true).
Proof.
  intros zones target.
  assert (Forall (λ z, Zone.isOneshot z = false → wellFormed z) zones) as Hzones.
  { repeat constructor; simpl; try done.
    - exists 20, 0.5. by repeat split.
    - exists 10, 0.8. by repeat split. }
  pose proof (@layer_target_is_loudest_contribution lineHost (at_metre 0) zones
                "shared" Hzones) as (Hfinite & Hle & _).
  exact (conj Hzones (conj Hfinite Hle)).
Defined.

(** ** A failed load (C8) *)

(** C8 at its failing input.  The stems A and B form the part P, the asset
    of B cannot be loaded, and the loaded layer C has the target 0.8 at the
    position.  The call loads A, fails on B and is rejected in step 3:
    nothing is written for C (no playback, no fade), C is left as it was
    and P is not started; the next call at the same position is rejected
    again.  With a loadable B the same call starts P and plays C at 0.8. *)
Theorem failed_part_load_rejects_the_update :
  let s := @after lineHost (stemsAndSolo "missing-b.mp3") in
  let r := @updateLocationAudio lineHost (Some (at_metre 0)) s in
  let again := @updateLocationAudio lineHost (Some (at_metre 0)) (post r) in
  let control := @updateLocationAudio lineHost (Some (at_metre 0))
                   (@after lineHost (stemsAndSolo "b.mp3")) in
  layerLoaded s "C" = true
  ∧ targetVolume (@computeLayerTargetVolumes lineHost (at_metre 0) (audioZones s)) "C"
    = Fin 0.8
  ∧ res r = Threw (LoadError "B")
  ∧ out r = [Loaded "A"; LoadFailed "B"]
  ∧ existsb (touchesLayer "C") (out r) = false
  ∧ JSMap.get "C" (audioLayers (post r)) = JSMap.get "C" (audioLayers s)
  ∧ ("P" ∉ startedParts (post r))
  ∧ res again = Threw (LoadError "B")
  ∧ out again = [LoadFailed "B"]
  ∧ res control = Returned tt
  ∧ out control = [Loaded "A"; Loaded "B"; PartStarted "P";
                   Fading "A" (Fin 0.7) (Fin 0.4); Fading "B" (Fin 0.7) (Fin 0.4);
                   PlayingLayer "C" (Fin 0.8)].
Proof. intros s r again control. repeat split; by_evaluation. Qed.

(** ** Zone registration (C6) *)

Section Registry.
Context `{Host}.

Lemma framed_keeps {X A} (f : AudioMixer → X) (s : AudioMixer) (r : Result A) :
  framed f s r → f (post r) = f s.
Proof. by intros [? _]. Qed.

Lemma tick_keeps_registry (position : option Position) (s : AudioMixer) :
  audioZones (post (updateLocationAudio position s)) = audioZones s.
Proof.
  destruct position as [p|]; [destruct (isReady s) eqn:Hready|].
  - unfold updateLocationAudio. rewrite Hready. simpl.
    match goal with
    | |- context [bind ?m ?k s] =>
        destruct (bind_framed_tail audioZones m k s) as [-> _]
    end.
    + intros _ s'. apply framed_music_steps. apply _.
    + by apply step1_keeps.
  - by destruct (tick_idle (Some p) s) as [-> _]; [right|].
  - by destruct (tick_idle None s) as [-> _]; [left|].
Qed.

Lemma reset_keeps_registry (s : AudioMixer) :
  audioZones (post (reset s)) = audioZones s.
Proof.
  unfold reset, bind.
  assert (res (stopAll s) = Returned tt) as ->.
  { unfold stopAll, bind. simpl. apply forEach_returns, stopLayer_returns. }
  simpl. by destruct (framed_stopAll audioZones s).
Qed.

(** C6, as the code has it.  [addAudioZone] validates nothing: whatever the
    radius of the definition (zero and negative ones included) it returns
    normally and appends exactly one zone, the normalized definition with
    the radius as given, to the end of the collection.  No other call
    touches the collection, so within and across sessions it only grows. *)
Theorem addAudioZone_appends_unconditionally (config : ZoneConfig.t)
    (s : AudioMixer) :
  res (addAudioZone config s) = Returned tt
  ∧ audioZones (post (addAudioZone config s)) = audioZones s ++ [zoneOf config]
  ∧ Zone.radius (zoneOf config) = ZoneConfig.radius config
  ∧ ∀ c : call,
      audioZones (post (perform c s))
      = audioZones s ++ match c with
                        | AddAudioZone config' => [zoneOf config']
                        | _ => []
                        end.
Proof.
  split; [done|]. split; [done|]. split; [done|].
  intros c.
  destruct c; cbn [perform]; rewrite ?app_nil_r;
    first
      [ done
      | apply tick_keeps_registry
      | apply reset_keeps_registry
      | apply (framed_keeps audioZones);
        first
          [ apply framed_initialize | apply framed_loadAudio
          | apply framed_ensureLayerLoaded | apply framed_registerLayerDefaults
          | apply framed_registerLayerPart | apply framed_startPart
          | apply framed_playLayer | apply framed_stopLayer
          | apply framed_setLayerVolume | apply framed_fadeLayer
          | apply framed_setMasterVolume | apply framed_playOneShot
          | apply framed_progressivePreload | apply framed_stopAll
          | apply framed_runTask ];
        apply _ ].
Qed.
End Registry.

(** C6 as stated fails: definitions with radius 0 and radius -5 are added. *)
Lemma addAudioZone_accepts_nonpositive_radius :
  audioZones (post (addAudioZone (musicZone "flat" 0 20 1 ["L1"]) constructor))
    ≠ audioZones constructor
  ∧ audioZones (post (addAudioZone (musicZone "negative" (-5) 20 1 ["L1"]) constructor))
    ≠ audioZones constructor.
Proof. split; discriminate. Qed.

(** ** Summaries of calls *)

Section Ensures.
Context (I : AudioMixer → Prop) (E : exn → Prop) (T : event → Prop).

Lemma ensures_ret {A} (a : A) s : ensures I E T s (ret a s).
Proof. intros Hs. by split; [|split; [|constructor]]. Qed.

Lemma ensures_gets {A} (g : AudioMixer → A) s : ensures I E T s (gets g s).
Proof. intros Hs. by split; [|split; [|constructor]]. Qed.

Lemma ensures_emit e s : T e → ensures I E T s (emit e s).
Proof. intros He Hs. split; [done|]. split; [done|]. by repeat constructor. Qed.

Lemma ensures_throw {A} e s : (I s → E e) → ensures I E T s (@throw A e s).
Proof.
  intros He Hs. split; [done|]. split; [|constructor].
  intros e' [= <-]. by apply He.
Qed.

Lemma ensures_modify g s : (I s → I (g s)) → ensures I E T s (modify g s).
Proof. intros Hg Hs. split; [by apply Hg|]. by split; [|constructor]. Qed.

Lemma ensures_bind {A B} (m : M A) (k : A → M B) s :
  ensures I E T s (m s) → (∀ a s', ensures I E T s' (k a s')) →
  ensures I E T s (bind m k s).
Proof.
  intros Hm Hk Hs. destruct (Hm Hs) as (Hpost & Hres & Hout).
  unfold bind. destruct (res (m s)) as [a|e] eqn:Eres; simpl.
  - destruct (Hk a _ Hpost) as (Hpost' & Hres' & Hout').
    split; [done|]. split; [done|]. by apply Forall_app.
  - split; [done|]. split; [|done]. intros e' [= <-]. by apply Hres.
Qed.

Lemma ensures_forEach {A} (g : A → M unit) (l : list A) s :
  (∀ x s', ensures I E T s' (g x s')) → ensures I E T s (forEach g l s).
Proof.
  intros Hg. revert s. induction l as [|x l IH]; intros s; simpl.
  - apply ensures_ret.
  - apply ensures_bind; [apply Hg|]. intros _ s'. apply IH.
Qed.

Lemma ensures_promiseAll (ms : list (M unit)) s :
  (∀ m s', m ∈ ms → ensures I E T s' (m s')) → ensures I E T s (promiseAll ms s).
Proof.
  revert s. induction ms as [|m ms IH]; intros s Hms; simpl.
  - apply ensures_ret.
  - intros Hs. destruct (Hms m s) as (Hpost & Hres & Hout); [left|done|].
    destruct (IH (post (m s))) as (Hpost' & Hres' & Hout'); [|done|].
    { intros m' s' Hm'. apply Hms. by right. }
    simpl. split; [done|]. split; [|by apply Forall_app].
    intros e. destruct (res (m s)) as [a|e'] eqn:Eres.
    + apply Hres'.
    + intros [= <-]. by apply Hres.
Qed.
End Ensures.

(** Walks through the body of a method along its control flow and leaves
    the conditions on its assignments, exceptions and events. *)
Ltac walk :=
  lazymatch goal with
  | |- ensures _ _ _ _ (ret _ _) => apply ensures_ret
  | |- ensures _ _ _ _ (gets _ _) => apply ensures_gets
  | |- ensures _ _ _ _ (emit _ _) => apply ensures_emit
  | |- ensures _ _ _ _ (throw _ _) => apply ensures_throw
  | |- ensures _ _ _ _ (modify _ _) => apply ensures_modify
  | |- ensures _ _ _ _ (bind _ _ _) => apply ensures_bind; [walk | intros ? ?; walk]
  | |- ensures _ _ _ _ (forEach _ _ _) => apply ensures_forEach; intros ? ?; walk
  | |- ensures _ _ _ _ _ =>
      first [ progress cbv beta iota zeta delta [createBufferSource createGain]; walk
            | case_match; walk
            | idtac ]
  | |- _ => idtac
  end.

(** ** Insertion-ordered maps, continued *)

Lemma JSMap_get_set {V} (k k' : string) (v : V) (m : JSMap.t V) :
  JSMap.get k (JSMap.set k' v m) = if decide (k = k') then Some v else JSMap.get k m.
Proof.
  case_decide as E.
  - subst. apply JSMap_get_set_eq.
  - by apply JSMap_get_set_ne.
Qed.

Lemma JSMap_get_map {V W} (g : V → W) (k : string) (m : JSMap.t V) :
  JSMap.get k (map (λ kv, (kv.1, g kv.2)) m) = g <$> JSMap.get k m.
Proof.
  induction m as [|[k' v] m IH]; simpl; [done|].
  by destruct (String.eqb k k').
Qed.

(** ** The states a mixer can be in *)

Lemma sane_layerGains w g s : sane w s → sane w (set_layerGains g s).
Proof. done. Qed.

Lemma sane_activeOneshots w g s : sane w s → sane w (set_activeOneshots g s).
Proof. done. Qed.

Lemma sane_set_layer w (layerId : string) (l : Layer.t) (s : AudioMixer) :
  sane w s → layerOk s l → (∀ h, w = Some h → Layer.source l ≠ Some h) →
  sane w (set_audioLayers (JSMap.set layerId l) s).
Proof.
  intros (Hlayers & Hbuses & Hinit & Hord & Hwatch) Hl Hw.
  split; [|split; [done|split; [done|split; [done|]]]].
  - intros k l'. simpl. rewrite JSMap_get_set. case_decide.
    + by intros [= <-].
    + apply Hlayers.
  - intros h ->. destruct (Hwatch h eq_refl) as [Hfree Hruns]. split; [|done].
    intros k l'. simpl. rewrite JSMap_get_set. case_decide.
    + intros [= <-]. by apply Hw.
    + apply Hfree.
Qed.

Lemma sane_mutateLayer w (layerId : string) (g : Layer.t → Layer.t) (s : AudioMixer) :
  sane w s →
  (∀ l, JSMap.get layerId (audioLayers s) = Some l → layerOk s l →
        layerOk s (g l)
        ∧ ∀ h, w = Some h → Layer.source l ≠ Some h → Layer.source (g l) ≠ Some h) →
  sane w (mutateLayer layerId g s).
Proof.
  intros Hs Hg. unfold mutateLayer.
  destruct (JSMap.get layerId (audioLayers s)) as [l|] eqn:E; [|done].
  destruct (Hg l eq_refl) as [Hok Hfree]; [by apply (proj1 Hs layerId)|].
  apply sane_set_layer; [done..|].
  intros h ->. apply Hfree; [done|].
  destruct Hs as (_ & _ & _ & _ & Hwatch).
  by apply (proj1 (Hwatch h eq_refl) layerId).
Qed.

Lemma sane_set_audioContext w (g : AudioContext → AudioContext) (s : AudioMixer) :
  sane w s →
  (∀ ctx, audioContext s = Some ctx → ordered ctx →
     ordered (g ctx) ∧ (next_handle ctx ≤ next_handle (g ctx))%nat
     ∧ ∀ h node, w = Some h → sources ctx !! h = Some node → running node = true →
         ∃ node', sources (g ctx) !! h = Some node' ∧ running node' = true) →
  sane w (set_audioContext g s).
Proof.
  intros (Hlayers & Hbuses & Hinit & Hord & Hwatch) Hg.
  split; [|split; [|split; [|split]]].
  - intros k l Hk. destruct (Hlayers k l Hk) as (Hplay & Hbuf & Hsrc).
    split; [done|]. split.
    + intros Hb. simpl. apply fmap_is_Some. by apply Hbuf.
    + intros h Hh. destruct (Hsrc h Hh) as (ctx & Hctx & Hlt).
      exists (g ctx). simpl. rewrite Hctx. split; [done|].
      destruct (Hg ctx Hctx (proj1 (Hord ctx Hctx))) as (_ & Hle & _). lia.
  - simpl. intros Hctx. apply Hbuses. by apply fmap_is_Some in Hctx.
  - simpl. intros Hi. apply fmap_is_Some. by apply Hinit.
  - simpl. intros ctx' Hctx'. apply fmap_Some in Hctx' as (ctx & Hctx & ->).
    destruct (Hord ctx Hctx) as [Hsources Hbelow].
    destruct (Hg ctx Hctx Hsources) as (Hordered & Hle & _). split; [done|].
    intros h Hh. specialize (Hbelow h Hh). lia.
  - intros h ->. destruct (Hwatch h eq_refl) as [Hfree (ctx & node & Hctx & Hnode & Hrun)].
    split; [done|].
    destruct (Hg ctx Hctx (proj1 (Hord ctx Hctx))) as (_ & _ & Hkeep).
    destruct (Hkeep h node eq_refl Hnode Hrun) as (node' & Hnode' & Hrun').
    exists (g ctx), node'. simpl. by rewrite Hctx.
Qed.

Lemma sane_ordered w s ctx : sane w s → audioContext s = Some ctx → ordered ctx.
Proof. intros (_ & _ & _ & Hord & _) Hctx. by apply Hord. Qed.

(** A loaded layer proves that the context and its buses exist. *)
Lemma sane_loaded_context w layerId l s :
  sane w s → JSMap.get layerId (audioLayers s) = Some l →
  is_Some (Layer.buffer l) →
  is_Some (audioContext s) ∧ is_Some (musicBus s) ∧ is_Some (oneshotBus s).
Proof.
  intros (Hlayers & Hbuses & _) Hl Hb.
  destruct (Hlayers layerId l Hl) as (_ & Hctx & _).
  destruct (Hbuses (Hctx Hb)) as (_ & _ & ? & ?). auto.
Qed.

(** Changes of the gain nodes leave the sources alone. *)
Lemma gains_only (w : option nat) (ctx ctx' : AudioContext) :
  next_handle ctx' = next_handle ctx → sources ctx' = sources ctx →
  ordered ctx →
  ordered ctx' ∧ (next_handle ctx ≤ next_handle ctx')%nat
  ∧ ∀ h node, w = Some h → sources ctx !! h = Some node → running node = true →
      ∃ node', sources ctx' !! h = Some node' ∧ running node' = true.
Proof.
  intros Hn Hsrc Hord. split; [|split].
  - intros h. rewrite Hn, Hsrc. apply Hord.
  - lia.
  - intros h node _ Hnode Hrun. exists node. by rewrite Hsrc.
Qed.

Section Sane.
Context `{Host}.
Context (w : option nat).

Abbreviation safely := (ensures (sane w) (λ e, e ≠ TypeError) (λ _, True)).

Ltac loaded :=
  match goal with
  | Hb : negb (bool_decide (is_Some (Layer.buffer _))) = false |- _ =>
      apply negb_false_iff, bool_decide_eq_true_1 in Hb
  end.

Ltac same_layer Hl :=
  simpl in Hl;
  match goal with
  | Hg : JSMap.get ?k (audioLayers ?s) = Some ?t |- _ =>
      rewrite Hg in Hl; injection Hl as <-
  end.

Ltac no_type_error :=
  intros Hs; exfalso; loaded;
  match goal with
  | Hl : JSMap.get ?k (audioLayers ?s) = Some ?l, Hb : is_Some (Layer.buffer ?l) |- _ =>
      destruct (sane_loaded_context w k l s Hs Hl Hb) as ([? ?] & [? ?] & [? ?]); congruence
  end.

(** The context after new nodes were created and configured: the old
    sources are as they were. *)
(** The context after new nodes were created and configured: its sources
    stay ordered and the sources it had are as they were, but for the one
    that [unheld_ne] tells apart from the watched source. *)
Ltac new_nodes_in a Hord unheld_ne :=
  split; [|split];
  [ let h := fresh "h" in
    let Hh := fresh "Hh" in
    intros h Hh; simpl in Hh |- *;
    repeat first [ rewrite lookup_alter_is_Some in Hh
                 | rewrite lookup_insert_is_Some' in Hh ];
    repeat match type of Hh with _ ∨ _ => destruct Hh as [Hh|Hh] end;
    try apply Hord in Hh; lia
  | simpl; lia
  | let h := fresh "h" in
    let node := fresh "node" in
    let Hw := fresh "Hw" in
    let Hnode := fresh "Hnode" in
    let Hrun := fresh "Hrun" in
    intros h node Hw Hnode Hrun; exists node; split; [|done];
    assert (h < next_handle a)%nat by (apply Hord; eauto);
    simpl; repeat first [ rewrite lookup_alter_ne by first [lia | unheld_ne h Hw]
                        | rewrite lookup_insert_ne by lia ];
    done ].

Ltac new_nodes unheld_ne :=
  let ctx := fresh "ctx" in
  let Hctx := fresh "Hctx" in
  let Hord := fresh "Hord" in
  intros ctx Hctx Hord;
  match goal with
  | Ha : audioContext _ = Some ?a |- _ =>
      rewrite Ha in Hctx; injection Hctx as <-; new_nodes_in a Hord unheld_ne
  end.

(** The layer that holds the new source [next_handle a]. *)
Ltac holds_new_source Hs :=
  let l := fresh "l" in
  let Hl := fresh "Hl" in
  let Hctx := fresh "Hctx" in
  intros l Hl (_ & Hctx & _); same_layer Hl; split;
  [ split; [done|]; split; [exact Hctx|];
    let h := fresh "h" in
    intros h [= <-]; simpl;
    match goal with Ha : audioContext _ = Some _ |- _ => rewrite Ha end;
    eexists; split; [reflexivity|]; simpl; lia
  | let h := fresh "h" in
    let ctx := fresh "ctx" in
    let node := fresh "node" in
    let Hc := fresh "Hc" in
    let Hnode := fresh "Hnode" in
    intros h -> _; simpl; intros [= <-];
    destruct (proj2 (proj2 (proj2 (proj2 Hs))) _ eq_refl)
      as (_ & ctx & node & Hc & Hnode & _);
    match goal with
    | Ha : audioContext _ = Some ?a |- _ =>
        assert (ctx = a) as -> by congruence;
        assert (next_handle a < next_handle a)%nat;
          [apply (sane_ordered _ _ a Hs); eauto|lia]
    end ].

Lemma safely_initialize s : safely s (initialize s).
Proof.
  unfold initialize. walk. intros (Hlayers & Hbuses & Hinit & Hord & Hwatch).
  assert (audioContext s = None) as Hnone.
  { destruct (audioContext s) eqn:E; [|done].
    destruct Hbuses as [? _]; [by eauto|congruence]. }
  split; [|split; [|split; [|split]]]; simpl; [|by eauto|by eauto| |].
  - intros k l Hk. destruct (Hlayers k l Hk) as (Hplay & Hbuf & Hsrc).
    split; [done|]. split; [by eauto|].
    intros h Hh. destruct (Hsrc h Hh) as (ctx & Hctx & _). congruence.
  - intros ctx [= <-]. split.
    + intros h. simpl. intros [? Hh]. by rewrite lookup_empty in Hh.
    + intros h [[= <-]|[[= <-]|[= <-]]]; simpl; lia.
  - intros h ->. destruct (Hwatch h eq_refl) as (_ & ctx & _ & Hctx & _). congruence.
Qed.

Lemma safely_loadAudio url layerId s : safely s (loadAudio url layerId s).
Proof.
  unfold loadAudio. walk; try done.
  intros Hs. apply sane_set_layer; [done| |].
  - split; simpl; [by eauto|]. split; [by eauto|].
    destruct (JSMap.get layerId (audioLayers s)) as [l|] eqn:E; simpl; [|done].
    apply (proj1 Hs layerId l E).
  - intros h ->. simpl.
    destruct (JSMap.get layerId (audioLayers s)) as [l|] eqn:E; simpl; [|done].
    apply (proj1 (proj2 (proj2 (proj2 (proj2 Hs))) h eq_refl) layerId l E).
Qed.

Lemma safely_ensureLayerLoaded layerId s : safely s (ensureLayerLoaded layerId s).
Proof. unfold ensureLayerLoaded. walk; try done. apply safely_loadAudio. Qed.

Lemma safely_registerLayerDefaults layerId loop volume url s :
  safely s (registerLayerDefaults layerId loop volume url s).
Proof.
  unfold registerLayerDefaults. walk. intros Hs.
  apply sane_set_layer; [done| |done]. split; simpl; [done|]. split; [|done].
  destruct (JSMap.get layerId (audioLayers s)) as [l|] eqn:E; simpl.
  - apply (proj1 Hs layerId l E).
  - by intros [? [=]].
Qed.

Lemma safely_registerLayerPart layerId partId s :
  safely s (registerLayerPart layerId partId s).
Proof. unfold registerLayerPart. walk; done. Qed.

Lemma safely_startPartLayer layerId s : safely s (startPartLayer layerId s).
Proof.
  unfold startPartLayer. walk; try done; try no_type_error.
  intros Hs. loaded. apply sane_layerGains. apply sane_mutateLayer.
  - apply sane_set_audioContext; [done|]. new_nodes never.
  - holds_new_source Hs.
Qed.

Lemma safely_startPart partId s : safely s (startPart partId s).
Proof. unfold startPart. walk; try done. apply safely_startPartLayer. Qed.

Lemma safely_addAudioZone config s : safely s (addAudioZone config s).
Proof. unfold addAudioZone. walk; done. Qed.

(** The source a layer holds is not the watched one. *)
Lemma held_not_watched layerId l s (old h : nat) :
  sane w s → JSMap.get layerId (audioLayers s) = Some l →
  Layer.source l = Some old → w = Some h → old ≠ h.
Proof.
  intros Hs Hl Hold Hw ->.
  by apply (proj1 (proj2 (proj2 (proj2 (proj2 Hs))) h Hw) layerId l Hl).
Qed.

Lemma safely_playLayer layerId volume loop s : safely s (playLayer layerId volume loop s).
Proof.
  unfold playLayer. walk; try done; try no_type_error.
  intros Hs. loaded. destruct (Layer.source t) as [old|] eqn:Eold.
  - apply sane_mutateLayer.
    + apply sane_set_audioContext; [done|].
      new_nodes ltac:(fun h Hw => apply (held_not_watched layerId t s old h); done).
    + holds_new_source Hs.
  - apply sane_mutateLayer.
    + apply sane_set_audioContext; [done|]. new_nodes never.
    + holds_new_source Hs.
Qed.

Lemma safely_stopLayer layerId s : safely s (stopLayer layerId s).
Proof.
  unfold stopLayer. walk; try done.
  intros Hs. destruct (Layer.source t) as [src|] eqn:Esrc.
  - apply sane_mutateLayer.
    + apply sane_set_audioContext; [done|]. intros ctx Hctx Hord. split; [|split].
      * intros h. simpl. rewrite lookup_alter_is_Some. apply Hord.
      * simpl. lia.
      * intros h node Hw Hnode Hrun. exists node. split; [|done]. simpl.
        rewrite lookup_alter_ne; [done|].
        by apply (held_not_watched layerId t s src h).
    + intros l _ (_ & Hctx & _). by split.
  - apply sane_mutateLayer; [done|]. intros l _ (_ & Hctx & _). by split.
Qed.

Lemma safely_setLayerVolume layerId volume s : safely s (setLayerVolume layerId volume s).
Proof.
  unfold setLayerVolume. walk.
  intros Hs. destruct (Layer.gainNode t) as [g|].
  - apply sane_mutateLayer.
    + apply sane_set_audioContext; [done|]. intros ctx _. by apply gains_only.
    + intros l _ (Hplay & Hctx & Hsrc). by split.
  - apply sane_mutateLayer; [done|]. intros l _ (Hplay & Hctx & Hsrc). by split.
Qed.

Lemma safely_fadeLayer layerId target duration s :
  safely s (fadeLayer layerId target duration s).
Proof.
  unfold fadeLayer. walk; try done.
  all: intros Hs; apply sane_mutateLayer;
    [ apply sane_set_audioContext; [done|]; intros ctx _; by apply gains_only
    | intros l _ (Hplay & Hctx & Hsrc); by split ].
Qed.

Lemma safely_setMasterVolume volume s : safely s (setMasterVolume volume s).
Proof.
  unfold setMasterVolume. walk. intros Hs.
  destruct (masterGain s); [|done].
  apply (sane_set_audioContext _ _ (set_masterVolume _ s)); [done|].
  intros ctx _. by apply gains_only.
Qed.

Lemma safely_duckMusicBus target duration s : safely s (duckMusicBus target duration s).
Proof.
  unfold duckMusicBus. walk. intros Hs.
  apply sane_set_audioContext; [done|]. intros ctx _. by apply gains_only.
Qed.

Lemma safely_playOneShot layerId s : safely s (playOneShot layerId s).
Proof.
  unfold playOneShot. walk; try done; try no_type_error;
    try apply safely_duckMusicBus.
  all: intros Hs; loaded;
    apply (sane_mutateLayer _ _ _ (set_activeOneshots _ (set_audioContext _ s)));
    [ apply sane_activeOneshots, sane_set_audioContext; [done|]; new_nodes never
    | intros l Hl (Hplay & Hctx & Hsrc); same_layer Hl; by split ].
Qed.

Lemma safely_progressivePreload position s : safely s (progressivePreload position s).
Proof. unfold progressivePreload. destruct position; walk; done. Qed.

Lemma safely_oneshotStep position zone s : safely s (oneshotStep position zone s).
Proof. unfold oneshotStep. walk; done. Qed.

Lemma safely_loadAndStartPart partId s : safely s (loadAndStartPart partId s).
Proof.
  unfold loadAndStartPart. walk; [|apply safely_startPart].
  apply ensures_promiseAll. intros m s2 Hm.
  apply list_elem_of_fmap in Hm as (layerId & -> & _).
  apply safely_ensureLayerLoaded.
Qed.

Lemma safely_applyFade targets layerId s : safely s (applyFade targets layerId s).
Proof.
  unfold applyFade.
  repeat case_match;
    repeat first
      [ apply ensures_ret | apply safely_playLayer | apply safely_fadeLayer
      | apply ensures_emit; exact I
      | apply ensures_bind; [|intros ? ?] ].
Qed.

Lemma safely_updateLocationAudio position s : safely s (updateLocationAudio position s).
Proof.
  unfold updateLocationAudio. walk.
  - apply safely_oneshotStep.
  - apply safely_loadAndStartPart.
  - apply safely_applyFade.
Qed.

Lemma safely_stopAll s : safely s (stopAll s).
Proof. unfold stopAll. walk. apply safely_stopLayer. Qed.

Lemma safely_reset s : safely s (reset s).
Proof.
  unfold reset. walk; try done; [apply safely_stopAll|].
  intros (Hlayers & Hbuses & Hinit & Hord & Hwatch).
  split; [|split; [done|split; [done|split; [done|]]]].
  - intros k l. simpl. rewrite JSMap_get_map.
    destruct (JSMap.get k (audioLayers _)) as [l0|] eqn:E; [|done].
    intros [= <-]. destruct (Hlayers k l0 E) as (_ & Hctx & _). by split.
  - intros h ->. destruct (Hwatch h eq_refl) as [_ Hruns]. split; [|done].
    intros k l. simpl. rewrite JSMap_get_map.
    destruct (JSMap.get k (audioLayers _)) as [l0|]; [|done]. by intros [= <-].
Qed.

Lemma safely_runTask t s : safely s (runTask t s).
Proof.
  destruct t; simpl; walk.
  - apply safely_ensureLayerLoaded.
  - apply safely_playOneShot.
  - apply safely_ensureLayerLoaded.
  - apply safely_stopLayer.
  - apply safely_duckMusicBus.
Qed.

Lemma safely_perform c s : safely s (perform c s).
Proof.
  destruct c; simpl;
    auto using safely_initialize, safely_loadAudio, safely_ensureLayerLoaded,
      safely_registerLayerDefaults, safely_registerLayerPart, safely_startPart,
      safely_addAudioZone, safely_playLayer, safely_stopLayer, safely_setLayerVolume,
      safely_fadeLayer, safely_setMasterVolume, safely_updateLocationAudio,
      safely_playOneShot, safely_progressivePreload, safely_stopAll, safely_reset,
      safely_runTask.
Qed.

Lemma sane_runSession calls s : sane w s → sane w (post (runSession calls s)).
Proof.
  revert s. induction calls as [|c calls IH]; intros s Hs; simpl; [done|].
  apply IH. by apply (safely_perform c s).
Qed.
End Sane.

Lemma sane_constructor : sane None constructor.
Proof.
  split; [done|]. split; [by intros [? [=]]|]. split; [done|]. by split.
Qed.

(** ** Bystanders and settings *)

(** [m] run from [s] leaves the observation [f] at [x]. *)
Abbreviation keeps f x := (ensures (λ s, f s = x) (λ _, True) (λ _, True)).

Section Bystanders.
Context {X : Type} (f : AudioMixer → X) `{!Bystander f}.
Context `{Host}.
Context (x : X).

Lemma bystander_mutateLayer layerId g s : f (mutateLayer layerId g s) = f s.
Proof. unfold mutateLayer. case_match; [apply bystander_audioLayers|done]. Qed.

Ltac unchanged :=
  try exact I;
  try (intros <-;
       repeat first
         [ progress rewrite ?bystander_mutateLayer, ?bystander_audioLayers,
             ?bystander_audioContext, ?bystander_startedParts,
             ?bystander_layerGains, ?bystander_playedOneshots
         | case_match ];
       done).

Lemma keeps_loadAudio url layerId s : keeps f x s (loadAudio url layerId s).
Proof. unfold loadAudio. walk; unchanged. Qed.

Lemma keeps_ensureLayerLoaded layerId s : keeps f x s (ensureLayerLoaded layerId s).
Proof. unfold ensureLayerLoaded. walk; unchanged. apply keeps_loadAudio. Qed.

Lemma keeps_registerLayerDefaults layerId loop volume url s :
  keeps f x s (registerLayerDefaults layerId loop volume url s).
Proof. unfold registerLayerDefaults. walk; unchanged. Qed.

Lemma keeps_startPartLayer layerId s : keeps f x s (startPartLayer layerId s).
Proof. unfold startPartLayer. walk; unchanged. Qed.

Lemma keeps_startPart partId s : keeps f x s (startPart partId s).
Proof. unfold startPart. walk; unchanged. apply keeps_startPartLayer. Qed.

Lemma keeps_playLayer layerId volume loop s : keeps f x s (playLayer layerId volume loop s).
Proof. unfold playLayer. walk; unchanged. Qed.

Lemma keeps_stopLayer layerId s : keeps f x s (stopLayer layerId s).
Proof. unfold stopLayer. walk; unchanged. Qed.

Lemma keeps_setLayerVolume layerId volume s : keeps f x s (setLayerVolume layerId volume s).
Proof. unfold setLayerVolume. walk; unchanged. Qed.

Lemma keeps_fadeLayer layerId target duration s :
  keeps f x s (fadeLayer layerId target duration s).
Proof. unfold fadeLayer. walk; unchanged. Qed.

Lemma keeps_duckMusicBus target duration s : keeps f x s (duckMusicBus target duration s).
Proof. unfold duckMusicBus. walk; unchanged. Qed.

Lemma keeps_progressivePreload position s : keeps f x s (progressivePreload position s).
Proof. unfold progressivePreload. destruct position; walk; unchanged. Qed.

Lemma keeps_oneshotStep position zone s : keeps f x s (oneshotStep position zone s).
Proof. unfold oneshotStep. walk; unchanged. Qed.

Lemma keeps_loadAndStartPart partId s : keeps f x s (loadAndStartPart partId s).
Proof.
  unfold loadAndStartPart. walk; [|apply keeps_startPart].
  apply ensures_promiseAll. intros m s2 Hm.
  apply list_elem_of_fmap in Hm as (layerId & -> & _).
  apply keeps_ensureLayerLoaded.
Qed.

Lemma keeps_applyFade targets layerId s : keeps f x s (applyFade targets layerId s).
Proof.
  unfold applyFade.
  repeat case_match;
    repeat first
      [ apply ensures_ret | apply keeps_playLayer | apply keeps_fadeLayer
      | apply ensures_emit; exact I
      | apply ensures_bind; [|intros ? ?] ].
Qed.

Lemma keeps_updateLocationAudio position s : keeps f x s (updateLocationAudio position s).
Proof.
  unfold updateLocationAudio. walk.
  - apply keeps_oneshotStep.
  - apply keeps_loadAndStartPart.
  - apply keeps_applyFade.
Qed.

Lemma keeps_stopAll s : keeps f x s (stopAll s).
Proof. unfold stopAll. walk. apply keeps_stopLayer. Qed.

End Bystanders.

Section Settings.
Context {X : Type} (f : AudioMixer → X) `{!Setting f}.
Context `{Host}.
Context (x : X).

Lemma keeps_playOneShot layerId s : keeps f x s (playOneShot layerId s).
Proof.
  unfold playOneShot. walk; try exact I; try apply (keeps_duckMusicBus f x).
  all: intros <-; try done.
  all: unfold mutateLayer; case_match;
    by rewrite ?bystander_audioLayers, ?setting_activeOneshots, ?bystander_audioContext.
Qed.

Lemma keeps_reset s : keeps f x s (reset s).
Proof.
  unfold reset. walk; try apply (keeps_stopAll f x).
  all: intros <-;
    first [ apply bystander_startedParts | apply bystander_playedOneshots
          | apply setting_activeOneshots | apply bystander_layerGains
          | apply bystander_audioLayers ].
Qed.

Lemma keeps_runTask t s : keeps f x s (runTask t s).
Proof.
  destruct t; simpl; walk.
  - apply (keeps_ensureLayerLoaded f x).
  - apply keeps_playOneShot.
  - apply (keeps_ensureLayerLoaded f x).
  - apply (keeps_stopLayer f x).
  - apply (keeps_duckMusicBus f x).
Qed.

Lemma keeps_perform c s : configures c = false → keeps f x s (perform c s).
Proof.
  destruct c; simpl; try discriminate; intros _.
  - apply (keeps_loadAudio f x).
  - apply (keeps_ensureLayerLoaded f x).
  - apply (keeps_registerLayerDefaults f x).
  - apply (keeps_startPart f x).
  - apply (keeps_playLayer f x).
  - apply (keeps_stopLayer f x).
  - apply (keeps_setLayerVolume f x).
  - apply (keeps_fadeLayer f x).
  - apply (keeps_updateLocationAudio f x).
  - apply keeps_playOneShot.
  - apply (keeps_progressivePreload f x).
  - apply (keeps_stopAll f x).
  - apply keeps_reset.
  - apply keeps_runTask.
Qed.
End Settings.

(** A call that does not configure the mixer leaves every setting as it
    was. *)
Lemma setting_kept `{Host} {X} (f : AudioMixer → X) `{!Setting f} (c : call)
    (s : AudioMixer) :
  configures c = false → f (post (perform c s)) = f s.
Proof. intros Hc. by apply (keeps_perform f (f s) c s Hc). Qed.

#[local] Instance masterVolume_setting : Setting masterVolume.
Proof. by repeat constructor. Qed.

#[local] Instance isInitialized_setting : Setting isInitialized.
Proof. by repeat constructor. Qed.

#[local] Instance layerToPart_setting : Setting layerToPart.
Proof. by repeat constructor. Qed.

#[local] Instance partToLayers_setting : Setting partToLayers.
Proof. by repeat constructor. Qed.

#[local] Instance activeOneshots_bystander : Bystander activeOneshots.
Proof. by constructor. Qed.

(** ** What holds in every session *)

Section Sessions.
Context `{Host}.

Lemma after_sane (calls : list call) : sane None (after calls).
Proof. apply sane_runSession, sane_constructor. Qed.


(** X2. In a session that starts from a new mixer a layer is marked as
    playing only if its buffer is loaded, and then the mixer is ready. *)
Theorem playing_layers_are_loaded (calls : list call) (layerId : string)
    (l : Layer.t) :
  JSMap.get layerId (audioLayers (after calls)) = Some l →
  Layer.isPlaying l = true →
  is_Some (Layer.buffer l) ∧ isReady (after calls) = true.
Proof.
  intros Hl Hplay.
  destruct (after_sane calls) as (Hlayers & Hbuses & _).
  destruct (Hlayers layerId l Hl) as (Hbuf & Hctx & _).
  split; [by apply Hbuf|].
  destruct (Hbuses (Hctx (Hbuf Hplay))) as (Hinit & Hmaster & _).
  unfold isReady. rewrite Hinit. simpl.
  rewrite !bool_decide_eq_true_2; by auto.
Qed.




End Sessions.

(** ** The master volume *)

Lemma clamp_unit (v : num) :
  v ≠ NaN → inUnitRange (num_max (Fin 0) (num_min (Fin 1) v)).
Proof.
  intros Hv. destruct v as [q| | |]; [| | |done].
  - simpl. destruct (Qle_bool 1 q) eqn:E1; simpl.
    + exists 1. by repeat split.
    + apply (num_le_Fin_false 1 q) in E1.
      destruct (Qle_bool 0 q) eqn:E0; simpl.
      * apply Qle_bool_iff in E0. exists q. repeat split; [done|lra].
      * exists 0. by repeat split.
  - exists 1. by repeat split.
  - exists 0. by repeat split.
Qed.

Section MasterVolume.
Context `{Host}.

Lemma perform_masterVolume (c : call) (s : AudioMixer) :
  masterVolume (post (perform c s))
  = match c with
    | SetMasterVolume v => num_max (Fin 0) (num_min (Fin 1) v)
    | _ => masterVolume s
    end.
Proof.
  destruct (configures c) eqn:Ec.
  - destruct c; try discriminate Ec; simpl.
    + unfold initialize. by case_match.
    + unfold registerLayerPart. by case_match.
    + done.
    + unfold setMasterVolume. simpl. by case_match.
  - rewrite (setting_kept masterVolume c s Ec). by destruct c.
Qed.

Lemma session_masterVolume (calls : list call) (s : AudioMixer) :
  inUnitRange (masterVolume s) →
  Forall (λ v, v ≠ NaN) (masterVolumesSet calls) →
  inUnitRange (masterVolume (post (runSession calls s))).
Proof.
  revert s. induction calls as [|c calls IH]; intros s Hs Hcalls; simpl; [done|].
  apply IH.
  - rewrite perform_masterVolume. destruct c; try done.
    apply clamp_unit. unfold masterVolumesSet in Hcalls. simpl in Hcalls.
    by apply Forall_cons_1 in Hcalls as [? _].
  - unfold masterVolumesSet in *. destruct c; simpl in Hcalls; try done.
    by apply Forall_cons_1 in Hcalls as [_ ?].
Qed.

(** X4. The master volume is a number between 0 and 1 in every session in
    which [setMasterVolume] is not called with NaN: it starts at 0.7,
    [setMasterVolume] clamps its argument into that range (an infinity
    becomes 0 or 1) and no other call changes it. *)
Theorem master_volume_stays_in_range (calls : list call) :
  Forall (λ v, v ≠ NaN) (masterVolumesSet calls) →
  inUnitRange (masterVolume (after calls))
  ∧ ∀ c, masterVolume (post (perform c (after calls)))
         = match c with
           | SetMasterVolume v => num_max (Fin 0) (num_min (Fin 1) v)
           | _ => masterVolume (after calls)
           end.
Proof.
  intros Hcalls. split; [|intros c; apply perform_masterVolume].
  apply session_masterVolume; [|done]. exists 0.7. by repeat split.
Qed.
End MasterVolume.

(** A session that sets the master volume to 3, to minus infinity and to
    0.25. *)
Lemma master_volume_stays_in_range_witness :
  let calls := [SetMasterVolume (Fin 3); Initialize; SetMasterVolume NInf;
                Reset; SetMasterVolume (Fin 0.25)] in
  Forall (λ v, v ≠ NaN) (masterVolumesSet calls)
  ∧ inUnitRange (masterVolume (@after lineHost calls)).
Proof.
  intros calls.
  assert (Forall (λ v, v ≠ NaN) (masterVolumesSet calls)) as Hcalls.
  { by repeat constructor. }
  refine (conj Hcalls _).
  exact (proj1 (@master_volume_stays_in_range lineHost calls Hcalls)).
Defined.

(** ** The registry of parts *)

Lemma JSSet_has_elem (k : string) (s : JSSet.t) : JSSet.has k s = true ↔ k ∈ s.
Proof.
  unfold JSSet.has. rewrite existsb_exists. split.
  - intros (x & Hx & E). apply String.eqb_eq in E. subst x.
    by apply list_elem_of_In.
  - intros Hk. exists k. split; [by apply list_elem_of_In|apply String.eqb_refl].
Qed.

Lemma JSSet_elem_add (k k' : string) (s : JSSet.t) :
  k' ∈ JSSet.add k s ↔ k' = k ∨ k' ∈ s.
Proof.
  unfold JSSet.add. destruct (JSSet.has k s) eqn:E.
  - apply JSSet_has_elem in E. split; [by right|]. by intros [->|?].
  - rewrite elem_of_app, list_elem_of_singleton. tauto.
Qed.

Lemma JSSet_add_present (k : string) (s : JSSet.t) : k ∈ s → JSSet.add k s = s.
Proof. intros Hk. apply JSSet_has_elem in Hk. unfold JSSet.add. by rewrite Hk. Qed.

Lemma JSSet_add_NoDup (k : string) (s : JSSet.t) : NoDup s → NoDup (JSSet.add k s).
Proof.
  intros Hs. unfold JSSet.add. destruct (JSSet.has k s) eqn:E; [done|].
  apply NoDup_app. split; [done|]. split; [|apply NoDup_singleton].
  intros x Hx Hk. apply list_elem_of_singleton in Hk. subst x.
  apply JSSet_has_elem in Hx. congruence.
Qed.

Section Parts.
Context `{Host}.

Lemma registerLayerPart_post (layerId partId : string) (s : AudioMixer) :
  layerId ≠ "" → partId ≠ "" →
  post (registerLayerPart layerId partId s)
  = set_parts (<[layerId := partId]> (layerToPart s))
      (<[partId := JSSet.add layerId (default [] (partToLayers s !! partId))]>
         (partToLayers s)) s.
Proof.
  intros Hl Hp. unfold registerLayerPart.
  apply String.eqb_neq in Hl, Hp. rewrite Hl, Hp. simpl. f_equal.
  apply map_eq. intros k. rewrite lookup_alter, lookup_insert.
  destruct (partToLayers s !! partId) as [m|] eqn:E; case_decide as Ek; subst.
  - by rewrite E.
  - done.
  - by rewrite lookup_insert_eq.
  - by rewrite lookup_insert_ne.
Qed.

Lemma registerLayerPart_ignores_empty (layerId partId : string) (s : AudioMixer) :
  layerId = "" ∨ partId = "" → registerLayerPart layerId partId s = ret tt s.
Proof.
  unfold registerLayerPart. intros [->| ->]; [by rewrite orb_true_r|done].
Qed.

(** X5. [registerLayerPart(layerId, partId)] with two non-empty ids makes
    [partId] the part of the layer and the layer a member of the part.  It
    never removes a member: a layer that is moved to another part stays a
    member of its old part, which still starts it.  Registering the same
    pair again changes nothing. *)
Theorem registerLayerPart_only_adds (layerId partId : string) (s : AudioMixer) :
  layerId ≠ "" → partId ≠ "" →
  let s' := post (registerLayerPart layerId partId s) in
  layerToPart s' !! layerId = Some partId
  ∧ (∃ members, partToLayers s' !! partId = Some members ∧ layerId ∈ members)
  ∧ (∀ part members, partToLayers s !! part = Some members →
       ∃ members', partToLayers s' !! part = Some members' ∧ members ⊆ members')
  ∧ (∀ other, other ≠ layerId → layerToPart s' !! other = layerToPart s !! other)
  ∧ post (registerLayerPart layerId partId s') = s'.
Proof.
  intros Hl Hp s'. subst s'. rewrite !registerLayerPart_post by done. simpl.
  split; [apply lookup_insert_eq|]. split; [|split; [|split]].
  - eexists. split; [apply lookup_insert_eq|]. apply JSSet_elem_add. by left.
  - intros part members Hpart. destruct (decide (part = partId)) as [->|Hne].
    + eexists. split; [apply lookup_insert_eq|]. rewrite Hpart. simpl.
      intros x Hx. apply JSSet_elem_add. by right.
    + exists members. by rewrite lookup_insert_ne.
  - intros other Hne. by rewrite lookup_insert_ne.
  - rewrite insert_insert_eq, lookup_insert_eq. simpl.
    rewrite insert_insert_eq.
    rewrite (JSSet_add_present layerId (JSSet.add layerId _)); [done|].
    apply JSSet_elem_add. by left.
Qed.

Lemma partsOk_registerLayerPart (layerId partId : string) (s : AudioMixer) :
  partsOk s → partsOk (post (registerLayerPart layerId partId s)).
Proof.
  intros [Hl2p Hp2l].
  destruct (decide (layerId = "")) as [->|Hl].
  { by rewrite registerLayerPart_ignores_empty by auto. }
  destruct (decide (partId = "")) as [->|Hp].
  { by rewrite registerLayerPart_ignores_empty by auto. }
  rewrite registerLayerPart_post by done. split; simpl.
  - intros l p. rewrite lookup_insert. case_decide as El.
    + intros [= <-]. subst l. eexists. split; [apply lookup_insert_eq|].
      apply JSSet_elem_add. by left.
    + intros Hlp. destruct (Hl2p l p Hlp) as (m & Hm & Hin).
      destruct (decide (p = partId)) as [->|Hne].
      * eexists. split; [apply lookup_insert_eq|]. rewrite Hm. simpl.
        apply JSSet_elem_add. by right.
      * exists m. by rewrite lookup_insert_ne.
  - intros p m. rewrite lookup_insert. case_decide as Ep.
    + intros [= <-]. subst p. split; [done|].
      assert (NoDup (default [] (partToLayers s !! partId))
              ∧ "" ∉ default [] (partToLayers s !! partId)) as [Hnd Hne].
      { destruct (partToLayers s !! partId) as [m|] eqn:E; simpl.
        - destruct (Hp2l partId m E) as (_ & _ & ? & ?). done.
        - split; [constructor|]. by intros ?%elem_of_nil. }
      split; [|split].
      * intros Hnil.
        assert (layerId ∈ JSSet.add layerId (default [] (partToLayers s !! partId))) as Hin.
        { apply JSSet_elem_add. by left. }
        rewrite Hnil in Hin. by apply elem_of_nil in Hin.
      * by apply JSSet_add_NoDup.
      * intros Hin. apply JSSet_elem_add in Hin as [?|?]; [by subst|done].
    + apply Hp2l.
Qed.

Lemma partsOk_perform (c : call) (s : AudioMixer) :
  partsOk s → partsOk (post (perform c s)).
Proof.
  intros Hs.
  assert (layerToPart (post (perform c s)) = layerToPart s
          ∧ partToLayers (post (perform c s)) = partToLayers s
          ∨ ∃ layerId partId, c = RegisterLayerPart layerId partId) as [[E1 E2]|Hc].
  { destruct (configures c) eqn:Ec.
    - destruct c; try discriminate Ec; simpl.
      + left. unfold initialize. by case_match.
      + right. by eauto.
      + by left.
      + left. unfold setMasterVolume. simpl. by case_match.
    - left. by rewrite (setting_kept layerToPart c s Ec),
        (setting_kept partToLayers c s Ec). }
  - unfold partsOk. by rewrite E1, E2.
  - destruct Hc as (layerId & partId & ->). by apply partsOk_registerLayerPart.
Qed.

Lemma partsOk_constructor : partsOk constructor.
Proof. split; intros ? ?; simpl; by rewrite lookup_empty. Qed.

(** X6. In a session that starts from a new mixer the two maps of the part
    registry agree: the part recorded for a layer lists that layer.  Every
    registered part has a non-empty id and at least one member, its members
    are distinct and none is the empty id. *)
Theorem part_registry_is_consistent (calls : list call) :
  partsOk (after calls).
Proof.
  unfold after. generalize constructor, partsOk_constructor.
  induction calls as [|c calls IH]; intros s Hs; simpl; [done|].
  by apply IH, partsOk_perform.
Qed.
End Parts.

(** ** The shape of a zone's contribution *)

Lemma ramp_fraction (r f d : Q) :
  d <= r → ¬ d <= Qmax 0 (r - f) → 0 < f ∧ 0 <= (r - d) / f ∧ (r - d) / f < 1.
Proof.
  intros Hd Hring. pose proof (ramp_divisor_nonzero r f d Hd Hring) as Hf.
  split; [done|]. split.
  - apply Qle_shift_div_l; [done|]. lra.
  - apply Qlt_shift_div_r; [done|].
    destruct (Q.max_spec 0 (r - f)) as [[? E]|[? E]]; rewrite E in Hring; lra.
Qed.

Lemma scale_le (m a b : Q) : 0 <= m → a <= b → m * a <= m * b.
Proof. intros Hm Hab. rewrite !(Qmult_comm m). by apply Qmult_le_compat_r. Qed.

Lemma scale_lt (m a b : Q) : 0 < m → a < b → m * a < m * b.
Proof. intros Hm Hab. by apply (proj2 (Qmult_lt_l a b m Hm)). Qed.

Section Shape.
Context `{Host}.

Lemma zoneVolume_cases (z : Zone.t) (r f m d : Q) :
  Zone.radius z = Some (Fin r) → Zone.fadeDistance z = Fin f →
  Zone.maxVolume z = Fin m →
  (r < d ∧ zoneVolume (Fin d) z = Fin 0)
  ∨ (d <= r ∧ d <= Qmax 0 (r - f) ∧ zoneVolume (Fin d) z = Fin m)
  ∨ (d <= r ∧ ¬ d <= Qmax 0 (r - f)
     ∧ zoneVolume (Fin d) z = Fin (m * ((r - d) / f))).
Proof.
  intros Hr Hf Hm.
  destruct (Qlt_le_dec r d) as [Hout|Hin].
  { left. split; [done|]. by apply (zoneVolume_outside z r d). }
  right. destruct (Qlt_le_dec (Qmax 0 (r - f)) d) as [Hring|Hcore].
  - right. apply Qlt_not_le in Hring. split; [done|]. split; [done|].
    by apply (zoneVolume_ramp z r f m d).
  - left. split; [done|]. split; [done|].
    rewrite <- Hm. by apply (zoneVolume_core z r f d).
Qed.

(** X7. The contribution of a zone with maximum volume [m >= 0] lies
    between 0 and [m] and never grows with the distance: of two positions
    the one farther from the centre gets the smaller contribution, or the
    same. *)
Theorem zone_volume_falls_with_distance (z : Zone.t) (r f m d1 d2 : Q) :
  Zone.radius z = Some (Fin r) → Zone.fadeDistance z = Fin f →
  Zone.maxVolume z = Fin m → 0 <= m → d1 <= d2 →
  ∃ v1 v2, zoneVolume (Fin d1) z = Fin v1 ∧ zoneVolume (Fin d2) z = Fin v2
           ∧ 0 <= v2 ∧ v2 <= v1 ∧ v1 <= m.
Proof.
  intros Hr Hf Hm Hm0 Hd.
  assert (∀ d, d <= r → ¬ d <= Qmax 0 (r - f) →
               0 <= m * ((r - d) / f) ∧ m * ((r - d) / f) <= m) as Hramp.
  { intros d Hin Hring. destruct (ramp_fraction r f d Hin Hring) as (_ & H0 & H1).
    split; [by apply Qmult_le_0_compat|].
    rewrite <- (Qmult_1_r m) at 2. apply scale_le; [done|lra]. }
  destruct (zoneVolume_cases z r f m d1 Hr Hf Hm)
    as [[Ho1 ->]|[(Hi1 & Hc1 & ->)|(Hi1 & Hg1 & ->)]];
  destruct (zoneVolume_cases z r f m d2 Hr Hf Hm)
    as [[Ho2 ->]|[(Hi2 & Hc2 & ->)|(Hi2 & Hg2 & ->)]];
  eexists _, _; (split; [reflexivity|]); (split; [reflexivity|]);
  try (destruct (Hramp d1 Hi1 Hg1)); try (destruct (Hramp d2 Hi2 Hg2));
  try (exfalso; lra); try (exfalso; apply Hg1; lra);
  try (split; [|split]; lra).
  split; [done|]. split; [|done].
  destruct (ramp_fraction r f d1 Hi1 Hg1) as (Hf0 & _).
  apply scale_le; [done|].
  apply Qle_shift_div_l; [done|].
  assert ((r - d2) / f * f == r - d2) as -> by (field; lra). lra.
Qed.

(** X8. When the fade distance is positive and not larger than the radius,
    the contribution is the ramp [(r - d) / f] clamped to [0, 1] and scaled
    by the maximum volume: it has no jump, neither at the radius nor where
    the fade starts. *)
Theorem zone_volume_is_a_clamped_ramp (z : Zone.t) (r f m d : Q) :
  Zone.radius z = Some (Fin r) → Zone.fadeDistance z = Fin f →
  Zone.maxVolume z = Fin m → 0 < f → f <= r →
  zoneVolume (Fin d) z =n= Fin (m * Qmin 1 (Qmax 0 ((r - d) / f))).
Proof.
  intros Hr Hf Hm Hf0 Hfr.
  assert (Qmax 0 (r - f) == r - f) as Hstart by (apply Q.max_r; lra).
  destruct (zoneVolume_cases z r f m d Hr Hf Hm)
    as [[Ho ->]|[(Hi & Hc & ->)|(Hi & Hg & ->)]]; simpl.
  - assert ((r - d) / f <= 0) as Hneg.
    { apply Qle_shift_div_r; [done|]. lra. }
    rewrite (Q.max_l 0 ((r - d) / f)) by done.
    rewrite Q.min_r by lra. ring.
  - assert (1 <= (r - d) / f) as Hfull.
    { apply Qle_shift_div_l; [done|]. lra. }
    rewrite (Q.max_r 0 ((r - d) / f)) by lra.
    rewrite Q.min_l by done. ring.
  - destruct (ramp_fraction r f d Hi Hg) as (_ & H0 & H1).
    rewrite (Q.max_r 0 ((r - d) / f)) by done.
    rewrite Q.min_r by lra. reflexivity.
Qed.

(** X9. When the fade distance exceeds the radius, the contribution jumps
    at the centre: it is the maximum volume [m] at distance 0 and at most
    [m * r / f], which is less than [m], at every other distance. *)
Theorem zone_volume_jumps_at_the_centre (z : Zone.t) (r f m : Q) :
  Zone.radius z = Some (Fin r) → Zone.fadeDistance z = Fin f →
  Zone.maxVolume z = Fin m → 0 < r → r < f → 0 < m →
  zoneVolume (Fin 0) z = Fin m
  ∧ m * (r / f) < m
  ∧ ∀ d, 0 < d → ∃ v, zoneVolume (Fin d) z = Fin v ∧ v < m * (r / f).
Proof.
  intros Hr Hf Hm Hr0 Hrf Hm0.
  assert (0 < f) as Hf0 by lra.
  assert (Qmax 0 (r - f) == 0) as Hstart by (apply Q.max_l; lra).
  assert (0 < r / f ∧ r / f < 1) as [Hq0 Hq1].
  { split; [apply Qlt_shift_div_l|apply Qlt_shift_div_r]; lra. }
  split; [|split].
  - rewrite <- Hm. apply (zoneVolume_core z r f 0); [done|done|lra|lra].
  - rewrite <- (Qmult_1_r m) at 2. by apply scale_lt.
  - intros d Hd.
    destruct (zoneVolume_cases z r f m d Hr Hf Hm)
      as [[Ho ->]|[(Hi & Hc & ->)|(Hi & Hg & ->)]].
    + exists 0. split; [done|]. apply Qmult_lt_0_compat; lra.
    + exfalso. lra.
    + eexists. split; [reflexivity|]. apply scale_lt; [done|].
      apply Qlt_shift_div_l; [done|].
      assert ((r - d) / f * f == r - d) as -> by (field; lra). lra.
Qed.
End Shape.

(** ** The trigger radius of a oneshot zone *)

Section Trigger.
Context `{Host}.

Lemma triggerRadius_value (z : Zone.t) :
  finiteOrAbsent (Zone.radius z) →
  ∃ t, triggerRadius z = Fin t ∧ 1 <= t
       ∧ (Zone.radius z = None → t == 10)
       ∧ (∀ r, Zone.radius z = Some (Fin r) →
               t == if Qeq_bool r 0 then 10 else Qmax 1 r).
Proof.
  unfold triggerRadius. destruct (Zone.radius z) as [[r| | |]|]; try done; intros _.
  - simpl. destruct (Qeq_bool r 0) eqn:Ez; simpl.
    + exists 10. split; [done|]. split; [done|]. split; [done|].
      intros r' [= <-]. by rewrite Ez.
    + destruct (Qle_bool 1 r) eqn:E1.
      * apply Qle_bool_iff in E1. exists r. split; [done|]. split; [done|].
        split; [done|]. intros r' [= <-]. rewrite Ez. symmetry. by apply Q.max_r.
      * apply (num_le_Fin_false 1 r) in E1. exists 1. split; [done|].
        split; [done|]. split; [done|]. intros r' [= <-]. rewrite Ez.
        symmetry. apply Q.max_l. lra.
  - exists 10. by repeat split.
Qed.

(** X10. A oneshot zone fires when the listener is within its trigger
    radius, the boundary included.  The trigger radius is the radius of the
    zone but at least 1 m; a radius that is missing or 0 counts as 10 m, so
    a zone of radius 0 fires from farther away than one of radius 0.5. *)
Theorem oneshot_fires_within_trigger_radius (z : Zone.t) (p : Position)
    (s : AudioMixer) (d : Q) :
  finiteOrAbsent (Zone.radius z) →
  Zone.isOneshot z = true →
  zoneDistance p z = Fin d →
  playedOneshots s = ∅ →
  Zone.id z ≠ "oneshot_finale" →
  ∃ t, triggerRadius z = Fin t ∧ 1 <= t
       ∧ (Zone.radius z = None → t == 10)
       ∧ (∀ r, Zone.radius z = Some (Fin r) →
               t == if Qeq_bool r 0 then 10 else Qmax 1 r)
       ∧ (OneshotTriggered (Zone.id z) ∈ out (oneshotStep p z s) ↔ d <= t).
Proof.
  intros Hr Honeshot Hd Hplayed Hid.
  destruct (triggerRadius_value z Hr) as (t & Ht & H1 & Hnone & Hsome).
  exists t. do 4 (split; [done|]).
  destruct (oneshotStep_spec p z s) as [_ Hstep].
  assert (fires p z s = Qle_bool d t) as Hfires.
  { unfold fires. rewrite Honeshot, Hd, Ht, Hplayed. simpl.
    apply String.eqb_neq in Hid. rewrite Hid.
    rewrite !bool_decide_eq_false_2 by (by intros ?%elem_of_empty).
    simpl. by rewrite !andb_true_r. }
  rewrite Hfires in Hstep. destruct (Qle_bool d t) eqn:E.
  - destruct Hstep as [_ ->]. apply Qle_bool_iff in E. split; [done|].
    intros _. by left.
  - destruct Hstep as [_ Hquiet]. apply (num_le_Fin_false d t) in E. split; [|lra].
    intros Hin. exfalso. rewrite Forall_forall in Hquiet. by apply (Hquiet _ Hin).
Qed.
End Trigger.

(** ** Playback *)

Lemma elem_of_runningHandles (ctx : AudioContext) (h : nat) :
  h ∈ runningHandles ctx
  ↔ ∃ node, sources ctx !! h = Some node ∧ running node = true.
Proof.
  unfold runningHandles. rewrite elem_of_dom. unfold is_Some.
  split.
  - intros (node & Hnode). apply map_lookup_filter_Some in Hnode as [? ?]. by eauto.
  - intros (node & Hnode & Hrun). exists node. by apply map_lookup_filter_Some.
Qed.

Section Playback.
Context `{Host}.

Lemma playLayer_loaded (layerId : string) (volume : num) (loop : bool)
    (s : AudioMixer) (l : Layer.t) (b : AudioBuffer) (ctx : AudioContext) (bus : nat) :
  JSMap.get layerId (audioLayers s) = Some l → Layer.buffer l = Some b →
  audioContext s = Some ctx → musicBus s = Some bus →
  let src := next_handle ctx in
  let g := S (next_handle ctx) in
  ∃ ctx',
    playLayer layerId volume loop s
    = {| res := Returned tt;
         post := set_audioLayers
                   (JSMap.set layerId (Layer.with_playback (Some src) (Some g) true l))
                   (set_audioContext (λ _, ctx') s);
         out := [PlayingLayer layerId volume] |}
    ∧ next_handle ctx' = S (S (next_handle ctx))
    ∧ sources ctx'
      = <[src := {| src_buffer := Some b; src_loop := loop; src_out := ToNode g;
                    src_started := true; src_stopped := false |}]>
          match Layer.source l with
          | Some old => alter stopSource old (sources ctx)
          | None => sources ctx
          end
    ∧ gains ctx'
      = <[g := {| gain := [SetValue (Fin 0);
                           LinearRamp (num_mul volume (masterVolume s)) (Fin 0.05)];
                  gain_out := ToNode bus |}]> (gains ctx).
Proof.
  intros Hl Hb Hctx Hbus src g. subst src g.
  unfold playLayer. rewrite Hl, Hb, Hctx, Hbus.
  rewrite bool_decide_eq_true_2 by eauto. cbv beta iota zeta. unfold bind. simpl.
  unfold mutateLayer. simpl. rewrite Hl.
  destruct (Layer.source l) as [old|]; simpl;
    (eexists; split; [reflexivity|]; split; [done|]; simpl;
     rewrite !alter_insert_eq; by split).
Qed.

(** X11. In a session that starts from a new mixer, [playLayer] on a loaded
    layer gives the layer one new source: started, with the layer's buffer
    and the requested loop flag, routed through a new gain node to the
    music bus, the gain ramping from 0 to the volume times the master
    volume.  The source the layer held before is stopped, so a layer that
    is played again does not sound twice: the sounding sources are those
    that sounded before, without the old source and with the new one. *)
Theorem playLayer_replaces_the_source (calls : list call) (layerId : string)
    (volume : num) (loop : bool) (l : Layer.t) (b : AudioBuffer) :
  let s := after calls in
  JSMap.get layerId (audioLayers s) = Some l →
  Layer.buffer l = Some b →
  let r := playLayer layerId volume loop s in
  ∃ ctx ctx' bus,
    audioContext s = Some ctx ∧ musicBus s = Some bus
    ∧ audioContext (post r) = Some ctx'
    ∧ res r = Returned tt
    ∧ let src := next_handle ctx in
      let g := S (next_handle ctx) in
      JSMap.get layerId (audioLayers (post r))
      = Some (Layer.with_playback (Some src) (Some g) true l)
      ∧ sources ctx' !! src
        = Some {| src_buffer := Some b; src_loop := loop; src_out := ToNode g;
                  src_started := true; src_stopped := false |}
      ∧ gains ctx' !! g
        = Some {| gain := [SetValue (Fin 0);
                           LinearRamp (num_mul volume (masterVolume s)) (Fin 0.05)];
                  gain_out := ToNode bus |}
      ∧ runningSources (post r)
        = {[src]} ∪ (runningSources s
                     ∖ match Layer.source l with Some old => {[old]} | None => ∅ end).
Proof.
  intros s Hl Hb r.
  pose proof (after_sane calls) as Hs. fold s in Hs.
  destruct (sane_loaded_context None layerId l s Hs Hl) as ([ctx Hctx] & [bus Hbus] & _).
  { by rewrite Hb. }
  pose proof (sane_ordered None s ctx Hs Hctx) as Hord.
  destruct Hs as (Hlayers & _).
  destruct (Hlayers layerId l Hl) as (_ & _ & Hheld).
  assert (∀ old, Layer.source l = Some old → (old < next_handle ctx)%nat) as Hold.
  { intros old Eold. destruct (Hheld old Eold) as (ctx0 & Hctx0 & Hlt). congruence. }
  assert (sources ctx !! next_handle ctx = None) as Hfresh.
  { apply eq_None_not_Some. intros Hsome. apply Hord in Hsome. lia. }
  destruct (playLayer_loaded layerId volume loop s l b ctx bus Hl Hb Hctx Hbus)
    as (ctx' & Hrun & Hnext & Hsources & Hgains).
  subst r. rewrite Hrun. simpl.
  exists ctx, ctx', bus. split; [done|]. split; [done|].
  split; [by rewrite Hctx|]. split; [done|].
  split; [apply JSMap_get_set_eq|].
  split; [by rewrite Hsources, lookup_insert_eq|].
  split; [by rewrite Hgains, lookup_insert_eq|].
  unfold runningSources. simpl. rewrite Hctx. simpl.
  apply set_eq. intros h.
  rewrite elem_of_union, elem_of_difference, elem_of_singleton,
    !elem_of_runningHandles, Hsources.
  destruct (decide (h = next_handle ctx)) as [->|Hne].
  { rewrite lookup_insert_eq. split; [by left|]. intros _. by eexists. }
  rewrite lookup_insert_ne by done.
  destruct (Layer.source l) as [old|] eqn:Eold.
  - rewrite elem_of_singleton. destruct (decide (h = old)) as [->|Hne'].
    + rewrite lookup_alter_eq. split; [|by intros [?|[_ ?]]].
      intros (node & Hnode & Hrunning). exfalso.
      destruct (sources ctx !! old) as [n|]; [|done].
      injection Hnode as <-. unfold running in Hrunning. simpl in Hrunning.
      by rewrite andb_false_r in Hrunning.
    + rewrite lookup_alter_ne by done. split; [by right|]. by intros [?|[? _]].
  - split; [right; split; [done|]; by intros ?%elem_of_empty|].
    by intros [?|[? _]].
Qed.
End Playback.

(** ** Stopping *)

Lemma JSMap_keys_map {V W} (g : V → W) (m : JSMap.t V) :
  JSMap.keys (map (λ kv, (kv.1, g kv.2)) m) = JSMap.keys m.
Proof. unfold JSMap.keys. rewrite map_map. by apply map_ext. Qed.

Lemma JSMap_get_keys {V} (k : string) (m : JSMap.t V) :
  is_Some (JSMap.get k m) ↔ k ∈ JSMap.keys m.
Proof.
  unfold JSMap.keys. induction m as [|[k' v] m IH]; simpl.
  - split; [by intros [? [=]]|by intros ?%elem_of_nil].
  - rewrite elem_of_cons. destruct (String.eqb k k') eqn:E.
    + apply String.eqb_eq in E. split; [by left|by eauto].
    + apply String.eqb_neq in E. rewrite IH. split; [by right|by intros [?|?]].
Qed.

Section Stopping.
Context `{Host}.

Lemma isReady_congr (s s' : AudioMixer) :
  isInitialized s' = isInitialized s → masterGain s' = masterGain s →
  (is_Some (audioContext s') ↔ is_Some (audioContext s)) →
  isReady s' = isReady s.
Proof.
  intros Hi Hm Hc. unfold isReady. rewrite Hi, Hm. f_equal. f_equal.
  destruct (decide (is_Some (audioContext s))) as [Hs|Hs].
  - rewrite !bool_decide_eq_true_2; [done..|]. by apply Hc.
  - rewrite !bool_decide_eq_false_2; [done..|]. by rewrite Hc.
Qed.

Lemma stopLayer_idle (layerId : string) (s : AudioMixer) :
  (∀ l, JSMap.get layerId (audioLayers s) = Some l → Layer.isPlaying l = false) →
  stopLayer layerId s = ret tt s.
Proof.
  intros Hidle. unfold stopLayer.
  destruct (JSMap.get layerId (audioLayers s)) as [l|]; [|done].
  by rewrite (Hidle l eq_refl).
Qed.

Lemma stopLayer_playing (layerId : string) (s : AudioMixer) (l : Layer.t) :
  JSMap.get layerId (audioLayers s) = Some l → Layer.isPlaying l = true →
  stopLayer layerId s
  = {| res := Returned tt;
       post := set_audioLayers
                 (JSMap.set layerId (Layer.with_playback None None false l))
                 match Layer.source l with
                 | Some src => set_audioContext (updSource src stopSource) s
                 | None => s
                 end;
       out := [StoppedLayer layerId] |}.
Proof.
  intros Hl Hplay. unfold stopLayer. rewrite Hl, Hplay. simpl.
  unfold bind. simpl. unfold mutateLayer.
  destruct (Layer.source l); simpl; by rewrite Hl.
Qed.

Lemma quieter_refl (s : AudioMixer) : quieter s s.
Proof.
  split; [done|]. split; [done|]. split; [by left|].
  destruct (audioContext s); [|done]. split; [done|]. split; [done|].
  intros h. left. by split.
Qed.

Lemma stopSource_twice (n : BufferSource) : stopSource (stopSource n) = stopSource n.
Proof. done. Qed.

(** One more layer stopped. *)
Lemma quieter_stopLayer (s0 s : AudioMixer) (layerId : string) :
  quieter s0 s → quieter s0 (post (stopLayer layerId s)).
Proof.
  intros (Hrest & Hkeys & Hlayers & Hctx).
  destruct (JSMap.get layerId (audioLayers s)) as [l|] eqn:El; cycle 1.
  { rewrite stopLayer_idle; [done|]. intros l. by rewrite El. }
  destruct (Layer.isPlaying l) eqn:Eplay; cycle 1.
  { rewrite stopLayer_idle; [done|]. intros l'. rewrite El. by intros [= <-]. }
  rewrite (stopLayer_playing layerId s l El Eplay). simpl.
  assert (JSMap.get layerId (audioLayers s0) = Some l) as El0.
  { destruct (Hlayers layerId) as [E|(l0 & _ & _ & E)].
    - by rewrite <- E.
    - rewrite El in E. injection E as ->. done. }
  split; [|split; [|split]].
  - rewrite <- Hrest. by destruct (Layer.source l).
  - destruct (Layer.source l); simpl; rewrite <- Hkeys;
      apply JSMap_keys_set_present; by rewrite El.
  - intros k. destruct (decide (k = layerId)) as [->|Hne].
    + right. exists l. split; [done|]. split; [done|].
      destruct (Layer.source l); simpl; apply JSMap_get_set_eq.
    + destruct (Layer.source l); simpl; rewrite JSMap_get_set_ne by done;
        apply Hlayers.
  - destruct (Layer.source l) as [src|] eqn:Esrc; simpl; cycle 1.
    { destruct (audioContext s0) as [ctx0|], (audioContext s) as [ctx|]; try done.
      destruct Hctx as (Hnext & Hgains & Hsources).
      split; [done|]. split; [done|]. intros h.
      destruct (Hsources h) as [[E Hheld]|?]; [left|by right]. split; [done|].
      intros k l0 Hk Hplay0 Hsrc0.
      destruct (decide (k = layerId)) as [->|Hk'].
      - congruence.
      - rewrite JSMap_get_set_ne by done. by apply (Hheld k l0). }
    destruct (audioContext s0) as [ctx0|], (audioContext s) as [ctx|]; simpl; try done.
    destruct Hctx as (Hnext & Hgains & Hsources).
    split; [done|]. split; [done|]. intros h.
    destruct (decide (h = src)) as [->|Hne].
    + right. rewrite lookup_alter_eq. split; [|by exists layerId, l].
      destruct (Hsources src) as [[-> _]|[-> _]]; [done|].
      by destruct (sources ctx0 !! src).
    + rewrite lookup_alter_ne by done.
      destruct (Hsources h) as [[E Hheld]|?]; [left|by right]. split; [done|].
      intros k l0 Hk Hplay0 Hsrc0.
      destruct (decide (k = layerId)) as [->|Hk'].
      * congruence.
      * rewrite JSMap_get_set_ne by done. by apply (Hheld k l0).
Qed.

Lemma quieter_stopLayers (ks : list string) (s0 s : AudioMixer) :
  quieter s0 s → quieter s0 (post (forEach stopLayer ks s)).
Proof.
  revert s. induction ks as [|k ks IH]; intros s Hs; simpl; [done|].
  unfold bind. rewrite stopLayer_returns. simpl.
  by apply IH, quieter_stopLayer.
Qed.

Lemma quieter_stays_idle (s0 s : AudioMixer) (layerId : string) (l : Layer.t) :
  quieter s0 s → JSMap.get layerId (audioLayers s) = Some l →
  (∀ l0, JSMap.get layerId (audioLayers s0) = Some l0 → Layer.isPlaying l0 = false) →
  Layer.isPlaying l = false.
Proof.
  intros (_ & _ & Hlayers & _) Hl Hidle.
  destruct (Hlayers layerId) as [E|(l0 & _ & _ & E)].
  - apply Hidle. by rewrite <- E.
  - rewrite Hl in E. by injection E as ->.
Qed.

Lemma stopLayers_idle (ks : list string) (s : AudioMixer) (layerId : string)
    (l : Layer.t) :
  layerId ∈ ks →
  JSMap.get layerId (audioLayers (post (forEach stopLayer ks s))) = Some l →
  Layer.isPlaying l = false.
Proof.
  revert s. induction ks as [|k ks IH]; intros s Hin; [by apply elem_of_nil in Hin|].
  simpl. unfold bind. rewrite stopLayer_returns. simpl.
  apply elem_of_cons in Hin as [->|Hin]; [|by apply IH].
  intros Hl.
  apply (quieter_stays_idle (post (stopLayer k s)) _ k l
           (quieter_stopLayers ks _ _ (quieter_refl _)) Hl).
  intros l0. destruct (JSMap.get k (audioLayers s)) as [l1|] eqn:E1; cycle 1.
  { rewrite stopLayer_idle; [simpl; by rewrite E1|]. intros ?. by rewrite E1. }
  destruct (Layer.isPlaying l1) eqn:Eplay; cycle 1.
  { rewrite stopLayer_idle; [simpl; rewrite E1; by intros [= <-]|].
    intros ?. rewrite E1. by intros [= <-]. }
  rewrite (stopLayer_playing k s l1 E1 Eplay). simpl.
  destruct (Layer.source l1); simpl; rewrite JSMap_get_set_eq; by intros [= <-].
Qed.

(** What [stopAll()] and the [stopAll()] of [reset()] leave behind. *)
Lemma stopAll_spec (s : AudioMixer) :
  let s' := post (stopAll s) in
  res (stopAll s) = Returned tt
  ∧ quieter s s'
  ∧ allLayers (λ l, Layer.isPlaying l = false) s'.
Proof.
  unfold stopAll, bind. simpl.
  split; [apply forEach_returns, stopLayer_returns|].
  split; [apply quieter_stopLayers, quieter_refl|].
  intros k l Hl. apply (stopLayers_idle (JSMap.keys (audioLayers s)) s k l); [|done].
  pose proof (quieter_stopLayers (JSMap.keys (audioLayers s)) s s (quieter_refl s))
    as (_ & Hkeys & _).
  rewrite <- Hkeys. apply JSMap_get_keys. by rewrite Hl.
Qed.

(** After [stopAll()] every layer is as [stopLayer] leaves it. *)
Lemma stopAll_layers (s : AudioMixer) (layerId : string) :
  JSMap.get layerId (audioLayers (post (stopAll s)))
  = stopped <$> JSMap.get layerId (audioLayers s).
Proof.
  destruct (stopAll_spec s) as (_ & (_ & _ & Hlayers & _) & Hidle).
  destruct (Hlayers layerId) as [E|(l & -> & Hplay & ->)].
  - rewrite E. destruct (JSMap.get layerId (audioLayers s)) as [l|] eqn:El; [|done].
    simpl. unfold stopped. by rewrite (Hidle layerId l E).
  - simpl. unfold stopped. by rewrite Hplay.
Qed.

(** [stopAll()] stops the sources that playing layers hold, and no
    other. *)
Lemma stopAll_sources (s : AudioMixer) (h : nat) :
  h ∈ runningSources (post (stopAll s)) ↔ h ∈ runningSources s ∧ ¬ holds s h.
Proof.
  destruct (stopAll_spec s) as (_ & (_ & _ & _ & Hctx) & Hidle).
  unfold runningSources.
  destruct (audioContext s) as [ctx0|], (audioContext (post (stopAll s))) as [ctx|];
    try done.
  2: { split; [by intros ?%elem_of_empty|]. by intros [?%elem_of_empty _]. }
  destruct Hctx as (_ & _ & Hsources). rewrite !elem_of_runningHandles.
  destruct (Hsources h) as [[E Hheld]|[E Hholds]]; rewrite E.
  - split; [|by intros [? _]]. intros Hrun. split; [done|].
    intros (k & l & Hk & Hplay & Hsrc).
    pose proof (Hidle k l (Hheld k l Hk Hplay Hsrc)). congruence.
  - split; [|by intros [_ ?]]. intros (node & Hnode & Hrun). exfalso.
    destruct (sources ctx0 !! h) as [n|]; [|done]. injection Hnode as <-.
    unfold running in Hrun. simpl in Hrun. by rewrite andb_false_r in Hrun.
Qed.

(** X12. [stopAll()] returns and leaves every layer as [stopLayer] leaves
    it: a layer that played is marked as not playing and has lost its
    nodes.  It stops the sources that playing layers held and no other: a
    oneshot, whose source no layer holds, goes on sounding although its
    layer is now marked as not playing.  Buffers and every other property
    of the layers stay. *)
Theorem stopAll_stops_what_layers_hold (s : AudioMixer) :
  let s' := post (stopAll s) in
  res (stopAll s) = Returned tt
  ∧ JSMap.keys (audioLayers s') = JSMap.keys (audioLayers s)
  ∧ (∀ layerId,
       JSMap.get layerId (audioLayers s')
       = stopped <$> JSMap.get layerId (audioLayers s))
  ∧ (∀ h, h ∈ runningSources s' ↔ h ∈ runningSources s ∧ ¬ holds s h)
  ∧ besidesPlayback s' = besidesPlayback s.
Proof.
  intros s'. subst s'. destruct (stopAll_spec s) as (Hres & (Hrest & Hkeys & _) & _).
  split; [done|]. split; [done|]. split; [apply stopAll_layers|].
  split; [apply stopAll_sources|done].
Qed.

Lemma reset_post (s : AudioMixer) :
  post (reset s)
  = set_audioLayers (map (λ kv, (kv.1, Layer.with_playback None None false kv.2)))
      (set_layerGains (λ _, ∅)
         (set_activeOneshots (λ _, ∅)
            (set_playedOneshots (λ _, ∅)
               (set_startedParts (λ _, ∅) (post (stopAll s)))))).
Proof.
  unfold reset, bind. destruct (stopAll_spec s) as (-> & _). done.
Qed.

Lemma reset_ready (s : AudioMixer) : isReady (post (reset s)) = isReady s.
Proof.
  rewrite reset_post.
  destruct (stopAll_spec s) as (_ & (Hrest & _ & _ & Hctx) & _).
  unfold besidesPlayback in Hrest.
  injection Hrest as Hmaster _ _ Hinit _ _ _ _ _ _ _ _.
  apply isReady_congr; [exact Hinit|exact Hmaster|].
  change (is_Some (audioContext (post (stopAll s))) ↔ is_Some (audioContext s)).
  destruct (audioContext s), (audioContext (post (stopAll s)));
    simpl in Hctx; try done.
Qed.

(** X13. [reset()] returns and forgets the playback state: no layer is
    marked as playing or holds nodes, and the started parts, the played and
    the active oneshots and the part gains are empty, so that every zone can
    fire again.  It keeps what was configured and loaded: the layers with
    their buffers, loop flags, volumes and URLs, the zones, the part
    registry, the master volume and the readiness of the mixer.  Like
    [stopAll()] it stops the sources that playing layers held and no other,
    so a oneshot that is sounding goes on. *)
Theorem reset_forgets_playback_only (s : AudioMixer) :
  let s' := post (reset s) in
  res (reset s) = Returned tt
  ∧ JSMap.keys (audioLayers s') = JSMap.keys (audioLayers s)
  ∧ (∀ layerId,
       JSMap.get layerId (audioLayers s')
       = Layer.with_playback None None false <$> JSMap.get layerId (audioLayers s))
  ∧ (∀ h, h ∈ runningSources s' ↔ h ∈ runningSources s ∧ ¬ holds s h)
  ∧ startedParts s' = ∅ ∧ playedOneshots s' = ∅ ∧ activeOneshots s' = ∅
  ∧ layerGains s' = ∅
  ∧ audioZones s' = audioZones s ∧ layerToPart s' = layerToPart s
  ∧ partToLayers s' = partToLayers s ∧ masterVolume s' = masterVolume s
  ∧ isReady s' = isReady s.
Proof.
  intros s'. subst s'. pose proof (reset_ready s) as Hready. rewrite reset_post in *.
  destruct (stopAll_spec s) as (Hres & (Hrest & Hkeys & _ & Hctx) & _).
  split; [by apply reset_clears|].
  split.
  { change (JSMap.keys (map (λ kv, (kv.1, Layer.with_playback None None false kv.2))
                          (audioLayers (post (stopAll s))))
            = JSMap.keys (audioLayers s)).
    by rewrite JSMap_keys_map. }
  split.
  { intros layerId.
    change (JSMap.get layerId
              (map (λ kv, (kv.1, Layer.with_playback None None false kv.2))
                 (audioLayers (post (stopAll s))))
            = Layer.with_playback None None false <$> JSMap.get layerId (audioLayers s)).
    rewrite JSMap_get_map, stopAll_layers.
    destruct (JSMap.get layerId (audioLayers s)) as [l|]; [|done]. simpl.
    unfold stopped. by destruct (Layer.isPlaying l). }
  split; [apply stopAll_sources|].
  do 4 (split; [done|]).
  unfold besidesPlayback in Hrest.
  injection Hrest as Hmaster _ _ Hinit Hvol Hzones Hl2p Hp2l _ _ _ _.
  by do 4 (split; [done|]).
Qed.

(** X19. [reset()] lets the walk start over.  On a ready mixer a oneshot
    zone that is in range fires on the first update after [reset()],
    whether or not it had fired before and whether or not the finale had
    closed the walk; only a finale that fires earlier in that same update
    pre-empts it. *)
Theorem reset_lets_zones_fire_again (s : AudioMixer) (p : Position) (z : Zone.t) :
  isReady s = true →
  z ∈ audioZones s →
  Zone.isOneshot z = true →
  num_le (zoneDistance p z) (triggerRadius z) = true →
  Zone.id z ≠ "oneshot_finale" →
  let r := updateLocationAudio (Some p) (post (reset s)) in
  fireCount (Zone.id z) (out r) = 1%nat
  ∨ fireCount "oneshot_finale" (out r) = 1%nat.
Proof.
  intros Hready Hz Honeshot Hrange Hid r. subst r.
  set (s0 := post (reset s)).
  assert (isReady s0 = true) as Hready0 by (unfold s0; by rewrite reset_ready).
  assert (playedOneshots s0 = ∅) as Hplayed0 by apply reset_clears.
  assert (z ∈ audioZones s0) as Hz0 by (unfold s0; by rewrite reset_keeps_registry).
  destruct (tick_is_step1 p s0 Hready0) as [Hpost _].
  pose proof (step1_reaches p (audioZones s0) s0 z Hz0 Honeshot Hrange) as Hreach.
  simpl in Hreach. rewrite <- Hpost in Hreach.
  assert (∀ zoneId, zoneId ∈ playedOneshots (post (updateLocationAudio (Some p) s0)) →
            fireCount zoneId (out (updateLocationAudio (Some p) s0)) = 1%nat) as Hfired.
  { intros zoneId Hin. destruct (tick_played (Some p) s0 zoneId) as [_ ->].
    rewrite bool_decide_eq_true_2; [done|]. split; [done|].
    rewrite Hplayed0. by intros ?%elem_of_empty. }
  destruct Hreach as [Hin|[[_ Hin]|[? _]]]; [left|right|done]; by apply Hfired.
Qed.
End Stopping.

(** ** Oneshots *)

Section OneshotPlayback.
Context `{Host}.

Lemma playOneShot_refused (layerId : string) (s : AudioMixer) (l : Layer.t) :
  JSMap.get layerId (audioLayers s) = Some l → is_Some (Layer.buffer l) →
  layerId ∈ activeOneshots s →
  playOneShot layerId s = emit (OneshotAlreadyPlaying layerId) s.
Proof.
  intros Hl Hb Hactive. unfold playOneShot. rewrite Hl.
  by rewrite !bool_decide_eq_true_2.
Qed.

Lemma playOneShot_plays (layerId : string) (s : AudioMixer) (l : Layer.t)
    (b : AudioBuffer) (ctx : AudioContext) (bus music : nat) :
  JSMap.get layerId (audioLayers s) = Some l → Layer.buffer l = Some b →
  layerId ∉ activeOneshots s →
  audioContext s = Some ctx → oneshotBus s = Some bus → musicBus s = Some music →
  let src := next_handle ctx in
  let g := S (next_handle ctx) in
  let '(target, duration, timers) := duckingFor layerId in
  let r := playOneShot layerId s in
  ∃ ctx',
    res r = Returned tt ∧ out r = OneshotPlaying layerId :: timers
    ∧ audioContext (post r) = Some ctx'
    ∧ audioLayers (post r)
      = JSMap.set layerId (Layer.with_isPlaying true l) (audioLayers s)
    ∧ activeOneshots (post r) = {[layerId]} ∪ activeOneshots s
    ∧ next_handle ctx' = S (S (next_handle ctx))
    ∧ sources ctx'
      = <[src := {| src_buffer := Some b; src_loop := false; src_out := ToNode g;
                    src_started := true; src_stopped := false |}]> (sources ctx)
    ∧ gains ctx'
      = alter (ducked target duration) music
          (<[g := {| gain := [SetValue (Fin 1)]; gain_out := ToNode bus |}]>
             (gains ctx)).
Proof.
  intros Hl Hb Hactive Hctx Hbus Hmusic src g. subst src g.
  unfold duckingFor, playOneShot. rewrite Hl, Hb, Hctx, Hbus.
  rewrite bool_decide_eq_true_2 by eauto.
  rewrite bool_decide_eq_false_2 by done.
  cbv beta iota zeta delta [createBufferSource createGain]. simpl.
  unfold bind, mutateLayer. simpl. rewrite Hl. simpl.
  destruct (String.eqb layerId "oneshot8"); [|destruct (String.eqb layerId "oneshot5")];
    simpl; unfold duckMusicBus; simpl; rewrite Hmusic; simpl; rewrite Hctx; simpl;
    (eexists; do 6 (split; [reflexivity|]); simpl;
     rewrite !alter_insert_eq, !alter_alter_eq; by split).
Qed.

Lemma sane_buses (w : option nat) (s : AudioMixer) (ctx : AudioContext) :
  sane w s → audioContext s = Some ctx →
  ∃ music bus, musicBus s = Some music ∧ oneshotBus s = Some bus
               ∧ (music < next_handle ctx)%nat ∧ (bus < next_handle ctx)%nat.
Proof.
  intros (_ & Hbuses & _ & Hord & _) Hctx.
  destruct Hbuses as (_ & _ & [music Hmusic] & [bus Hbus]); [by eauto|].
  destruct (Hord ctx Hctx) as [_ Hbelow].
  exists music, bus. split; [done|]. split; [done|]. split; apply Hbelow; auto.
Qed.

(** X14. In a session that starts from a new mixer, [playOneShot] on a
    loaded layer that is not an active oneshot starts one new source: not
    looping, with the layer's buffer, routed at gain 1 to the oneshot bus.
    No source is stopped.  The music bus is ducked to 0.6 within 0.3 s; for
    oneshot5 and oneshot8 it is silenced within 0.5 s and a timer brings it
    back.  The layer becomes an active oneshot, and a second [playOneShot]
    in that state is refused and changes nothing. *)
Theorem playOneShot_starts_one_voice (calls : list call) (layerId : string)
    (l : Layer.t) (b : AudioBuffer) :
  let s := after calls in
  JSMap.get layerId (audioLayers s) = Some l →
  Layer.buffer l = Some b →
  layerId ∉ activeOneshots s →
  let r := playOneShot layerId s in
  let '(target, duration, timers) := duckingFor layerId in
  ∃ ctx ctx' bus music,
    audioContext s = Some ctx ∧ oneshotBus s = Some bus ∧ musicBus s = Some music
    ∧ audioContext (post r) = Some ctx'
    ∧ res r = Returned tt ∧ out r = OneshotPlaying layerId :: timers
    ∧ let src := next_handle ctx in
      let g := S (next_handle ctx) in
      sources ctx' !! src
      = Some {| src_buffer := Some b; src_loop := false; src_out := ToNode g;
                src_started := true; src_stopped := false |}
      ∧ gains ctx' !! g
        = Some {| gain := [SetValue (Fin 1)]; gain_out := ToNode bus |}
      ∧ gains ctx' !! music = ducked target duration <$> gains ctx !! music
      ∧ runningSources (post r) = {[src]} ∪ runningSources s
      ∧ JSMap.get layerId (audioLayers (post r)) = Some (Layer.with_isPlaying true l)
      ∧ layerId ∈ activeOneshots (post r)
      ∧ playOneShot layerId (post r) = emit (OneshotAlreadyPlaying layerId) (post r).
Proof.
  intros s Hl Hb Hactive r.
  pose proof (after_sane calls) as Hs. fold s in Hs.
  destruct (sane_loaded_context None layerId l s Hs Hl) as ([ctx Hctx] & _).
  { by rewrite Hb. }
  destruct (sane_buses None s ctx Hs Hctx) as (music & bus & Hmusic & Hbus & Hlt & _).
  pose proof (playOneShot_plays layerId s l b ctx bus music Hl Hb Hactive Hctx Hbus Hmusic)
    as Hplays.
  simpl in Hplays. fold r in Hplays.
  destruct (duckingFor layerId) as [[target duration] timers].
  destruct Hplays as (ctx' & Hres & Hout & Hctx' & Hlayers & Hact & _ & Hsources & Hgains).
  exists ctx, ctx', bus, music. do 6 (split; [done|]).
  split; [by rewrite Hsources, lookup_insert_eq|].
  split; [rewrite Hgains, lookup_alter_ne by lia; apply lookup_insert_eq|].
  split; [rewrite Hgains, lookup_alter_eq, lookup_insert_ne by lia; done|].
  assert (JSMap.get layerId (audioLayers (post r)) = Some (Layer.with_isPlaying true l))
    as Hl'.
  { rewrite Hlayers. apply JSMap_get_set_eq. }
  assert (layerId ∈ activeOneshots (post r)) as Hin.
  { rewrite Hact. apply elem_of_union. left. by apply elem_of_singleton. }
  split; [|split; [done|split; [done|]]].
  - unfold runningSources. rewrite Hctx, Hctx'.
    apply set_eq. intros h.
    rewrite elem_of_union, elem_of_singleton, !elem_of_runningHandles, Hsources.
    destruct (decide (h = next_handle ctx)) as [->|Hne].
    + rewrite lookup_insert_eq. split; [by left|]. intros _. by eexists.
    + rewrite lookup_insert_ne by done. split; [by right|]. by intros [?|?].
  - apply (playOneShot_refused layerId (post r) _ Hl'); [|done].
    simpl. by rewrite Hb.
Qed.


End OneshotPlayback.

(** ** Buffers *)

Section Buffers.
Context `{Host}.
Context (layerId : string).

Abbreviation staysLoaded :=
  (ensures (λ s, layerLoaded s layerId = true) (λ _, True) (λ _, True)).

Lemma layerLoaded_set (k : string) (l : Layer.t) (s : AudioMixer) :
  layerLoaded (set_audioLayers (JSMap.set k l) s) layerId
  = if decide (layerId = k) then bool_decide (is_Some (Layer.buffer l))
    else layerLoaded s layerId.
Proof. unfold layerLoaded. simpl. rewrite JSMap_get_set. by case_decide. Qed.

Lemma layerLoaded_mutateLayer (k : string) (g : Layer.t → Layer.t) (s : AudioMixer) :
  (∀ l, Layer.buffer (g l) = Layer.buffer l) →
  layerLoaded (mutateLayer k g s) layerId = layerLoaded s layerId.
Proof.
  intros Hg. unfold mutateLayer.
  destruct (JSMap.get k (audioLayers s)) as [l|] eqn:E; [|done].
  rewrite layerLoaded_set. case_decide as Ek; [|done]. subst k.
  unfold layerLoaded. by rewrite E, Hg.
Qed.

(** Assignments that keep the buffers of the layers. *)
Ltac buffers_kept :=
  try exact I;
  try (let Hb := fresh "Hb" in
       intros Hb; try done;
       repeat case_match;
       rewrite ?layerLoaded_mutateLayer by done; exact Hb).

Lemma staysLoaded_loadAudio url k s : staysLoaded s (loadAudio url k s).
Proof.
  unfold loadAudio. walk; buffers_kept.
  intros Hb. rewrite layerLoaded_set. case_decide; [|done].
  by apply bool_decide_eq_true_2.
Qed.

Lemma staysLoaded_ensureLayerLoaded k s : staysLoaded s (ensureLayerLoaded k s).
Proof. unfold ensureLayerLoaded. walk; buffers_kept. apply staysLoaded_loadAudio. Qed.

Lemma staysLoaded_registerLayerDefaults k loop volume url s :
  staysLoaded s (registerLayerDefaults k loop volume url s).
Proof.
  unfold registerLayerDefaults. walk. intros Hb.
  rewrite layerLoaded_set. case_decide as Ek; [|done]. subst k. simpl.
  unfold layerLoaded in Hb. by destruct (JSMap.get layerId (audioLayers s)).
Qed.

Lemma staysLoaded_startPartLayer k s : staysLoaded s (startPartLayer k s).
Proof.
  unfold startPartLayer. walk; buffers_kept.
  intros Hb.
  match goal with
  | |- layerLoaded (set_layerGains ?g ?s') _ = _ =>
      change (layerLoaded s' layerId = true)
  end.
  by rewrite layerLoaded_mutateLayer.
Qed.

Lemma staysLoaded_startPart partId s : staysLoaded s (startPart partId s).
Proof. unfold startPart. walk; buffers_kept. apply staysLoaded_startPartLayer. Qed.

Lemma staysLoaded_playLayer k volume loop s : staysLoaded s (playLayer k volume loop s).
Proof. unfold playLayer. walk; buffers_kept. Qed.

Lemma staysLoaded_stopLayer k s : staysLoaded s (stopLayer k s).
Proof. unfold stopLayer. walk; buffers_kept. Qed.

Lemma staysLoaded_setLayerVolume k volume s : staysLoaded s (setLayerVolume k volume s).
Proof. unfold setLayerVolume. walk; buffers_kept. Qed.

Lemma staysLoaded_fadeLayer k target duration s :
  staysLoaded s (fadeLayer k target duration s).
Proof. unfold fadeLayer. walk; buffers_kept. Qed.

Lemma staysLoaded_duckMusicBus target duration s :
  staysLoaded s (duckMusicBus target duration s).
Proof. unfold duckMusicBus. walk; buffers_kept. Qed.

Lemma staysLoaded_playOneShot k s : staysLoaded s (playOneShot k s).
Proof.
  unfold playOneShot. walk; buffers_kept; try apply staysLoaded_duckMusicBus.
Qed.

Lemma staysLoaded_oneshotStep position zone s : staysLoaded s (oneshotStep position zone s).
Proof. unfold oneshotStep. walk; buffers_kept. Qed.

Lemma staysLoaded_loadAndStartPart partId s : staysLoaded s (loadAndStartPart partId s).
Proof.
  unfold loadAndStartPart. walk; [|apply staysLoaded_startPart].
  apply ensures_promiseAll. intros m s2 Hm.
  apply list_elem_of_fmap in Hm as (k & -> & _).
  apply staysLoaded_ensureLayerLoaded.
Qed.

Lemma staysLoaded_applyFade targets k s : staysLoaded s (applyFade targets k s).
Proof.
  unfold applyFade.
  repeat case_match;
    repeat first
      [ apply ensures_ret | apply staysLoaded_playLayer | apply staysLoaded_fadeLayer
      | apply ensures_emit; exact I
      | apply ensures_bind; [|intros ? ?] ].
Qed.

Lemma staysLoaded_updateLocationAudio position s :
  staysLoaded s (updateLocationAudio position s).
Proof.
  unfold updateLocationAudio. walk.
  - apply staysLoaded_oneshotStep.
  - apply staysLoaded_loadAndStartPart.
  - apply staysLoaded_applyFade.
Qed.

Lemma staysLoaded_stopAll s : staysLoaded s (stopAll s).
Proof. unfold stopAll. walk. apply staysLoaded_stopLayer. Qed.

Lemma staysLoaded_reset s : staysLoaded s (reset s).
Proof.
  unfold reset. walk; buffers_kept; [apply staysLoaded_stopAll|].
  intros Hb. unfold layerLoaded in *. simpl. rewrite JSMap_get_map.
  by destruct (JSMap.get layerId (audioLayers _)).
Qed.

Lemma staysLoaded_perform c s : staysLoaded s (perform c s).
Proof.
  destruct c; simpl.
  - unfold initialize. walk. by intros Hb.
  - apply staysLoaded_loadAudio.
  - apply staysLoaded_ensureLayerLoaded.
  - apply staysLoaded_registerLayerDefaults.
  - unfold registerLayerPart. walk; by intros Hb.
  - apply staysLoaded_startPart.
  - unfold addAudioZone. walk; buffers_kept.
  - apply staysLoaded_playLayer.
  - apply staysLoaded_stopLayer.
  - apply staysLoaded_setLayerVolume.
  - apply staysLoaded_fadeLayer.
  - unfold setMasterVolume. walk. intros Hb. by case_match.
  - apply staysLoaded_updateLocationAudio.
  - apply staysLoaded_playOneShot.
  - unfold progressivePreload. destruct position; walk; buffers_kept.
  - apply staysLoaded_stopAll.
  - apply staysLoaded_reset.
  - destruct t; simpl; walk;
      auto using staysLoaded_ensureLayerLoaded, staysLoaded_playOneShot,
        staysLoaded_stopLayer, staysLoaded_duckMusicBus.
Qed.

(** X16. No call unloads a layer: once a layer has a buffer it has one
    after every further call, re-registration with [registerLayerDefaults],
    [stopAll] and [reset] included. *)
Theorem loaded_layers_stay_loaded (calls : list call) (s : AudioMixer) :
  layerLoaded s layerId = true →
  layerLoaded (post (runSession calls s)) layerId = true.
Proof.
  revert s. induction calls as [|c calls IH]; intros s Hb; simpl; [done|].
  apply IH. by apply (staysLoaded_perform c s).
Qed.
End Buffers.

(** ** What an update plays *)

#[local] Instance audioZones_setting : Setting audioZones.
Proof. by repeat constructor. Qed.




Section Audible.
Context `{Host}.


Context (layerId : string) (active : gset string).

(** What every step of an update keeps: the state is one of a session, the
    layer is loaded, and the active oneshots are the same. *)
Abbreviation staysAudible :=
  (ensures (λ s, (sane None s ∧ layerLoaded s layerId = true)
                 ∧ activeOneshots s = active) (λ _, True) (λ _, True)).








End Audible.

Section Updates.
Context `{Host}.

End Updates.

(** ** The layers an update skips *)

Section Skipped.
Context `{Host}.
Context (layerId : string) (active : gset string).
Hypothesis skipped : String.prefix "oneshot" layerId = true ∨ layerId ∈ active.

(** [m] run from [s] keeps the active oneshots and reports no playback or
    fade of the layer. *)
Abbreviation passesBy :=
  (ensures (λ s, activeOneshots s = active) (λ _, True)
     (λ e, touchesLayer layerId e = false)).











End Skipped.


(** ** Loading *)

Section Loading.
Context `{Host}.


Lemma clamp_Fin (v : Q) :
  ∃ q, num_max (Fin 0) (num_min (Fin 1) (Fin v)) = Fin q ∧ q == Qmax 0 (Qmin 1 v).
Proof.
  unfold num_min. cbn [num_le]. destruct (Qle_bool 1 v) eqn:E1.
  - apply Qle_bool_iff in E1. exists 1. split; [done|].
    rewrite (Q.min_l 1 v) by done. symmetry. by apply Q.max_r.
  - apply (num_le_Fin_false 1 v) in E1. rewrite num_max_Fin.
    eexists. split; [reflexivity|]. rewrite (Q.min_r 1 v) by lra.
    destruct (Qle_bool 0 v) eqn:E0.
    + apply Qle_bool_iff in E0. symmetry. by apply Q.max_r.
    + apply (num_le_Fin_false 0 v) in E0. symmetry. apply Q.max_l. lra.
Qed.

(** X21. A layer keeps what it was registered with and what was loaded for
    it.  After [registerLayerDefaults] with a URL, on an initialized mixer
    where the layer had no buffer, [ensureLayerLoaded] gives the layer the
    buffer decoded from that URL and leaves it idle with the registered loop
    flag (true when omitted) and the registered volume clamped to [0, 1]
    (1 when omitted).  Registering the layer again, without a URL, replaces
    loop flag and volume and keeps buffer and URL. *)
Theorem registered_layer_keeps_settings_and_buffer (layerId url : string)
    (loop : option bool) (volume : option num) (s : AudioMixer)
    (ctx : AudioContext) (b : AudioBuffer) :
  url ≠ "" → audioContext s = Some ctx → fetchAndDecode url = Some b →
  layerLoaded s layerId = false →
  let clamp v := num_max (Fin 0) (num_min (Fin 1) (default (Fin 1) v)) in
  let s1 := post (registerLayerDefaults layerId loop volume (Some url) s) in
  let s2 := post (ensureLayerLoaded layerId s1) in
  JSMap.get layerId (audioLayers s2)
  = Some {| Layer.buffer := Some b; Layer.source := None; Layer.gainNode := None;
            Layer.isPlaying := false; Layer.loop := default true loop;
            Layer.volume := clamp volume; Layer.url := Some url |}
  ∧ (∀ v, volume = Some (Fin v) → clamp volume =n= Fin (Qmax 0 (Qmin 1 v)))
  ∧ (volume = None → clamp volume = Fin 1)
  ∧ ∀ loop' volume',
      JSMap.get layerId
        (audioLayers (post (registerLayerDefaults layerId loop' volume' None s2)))
      = Some {| Layer.buffer := Some b; Layer.source := None; Layer.gainNode := None;
                Layer.isPlaying := false; Layer.loop := default true loop';
                Layer.volume := clamp volume'; Layer.url := Some url |}.
Proof.
  intros Hurl Hctx Hfetch Hloaded clamp s1 s2.
  assert (String.eqb url "" = false) as Heqb by (by apply String.eqb_neq).
  assert (JSMap.get layerId (audioLayers s) ≫= Layer.buffer = None) as Hnone.
  { unfold layerLoaded in Hloaded.
    destruct (JSMap.get layerId (audioLayers s)) as [l|]; [|done]. simpl.
    apply bool_decide_eq_false_1 in Hloaded.
    destruct (Layer.buffer l); [|done]. exfalso. by eauto. }
  assert (JSMap.get layerId (audioLayers s2)
          = Some {| Layer.buffer := Some b; Layer.source := None;
                    Layer.gainNode := None; Layer.isPlaying := false;
                    Layer.loop := default true loop; Layer.volume := clamp volume;
                    Layer.url := Some url |}) as Hl2.
  { subst s2 s1. unfold registerLayerDefaults. cbn [modify post].
    unfold ensureLayerLoaded. cbn [audioLayers set_audioLayers].
    rewrite JSMap_get_set_eq. cbn [Layer.buffer Layer.url str_truthy].
    rewrite Hnone, Heqb.
    rewrite bool_decide_eq_false_2 by (by intros [? [=]]).
    cbn [negb default]. unfold loadAudio.
    cbn [default Layer.url audioContext audioLayers set_audioLayers].
    change (id url) with url.
    change (str_truthy (Some url)) with (negb (String.eqb url "")).
    rewrite Hctx, Hfetch, Heqb. cbn [negb].
    unfold bind. cbn [modify emit res post audioLayers set_audioLayers].
    rewrite !JSMap_get_set_eq. cbn. by rewrite Heqb. }
  split; [done|]. split; [|split; [by intros ->|]].
  - intros v ->.
    change (clamp (Some (Fin v))) with (num_max (Fin 0) (num_min (Fin 1) (Fin v))).
    destruct (clamp_Fin v) as (q & -> & Hq). done.
  - intros loop' volume'. unfold registerLayerDefaults.
    cbn [modify post audioLayers set_audioLayers].
    rewrite JSMap_get_set_eq, Hl2. cbn. by rewrite Heqb.
Qed.

Lemma spawns_run (ls : list string) (s : AudioMixer) :
  forEach (λ layerId, emit (Spawn (BackgroundLoad layerId))) ls s
  = {| res := Returned tt; post := s;
       out := map (λ layerId, Spawn (BackgroundLoad layerId)) ls |}.
Proof.
  induction ls as [|k ls IH]; simpl; [done|]. unfold bind. simpl. by rewrite IH.
Qed.

Lemma preload_run (p : Position) (zones : list Zone.t) (s : AudioMixer) :
  forEach (λ zone,
    if num_le (zoneDistance p zone) (preloadDistance zone) then
      forEach (λ layerId, emit (Spawn (BackgroundLoad layerId)))
        (Zone.audioLayers zone)
    else ret tt) zones s
  = {| res := Returned tt; post := s;
       out := concat (map (preloadRequests p) zones) |}.
Proof.
  induction zones as [|z zones IH]; [done|].
  cbn [forEach map concat]. unfold bind. cbn beta. unfold preloadRequests at 1.
  destruct (num_le (zoneDistance p z) (preloadDistance z)).
  - rewrite spawns_run. cbn [res post out]. by rewrite IH.
  - cbn [ret res post out]. by rewrite IH.
Qed.

(** X22. [progressivePreload] only requests loads: it returns, leaves the
    mixer as it is and, for a position, hands to the event loop one
    background load per layer of every zone whose centre is within the
    preload distance, in the order of the zones.  The preload distance of a
    zone with radius [r] and fade distance [f] is [r + f + 150]: the fade
    distance, which the volume counts inwards from the radius, is counted
    outwards here.  Without a position nothing is requested. *)
Theorem progressivePreload_only_requests_loads (position : option Position)
    (s : AudioMixer) :
  let r := progressivePreload position s in
  res r = Returned tt ∧ post r = s
  ∧ out r = match position with
            | Some p => concat (map (preloadRequests p) (audioZones s))
            | None => []
            end
  ∧ (∀ p z layerId, z ∈ audioZones s → layerId ∈ Zone.audioLayers z →
       num_le (zoneDistance p z) (preloadDistance z) = true →
       Spawn (BackgroundLoad layerId) ∈ out (progressivePreload (Some p) s))
  ∧ (∀ z r f, Zone.radius z = Some (Fin r) → Zone.fadeDistance z = Fin f →
       preloadDistance z =n= Fin (r + f + 150)).
Proof.
  intros r. subst r.
  assert (∀ p, progressivePreload (Some p) s
               = {| res := Returned tt; post := s;
                    out := concat (map (preloadRequests p) (audioZones s)) |}) as Hrun.
  { intros p. unfold progressivePreload, bind. cbn [gets res post out].
    match goal with |- context [forEach ?g (audioZones s) s] =>
      assert (forEach g (audioZones s) s
              = {| res := Returned tt; post := s;
                   out := concat (map (preloadRequests p) (audioZones s)) |}) as ->
        by exact (preload_run p (audioZones s) s)
    end.
    reflexivity. }
  split; [by destruct position as [p|]; rewrite ?Hrun|].
  split; [by destruct position as [p|]; rewrite ?Hrun|].
  split; [by destruct position as [p|]; rewrite ?Hrun|].
  split.
  - intros p z layerId Hz Hlayer Hreach. rewrite Hrun. simpl.
    apply list_elem_of_In, in_concat. exists (preloadRequests p z). split.
    + apply in_map. by apply list_elem_of_In.
    + unfold preloadRequests. rewrite Hreach. apply list_elem_of_In.
      by apply (list_elem_of_fmap_2 (λ k, Spawn (BackgroundLoad k))).
  - intros z r f Hr Hf. unfold preloadDistance. rewrite Hr, Hf. simpl.
    destruct (Qeq_bool r 0) eqn:Er, (Qeq_bool f 0) eqn:Ef; simpl;
      try apply Qeq_bool_iff in Er; try apply Qeq_bool_iff in Ef;
      rewrite ?Er, ?Ef; ring.
Qed.
End Loading.

(** ** Parts start once *)

Lemma partStarts_app (partId : string) (t1 t2 : list event) :
  partStarts partId (t1 ++ t2) = (partStarts partId t1 + partStarts partId t2)%nat.
Proof. induction t1 as [|e t1 IH]; simpl; [done|]. rewrite IH. lia. Qed.

Section Tally.
Context `{Host}.
Context (partId : string).

Lemma tallied_same {A} (s : AudioMixer) (r : Result A) :
  startedParts (post r) = startedParts s → partStarts partId (out r) = 0%nat →
  tallied partId s r.
Proof.
  intros Hsame Hnone. split; [by rewrite Hsame|]. rewrite Hsame, Hnone.
  rewrite bool_decide_eq_false_2; [done|]. tauto.
Qed.

Lemma tallied_ret {A} (a : A) s : tallied partId s (ret a s).
Proof. by apply tallied_same. Qed.

Lemma tallied_throw {A} e s : tallied partId s (@throw A e s).
Proof. by apply tallied_same. Qed.

Lemma tallied_gets {A} (g : AudioMixer → A) s : tallied partId s (gets g s).
Proof. by apply tallied_same. Qed.

Lemma tallied_emit e s : isPartStart partId e = false → tallied partId s (emit e s).
Proof. intros He. apply tallied_same; [done|]. simpl. by rewrite He. Qed.

Lemma tallied_modify g s :
  startedParts (g s) = startedParts s → tallied partId s (modify g s).
Proof. intros Hg. by apply tallied_same. Qed.

Lemma tallied_bind {A B} (m : M A) (k : A → M B) s :
  tallied partId s (m s) → (∀ a s', tallied partId s' (k a s')) →
  tallied partId s (bind m k s).
Proof.
  intros [Hsub Hcount] Hk. unfold bind, tallied.
  destruct (res (m s)) as [a|e]; simpl; [|done].
  destruct (Hk a (post (m s))) as [Hsub' Hcount']. split; [by etrans|].
  rewrite partStarts_app, Hcount, Hcount'. by apply entered_compose.
Qed.

Lemma tallied_forEach {A} (g : A → M unit) (l : list A) s :
  (∀ x s', tallied partId s' (g x s')) → tallied partId s (forEach g l s).
Proof.
  intros Hg. revert s. induction l as [|x l IH]; intros s; simpl.
  - apply tallied_ret.
  - apply tallied_bind; [apply Hg|]. intros _ s'. apply IH.
Qed.

Lemma tallied_promiseAll (ms : list (M unit)) s :
  (∀ m s', m ∈ ms → tallied partId s' (m s')) → tallied partId s (promiseAll ms s).
Proof.
  revert s. induction ms as [|m ms IH]; intros s Hms; simpl.
  - apply tallied_ret.
  - destruct (Hms m s) as [Hsub Hcount]; [left|].
    destruct (IH (post (m s))) as [Hsub' Hcount'].
    { intros m' s' Hm'. apply Hms. by right. }
    split; simpl; [by etrans|].
    rewrite partStarts_app, Hcount, Hcount'. by apply entered_compose.
Qed.

Lemma startedParts_mutateLayer layerId g s :
  startedParts (mutateLayer layerId g s) = startedParts s.
Proof. unfold mutateLayer. by case_match. Qed.

(** Walks through a method that does not start parts. *)
Ltac tally :=
  repeat first
    [ apply tallied_ret
    | apply tallied_throw
    | apply tallied_gets
    | apply tallied_emit; reflexivity
    | apply tallied_modify; unfold mutateLayer; repeat case_match; reflexivity
    | apply tallied_bind; [|intros ? ?]
    | apply tallied_forEach; intros ? ?
    | progress cbv beta iota zeta delta [createBufferSource createGain]
    | case_match ].

Lemma tallied_initialize s : tallied partId s (initialize s).
Proof. unfold initialize. tally. Qed.

Lemma tallied_loadAudio url layerId s : tallied partId s (loadAudio url layerId s).
Proof. unfold loadAudio. tally. Qed.

Lemma tallied_ensureLayerLoaded layerId s : tallied partId s (ensureLayerLoaded layerId s).
Proof. unfold ensureLayerLoaded. tally; apply tallied_loadAudio. Qed.

Lemma tallied_registerLayerDefaults layerId loop volume url s :
  tallied partId s (registerLayerDefaults layerId loop volume url s).
Proof. unfold registerLayerDefaults. tally. Qed.

Lemma tallied_registerLayerPart layerId part s :
  tallied partId s (registerLayerPart layerId part s).
Proof. unfold registerLayerPart. tally. Qed.

Lemma tallied_startPartLayer layerId s : tallied partId s (startPartLayer layerId s).
Proof. unfold startPartLayer. tally. Qed.

Lemma startLayers_started (ls : list string) (s : AudioMixer) :
  startedParts (post (forEach startPartLayer ls s)) = startedParts s.
Proof.
  destruct (ensures_forEach (λ s', startedParts s' = startedParts s)
              (λ _, True) (λ _, True) startPartLayer ls s) as (E & _); [|done|done].
  intros x s'. unfold startPartLayer. walk; try exact I; try done.
  intros <-. unfold mutateLayer. by case_match.
Qed.

(** [startPart] reports the start of the part it marks as started, and of
    no other. *)
Lemma tallied_startPart part s : tallied partId s (startPart part s).
Proof.
  unfold startPart.
  destruct (String.eqb part ""); [by apply tallied_emit|].
  destruct (bool_decide (part ∈ startedParts s)) eqn:Estarted; [by apply tallied_emit|].
  apply bool_decide_eq_false_1 in Estarted.
  destruct (partToLayers s !! part) as [layerSet|]; [|by apply tallied_emit].
  destruct (Nat.eqb (JSSet.size layerSet) 0); [by apply tallied_emit|].
  destruct (negb _); [by apply tallied_emit|].
  pose proof (startLayers_started layerSet s) as Hsame.
  pose proof (startLayers_silent layerSet s) as Hsilent.
  unfold bind. destruct (res (forEach startPartLayer layerSet s)); simpl.
  - unfold tallied. simpl. rewrite Hsilent, Hsame. simpl.
    split; [apply union_subseteq_r|].
    destruct (String.eqb part partId) eqn:Epart.
    + apply String.eqb_eq in Epart. subst part.
      rewrite bool_decide_eq_true_2; [done|]. split; [|done].
      apply elem_of_union. left. by apply elem_of_singleton.
    + apply String.eqb_neq in Epart.
      rewrite bool_decide_eq_false_2; [done|]. intros [Hin Hnot].
      apply elem_of_union in Hin as [Hin|Hin]; [|done].
      apply elem_of_singleton in Hin. congruence.
  - apply tallied_same; [done|]. by rewrite Hsilent.
Qed.

Lemma tallied_addAudioZone config s : tallied partId s (addAudioZone config s).
Proof. unfold addAudioZone. tally. Qed.

Lemma tallied_playLayer layerId volume loop s :
  tallied partId s (playLayer layerId volume loop s).
Proof. unfold playLayer. tally. Qed.

Lemma tallied_stopLayer layerId s : tallied partId s (stopLayer layerId s).
Proof. unfold stopLayer. tally. Qed.

Lemma tallied_setLayerVolume layerId volume s :
  tallied partId s (setLayerVolume layerId volume s).
Proof. unfold setLayerVolume. tally. Qed.

Lemma tallied_fadeLayer layerId target duration s :
  tallied partId s (fadeLayer layerId target duration s).
Proof. unfold fadeLayer. tally. Qed.

Lemma tallied_setMasterVolume volume s : tallied partId s (setMasterVolume volume s).
Proof. unfold setMasterVolume. tally. Qed.

Lemma tallied_duckMusicBus target duration s :
  tallied partId s (duckMusicBus target duration s).
Proof. unfold duckMusicBus. tally. Qed.

Lemma tallied_playOneShot layerId s : tallied partId s (playOneShot layerId s).
Proof. unfold playOneShot. tally; apply tallied_duckMusicBus. Qed.

Lemma tallied_progressivePreload position s :
  tallied partId s (progressivePreload position s).
Proof. unfold progressivePreload. tally. Qed.

Lemma tallied_oneshotStep position zone s :
  tallied partId s (oneshotStep position zone s).
Proof. unfold oneshotStep. tally. Qed.

Lemma tallied_loadAndStartPart part s : tallied partId s (loadAndStartPart part s).
Proof.
  unfold loadAndStartPart.
  apply tallied_bind; [apply tallied_gets|]. intros layerSet s1.
  apply tallied_bind; [|intros _ s2; apply tallied_startPart].
  destruct layerSet as [layerSet|]; [|apply tallied_ret].
  apply tallied_promiseAll. intros m s2 Hm.
  apply list_elem_of_fmap in Hm as (layerId & -> & _).
  apply tallied_ensureLayerLoaded.
Qed.

Lemma tallied_applyFade targets layerId s :
  tallied partId s (applyFade targets layerId s).
Proof.
  unfold applyFade.
  repeat case_match;
    repeat first
      [ apply tallied_ret | apply tallied_playLayer | apply tallied_fadeLayer
      | apply tallied_emit; reflexivity
      | apply tallied_bind; [|intros ? ?] ].
Qed.

Lemma tallied_updateLocationAudio position s :
  tallied partId s (updateLocationAudio position s).
Proof.
  unfold updateLocationAudio.
  destruct position as [p|]; [|apply tallied_ret].
  destruct (negb (isReady s)); [apply tallied_ret|].
  apply tallied_bind.
  { apply tallied_forEach. intros z s'. apply tallied_oneshotStep. }
  intros _ s1. apply tallied_bind; [apply tallied_gets|]. intros targets s2.
  apply tallied_bind; [apply tallied_gets|]. intros parts s3.
  apply tallied_bind.
  { apply tallied_forEach. intros part s'. apply tallied_loadAndStartPart. }
  intros _ s4. apply tallied_bind; [apply tallied_gets|]. intros ids s5.
  apply tallied_forEach. intros layerId s'. apply tallied_applyFade.
Qed.

Lemma tallied_stopAll s : tallied partId s (stopAll s).
Proof. unfold stopAll. tally. apply tallied_stopLayer. Qed.

Lemma tallied_runTask t s : tallied partId s (runTask t s).
Proof.
  destruct t; simpl.
  - apply tallied_bind; [apply tallied_ensureLayerLoaded|].
    intros _ s'. apply tallied_playOneShot.
  - apply tallied_ensureLayerLoaded.
  - apply tallied_stopLayer.
  - apply tallied_duckMusicBus.
Qed.

Lemma tallied_perform c s : isResetCall c = false → tallied partId s (perform c s).
Proof.
  destruct c; simpl; try discriminate; intros _;
    auto using tallied_initialize, tallied_loadAudio, tallied_ensureLayerLoaded,
      tallied_registerLayerDefaults, tallied_registerLayerPart, tallied_startPart,
      tallied_addAudioZone, tallied_playLayer, tallied_stopLayer,
      tallied_setLayerVolume, tallied_fadeLayer, tallied_setMasterVolume,
      tallied_updateLocationAudio, tallied_playOneShot, tallied_progressivePreload,
      tallied_stopAll, tallied_runTask.
Qed.

(** X23. A part starts at most once per walk.  In a session without
    [reset()], from any state, the set of started parts only grows, and the
    start of a part is reported exactly once if the part became started in
    the session and not at all otherwise: neither repeated updates nor
    repeated calls of [startPart] start a part twice. *)
Theorem parts_start_at_most_once (calls : list call) (s : AudioMixer) :
  Forall (λ c, isResetCall c = false) calls →
  let r := runSession calls s in
  startedParts s ⊆ startedParts (post r)
  ∧ partStarts partId (out r)
    = (if bool_decide (partId ∈ startedParts (post r) ∧ partId ∉ startedParts s)
       then 1%nat else 0%nat)
  ∧ (partStarts partId (out r) ≤ 1)%nat.
Proof.
  intros Hcalls r. subst r.
  assert (tallied partId s (runSession calls s)) as [Hsub Hcount].
  { revert s. induction Hcalls as [|c calls Hc _ IH]; intros s; simpl.
    - by apply tallied_same.
    - destruct (tallied_perform c s Hc) as [Hsub Hcount].
      destruct (IH (post (perform c s))) as [Hsub' Hcount'].
      split; simpl; [by etrans|].
      rewrite partStarts_app, Hcount, Hcount'. by apply entered_compose. }
  split; [done|]. split; [done|]. rewrite Hcount. case_bool_decide; lia.
Qed.
End Tally.

(** ** Pausing the walk *)

Section Pausing.
Context `{Host}.

(** [s] is [s0] after some of its layers other than oneshot layers were
    faded. *)
Abbreviation fadedFrom s0 s :=
  ((playedOneshots s, startedParts s, activeOneshots s)
   = (playedOneshots s0, startedParts s0, activeOneshots s0)
   ∧ (∀ k, Layer.isPlaying <$> JSMap.get k (audioLayers s)
           = Layer.isPlaying <$> JSMap.get k (audioLayers s0))
   ∧ (∀ k, String.prefix "oneshot" k = true →
           JSMap.get k (audioLayers s) = JSMap.get k (audioLayers s0))).

Abbreviation stopsMusic t :=
  (∃ k, t = StopLayerTask k ∧ String.prefix "oneshot" k = false).

Lemma pauseLayer_spec (k : string) (s0 s : AudioMixer) :
  fadedFrom s0 s →
  let r := pauseLayer k s in
  res r = Returned tt
  ∧ fadedFrom s0 (post r)
  ∧ Forall (λ t, stopsMusic t) (timerTasks (out r))
  ∧ (∀ l, JSMap.get k (audioLayers s0) = Some l → Layer.isPlaying l = true →
          String.prefix "oneshot" k = false →
          StopLayerTask k ∈ timerTasks (out r)).
Proof.
  intros (Hrest & Hplay & Hshots). unfold pauseLayer.
  pose proof (Hplay k) as Hk.
  destruct (JSMap.get k (audioLayers s)) as [l|] eqn:El; cycle 1.
  { simpl. split; [done|]. split; [done|]. split; [constructor|].
    intros l0 E0. rewrite E0 in Hk. done. }
  destruct (Layer.isPlaying l) eqn:Eplay; simpl; cycle 1.
  { split; [done|]. split; [done|]. split; [constructor|].
    intros l0 E0 Ep. rewrite E0 in Hk. simpl in Hk. congruence. }
  destruct (String.prefix "oneshot" k) eqn:Epre; simpl.
  { split; [done|]. split; [done|]. split; [constructor|]. done. }
  unfold fadeLayer, bind. cbv beta zeta. rewrite El.
  destruct (match Layer.gainNode l with
            | Some g => Some g
            | None => layerGains s !! k
            end) as [g|]; simpl.
  - unfold mutateLayer. simpl. rewrite El. simpl.
    split; [done|]. split; [|split].
    + split; [done|]. split.
      * intros k'. rewrite JSMap_get_set. case_decide as E; [|apply Hplay].
        subst k'. rewrite <- Hplay, El. simpl. done.
      * intros k' Hk'. rewrite JSMap_get_set. case_decide as E; [|by apply Hshots].
        congruence.
    + repeat constructor. by exists k.
    + intros _ _ _ _. by apply list_elem_of_singleton.
  - split; [done|]. split; [done|]. split.
    + repeat constructor. by exists k.
    + intros _ _ _ _. by apply list_elem_of_singleton.
Qed.

Lemma timerTasks_app (t1 t2 : list event) :
  timerTasks (t1 ++ t2) = timerTasks t1 ++ timerTasks t2.
Proof. apply omap_app. Qed.

Lemma pauseLayers_spec (ks : list string) (s0 s : AudioMixer) :
  fadedFrom s0 s →
  let r := forEach pauseLayer ks s in
  res r = Returned tt
  ∧ fadedFrom s0 (post r)
  ∧ Forall (λ t, stopsMusic t) (timerTasks (out r))
  ∧ (∀ k l, k ∈ ks → JSMap.get k (audioLayers s0) = Some l →
            Layer.isPlaying l = true → String.prefix "oneshot" k = false →
            StopLayerTask k ∈ timerTasks (out r)).
Proof.
  revert s. induction ks as [|k ks IH]; intros s Hs; simpl.
  { split; [done|]. split; [done|]. split; [constructor|].
    intros k l Hin. by apply elem_of_nil in Hin. }
  destruct (pauseLayer_spec k s0 s Hs) as (Hres & Hs1 & Hts & Hin).
  destruct (IH _ Hs1) as (Hres' & Hs2 & Hts' & Hin').
  unfold bind. rewrite Hres. simpl. rewrite timerTasks_app.
  split; [done|]. split; [done|]. split; [by apply Forall_app|].
  intros k' l [->|Hk']%elem_of_cons Hl Hplay Hpre; apply elem_of_app.
  - left. by apply (Hin l).
  - right. by apply (Hin' k' l).
Qed.

Lemma stopLayer_other (k layerId : string) (s : AudioMixer) :
  k ≠ layerId →
  JSMap.get layerId (audioLayers (post (stopLayer k s)))
  = JSMap.get layerId (audioLayers s).
Proof.
  intros Hne. destruct (JSMap.get k (audioLayers s)) as [l|] eqn:El; cycle 1.
  { rewrite stopLayer_idle; [done|]. intros ?. by rewrite El. }
  destruct (Layer.isPlaying l) eqn:Eplay; cycle 1.
  { rewrite stopLayer_idle; [done|]. intros ?. rewrite El. by intros [= <-]. }
  rewrite (stopLayer_playing k s l El Eplay). simpl.
  destruct (Layer.source l); simpl; by rewrite JSMap_get_set_ne.
Qed.

Lemma stopLayer_stops (k : string) (s : AudioMixer) (l : Layer.t) :
  JSMap.get k (audioLayers (post (stopLayer k s))) = Some l →
  Layer.isPlaying l = false.
Proof.
  destruct (JSMap.get k (audioLayers s)) as [l1|] eqn:E1; cycle 1.
  { rewrite stopLayer_idle; [simpl; by rewrite E1|]. intros ?. by rewrite E1. }
  destruct (Layer.isPlaying l1) eqn:Eplay; cycle 1.
  { rewrite stopLayer_idle; [simpl; rewrite E1; by intros [= <-]|].
    intros ?. rewrite E1. by intros [= <-]. }
  rewrite (stopLayer_playing k s l1 E1 Eplay). simpl.
  destruct (Layer.source l1); simpl; rewrite JSMap_get_set_eq; by intros [= <-].
Qed.

(** The timers of a pause, run one after the other. *)
Lemma timers_stop (ts : list task) :
  Forall (λ t, stopsMusic t) ts →
  ∀ s, let r := forEach runTask ts s in
  res r = Returned tt
  ∧ (∀ s0, quieter s0 s → quieter s0 (post r))
  ∧ (∀ k, String.prefix "oneshot" k = true →
          JSMap.get k (audioLayers (post r)) = JSMap.get k (audioLayers s))
  ∧ (∀ k l, StopLayerTask k ∈ ts →
            JSMap.get k (audioLayers (post r)) = Some l →
            Layer.isPlaying l = false).
Proof.
  induction 1 as [|t ts (k & -> & Hpre) _ IH]; intros s; simpl.
  { split; [done|]. split; [done|]. split; [done|].
    intros k l Hin. by apply elem_of_nil in Hin. }
  destruct (IH (post (stopLayer k s))) as (Hres & Hq & Hshots & Hidle).
  unfold bind. rewrite stopLayer_returns. simpl.
  split; [done|]. split; [|split].
  - intros s0 Hs0. by apply Hq, quieter_stopLayer.
  - intros k' Hk'. rewrite Hshots by done. apply stopLayer_other. congruence.
  - intros k' l [[= ->]|Hin]%elem_of_cons Hl; [|by apply (Hidle k' l)].
    apply (quieter_stays_idle (post (stopLayer k s)) _ k l
             (Hq _ (quieter_refl _)) Hl).
    apply stopLayer_stops.
Qed.

(** X24. Pausing a walk that is under way sets the paused flag, and once the
    timers it has set have run no layer other than a oneshot layer is
    playing; the oneshot layers are as they were, and so are the oneshots
    and parts remembered as played and started.  Pausing again does
    nothing. *)
Theorem pause_silences_music_and_keeps_history (app : WalkApp)
    (s : AudioMixer) :
  isWalking app = true → isPaused app = false →
  let r := pauseWalk app s in
  let r' := forEach runTask (timerTasks (out r)) (post r) in
  res r = Returned {| isWalking := true; isPaused := true |}
  ∧ res r' = Returned tt
  ∧ (∀ layerId l, JSMap.get layerId (audioLayers (post r')) = Some l →
                  Layer.isPlaying l = true →
                  String.prefix "oneshot" layerId = true)
  ∧ (∀ layerId, String.prefix "oneshot" layerId = true →
                JSMap.get layerId (audioLayers (post r'))
                = JSMap.get layerId (audioLayers s))
  ∧ playedOneshots (post r') = playedOneshots s
  ∧ startedParts (post r') = startedParts s
  ∧ pauseWalk {| isWalking := true; isPaused := true |} (post r')
    = ret {| isWalking := true; isPaused := true |} (post r').
Proof.
  intros Hwalk Hpaused.
  assert (fadedFrom s s) as Hs by done.
  destruct (pauseLayers_spec (JSMap.keys (audioLayers s)) s s Hs)
    as (Hres & (Hrest & Hplay & Hshots) & Hts & Hin).
  assert (pauseWalk app s
          = {| res := Returned {| isWalking := true; isPaused := true |};
               post := post (forEach pauseLayer (JSMap.keys (audioLayers s)) s);
               out := out (forEach pauseLayer (JSMap.keys (audioLayers s)) s) |})
    as ->.
  { unfold pauseWalk. rewrite Hwalk, Hpaused. simpl.
    unfold bind at 1. simpl. unfold bind. rewrite Hres. simpl.
    by rewrite app_nil_r. }
  simpl.
  destruct (timers_stop _ Hts (post (forEach pauseLayer (JSMap.keys (audioLayers s)) s)))
    as (Hres' & Hq & Hshots' & Hidle).
  destruct (Hq _ (quieter_refl _)) as (Hbesides & _).
  split; [done|]. split; [done|]. split; [|split; [|split; [|split]]].
  - intros layerId l Hl Hp.
    destruct (String.prefix "oneshot" layerId) eqn:Hpre; [done|].
    destruct (JSMap.get layerId (audioLayers s)) as [l0|] eqn:El0.
    + destruct (Layer.isPlaying l0) eqn:Ep0.
      * assert (layerId ∈ JSMap.keys (audioLayers s)) as Hkey
          by (apply JSMap_get_keys; by rewrite El0).
        rewrite (Hidle layerId l (Hin layerId l0 Hkey El0 Ep0 Hpre) Hl) in Hp. done.
      * rewrite (quieter_stays_idle _ _ layerId l (Hq _ (quieter_refl _)) Hl) in Hp;
          [done|].
        intros l1 Hl1. pose proof (Hplay layerId) as E.
        rewrite Hl1, El0 in E. simpl in E. congruence.
    + rewrite (quieter_stays_idle _ _ layerId l (Hq _ (quieter_refl _)) Hl) in Hp;
        [done|].
      intros l1 Hl1. pose proof (Hplay layerId) as E.
      rewrite Hl1, El0 in E. done.
  - intros layerId Hpre. rewrite Hshots' by done. by apply Hshots.
  - unfold besidesPlayback in Hbesides. congruence.
  - unfold besidesPlayback in Hbesides. congruence.
  - done.
Qed.
End Pausing.

(** ** The zone debug map *)

Lemma num_or_positive (d : num) (x : Q) :
  0 < x → num_or (Some (Fin x)) d = Fin x.
Proof.
  intros Hx. unfold num_or, num_truthy.
  destruct (Qeq_bool x 0) eqn:E; [|done].
  apply Qeq_bool_iff in E. lra.
Qed.

(** X25. For a named feature with positive radius and fade distance the
    debug map draws a solid circle of the radius and a dashed one of the
    radius plus the fade distance around the same point.  The mixer fades a
    zone of that radius and fade distance inside the solid circle: beyond
    the radius, so everywhere between the two circles, the zone contributes
    nothing, and the ramp lies in the last [f] metres before the radius. *)
Theorem debug_map_outer_circle_is_silent (props : DebugMap.Props)
    (coords : num * num) (m : DebugMap.t) (name : string) (r f mv : Q)
    (z : Zone.t) :
  DebugMap.Name props = Some name →
  DebugMap.radius_m props = Some (Fin r) →
  DebugMap.fadeDistance props = Some (Fin f) →
  0 < r → 0 < f →
  Zone.radius z = Some (Fin r) → Zone.fadeDistance z = Fin f →
  Zone.maxVolume z = Fin mv →
  ∃ marker inner outer,
    DebugMap.addZoneMarker props coords m
    = Some {| DebugMap.zoneMarkers := DebugMap.zoneMarkers m ++ [marker];
              DebugMap.zoneCircles := DebugMap.zoneCircles m ++ [inner; outer] |}
    ∧ DebugMap.markerAt marker = {| lat := coords.2; lng := coords.1 |}
    ∧ DebugMap.circleAt inner = DebugMap.markerAt marker
    ∧ DebugMap.circleAt outer = DebugMap.markerAt marker
    ∧ DebugMap.circleRadius inner = Fin r
    ∧ DebugMap.circleDashArray inner = None
    ∧ DebugMap.circleRadius outer = Fin (r + f)
    ∧ DebugMap.circleDashArray outer = Some "5, 5"
    ∧ (∀ d, r < d → zoneVolume (Fin d) z = Fin 0)
    ∧ (∀ d, 0 < d → r - f < d → d <= r →
            zoneVolume (Fin d) z = Fin (mv * ((r - d) / f))).
Proof.
  intros Hname Hr Hf Hr0 Hf0 Hzr Hzf Hzm.
  unfold DebugMap.addZoneMarker. rewrite Hname, Hr, Hf.
  rewrite !num_or_positive by done.
  eexists _, _, _. split; [reflexivity|]. simpl.
  do 7 (split; [done|]). split.
  - intros d Hd. by apply (zoneVolume_outside z r d).
  - intros d Hd0 Hdf Hdr. apply (zoneVolume_ramp z r f mv d); [done..|].
    destruct (Q.max_spec 0 (r - f)) as [[_ ->]|[_ ->]]; lra.
Qed.



(** ** The theorems at work on the scenarios *)

(** X2 on the part with a busy member: layer A is playing. *)
Lemma playing_layers_are_loaded_witness :
  let s := @after lineHost partWithBusyMember in
  ∃ l, JSMap.get "A" (audioLayers s) = Some l ∧ Layer.isPlaying l = true
       ∧ is_Some (Layer.buffer l) ∧ isReady s = true.
Proof.
  intros s.
  assert (∃ l, JSMap.get "A" (audioLayers s) = Some l ∧ Layer.isPlaying l = true)
    as (l & Hl & Hplay) by (eexists; split; by_evaluation).
  exists l. refine (conj Hl (conj Hplay _)).
  exact (@playing_layers_are_loaded lineHost partWithBusyMember "A" l Hl Hplay).
Defined.

(** X5 on a new mixer: layer A joins part P. *)
Lemma registerLayerPart_only_adds_witness :
  let s' := post (registerLayerPart "A" "P" constructor) in
  ("A" ≠ "" ∧ "P" ≠ "")
  ∧ layerToPart s' !! "A" = Some "P"
  ∧ post (registerLayerPart "A" "P" s') = s'.
Proof.
  intros s'.
  assert ("A" ≠ "") as HA by done.
  assert ("P" ≠ "") as HP by done.
  destruct (registerLayerPart_only_adds "A" "P" constructor HA HP)
    as (Hpart & _ & _ & _ & Hagain).
  exact (conj (conj HA HP) (conj Hpart Hagain)).
Defined.

(** X7 for the zone of the stems: 85 m and 95 m from the centre. *)
Lemma zone_volume_falls_with_distance_witness :
  let z := zoneOf (musicZone "stems" 100 20 1 ["A"; "B"]) in
  (Zone.radius z = Some (Fin 100) ∧ Zone.fadeDistance z = Fin 20
   ∧ Zone.maxVolume z = Fin 1 ∧ 0 <= 1 ∧ 85 <= 95)
  ∧ ∃ v1 v2, zoneVolume (Fin 85) z = Fin v1 ∧ zoneVolume (Fin 95) z = Fin v2
             ∧ 0 <= v2 ∧ v2 <= v1 ∧ v1 <= 1.
Proof.
  intros z.
  assert (0 <= 1) as Hm by lra.
  assert (85 <= 95) as Hd by lra.
  exact (conj (conj eq_refl (conj eq_refl (conj eq_refl (conj Hm Hd))))
           (zone_volume_falls_with_distance z 100 20 1 85 95
              eq_refl eq_refl eq_refl Hm Hd)).
Defined.

(** X8 for the zone of the stems, 90 m from the centre. *)
Lemma zone_volume_is_a_clamped_ramp_witness :
  let z := zoneOf (musicZone "stems" 100 20 1 ["A"; "B"]) in
  (Zone.radius z = Some (Fin 100) ∧ Zone.fadeDistance z = Fin 20
   ∧ Zone.maxVolume z = Fin 1 ∧ 0 < 20 ∧ 20 <= 100)
  ∧ zoneVolume (Fin 90) z =n= Fin (1 * Qmin 1 (Qmax 0 ((100 - 90) / 20))).
Proof.
  intros z.
  assert (0 < 20) as Hf by lra.
  assert (20 <= 100) as Hr by lra.
  exact (conj (conj eq_refl (conj eq_refl (conj eq_refl (conj Hf Hr))))
           (zone_volume_is_a_clamped_ramp z 100 20 1 90
              eq_refl eq_refl eq_refl Hf Hr)).
Defined.

(** X9 for a zone of radius 10 with a fade distance of 50. *)
Lemma zone_volume_jumps_at_the_centre_witness :
  let z := zoneOf (musicZone "near" 10 50 1 ["A"]) in
  (Zone.radius z = Some (Fin 10) ∧ Zone.fadeDistance z = Fin 50
   ∧ Zone.maxVolume z = Fin 1 ∧ 0 < 10 ∧ 10 < 50 ∧ 0 < 1)
  ∧ zoneVolume (Fin 0) z = Fin 1
  ∧ 1 * (10 / 50) < 1.
Proof.
  intros z.
  assert (0 < 10) as Hr by lra.
  assert (10 < 50) as Hf by lra.
  assert (0 < 1) as Hm by lra.
  destruct (zone_volume_jumps_at_the_centre z 10 50 1
              eq_refl eq_refl eq_refl Hr Hf Hm) as (Hcentre & Hjump & _).
  exact (conj (conj eq_refl (conj eq_refl (conj eq_refl (conj Hr (conj Hf Hm)))))
           (conj Hcentre Hjump)).
Defined.

(** X10 for oneshot 1, 5 m from its centre. *)
Lemma oneshot_fires_within_trigger_radius_witness :
  let z := zoneOf (oneshotZone "oneshot_1" 0 10 ["oneshot1"]) in
  let s := @after lineHost twoOneshots in
  (finiteOrAbsent (Zone.radius z) ∧ Zone.isOneshot z = true
   ∧ @zoneDistance lineHost (at_metre 5) z = Fin 5
   ∧ playedOneshots s = ∅ ∧ Zone.id z ≠ "oneshot_finale")
  ∧ ∃ t, triggerRadius z = Fin t ∧ 1 <= t
         ∧ (OneshotTriggered (Zone.id z) ∈ out (@oneshotStep lineHost (at_metre 5) z s)
            ↔ 5 <= t).
Proof.
  intros z s.
  assert (finiteOrAbsent (Zone.radius z)) as Hfinite by (vm_compute; done).
  assert (@zoneDistance lineHost (at_metre 5) z = Fin 5) as Hd by by_evaluation.
  assert (playedOneshots s = ∅) as Hplayed by by_evaluation.
  assert (Zone.id z ≠ "oneshot_finale") as Hid by by_evaluation.
  destruct (@oneshot_fires_within_trigger_radius lineHost z (at_metre 5) s 5
              Hfinite eq_refl Hd Hplayed Hid) as (t & Ht & Ht1 & _ & _ & Hfires).
  refine (conj (conj Hfinite (conj eq_refl (conj Hd (conj Hplayed Hid)))) _).
  exists t. exact (conj Ht (conj Ht1 Hfires)).
Defined.

(** X11 on the part with a busy member: layer A is played again. *)
Lemma playLayer_replaces_the_source_witness :
  let s := @after lineHost partWithBusyMember in
  let r := playLayer "A" (Fin 0.5) true s in
  ∃ l b ctx,
    (JSMap.get "A" (audioLayers s) = Some l ∧ Layer.buffer l = Some b)
    ∧ audioContext s = Some ctx
    ∧ res r = Returned tt
    ∧ JSMap.get "A" (audioLayers (post r))
      = Some (Layer.with_playback (Some (next_handle ctx))
                (Some (S (next_handle ctx))) true l).
Proof.
  intros s r.
  assert (∃ l b, JSMap.get "A" (audioLayers s) = Some l ∧ Layer.buffer l = Some b)
    as (l & b & Hl & Hb) by (eexists _, _; split; by_evaluation).
  destruct (@playLayer_replaces_the_source lineHost partWithBusyMember "A"
              (Fin 0.5) true l b Hl Hb)
    as (ctx & ctx' & bus & Hctx & _ & _ & Hres & Hlayer & _).
  exists l, b, ctx. exact (conj (conj Hl Hb) (conj Hctx (conj Hres Hlayer))).
Defined.

(** X14 for one loaded oneshot layer on an initialized mixer. *)
Lemma playOneShot_starts_one_voice_witness :
  let calls := [Initialize;
                RegisterLayerDefaults "oneshot1" (Some false) None (Some "o1.mp3");
                LoadAudio "o1.mp3" "oneshot1"] in
  let s := @after lineHost calls in
  let r := playOneShot "oneshot1" s in
  ∃ l b,
    (JSMap.get "oneshot1" (audioLayers s) = Some l ∧ Layer.buffer l = Some b
     ∧ "oneshot1" ∉ activeOneshots s)
    ∧ res r = Returned tt
    ∧ "oneshot1" ∈ activeOneshots (post r).
Proof.
  intros calls s r.
  assert (∃ l b, JSMap.get "oneshot1" (audioLayers s) = Some l
                 ∧ Layer.buffer l = Some b)
    as (l & b & Hl & Hb) by (eexists _, _; split; by_evaluation).
  assert ("oneshot1" ∉ activeOneshots s) as Hidle by by_evaluation.
  pose proof (@playOneShot_starts_one_voice lineHost calls "oneshot1" l b Hl Hb Hidle)
    as Hvoice.
  cbv zeta in Hvoice. destruct (duckingFor "oneshot1") as [[target duration] timers].
  destruct Hvoice as (ctx & ctx' & bus & music & _ & _ & _ & _ & Hres & _ & Hrest).
  destruct Hrest as (_ & _ & _ & _ & _ & Hactive & _).
  exists l, b. exact (conj (conj Hl (conj Hb Hidle)) (conj Hres Hactive)).
Defined.


(** X16 on the part with a busy member: layer A through a reset. *)
Lemma loaded_layers_stay_loaded_witness :
  let s := @after lineHost partWithBusyMember in
  let calls := [StopAll; Reset; UpdateLocationAudio None] in
  layerLoaded s "A" = true
  ∧ layerLoaded (post (@runSession lineHost calls s)) "A" = true.
Proof.
  intros s calls.
  assert (layerLoaded s "A" = true) as Hloaded by by_evaluation.
  exact (conj Hloaded (@loaded_layers_stay_loaded lineHost "A" calls s Hloaded)).
Defined.



(** X19 for oneshot 1, which has fired before the reset. *)
Lemma reset_lets_zones_fire_again_witness :
  let s := @after lineHost (twoOneshots ++ [UpdateLocationAudio (Some (at_metre 0))]) in
  let z := zoneOf (oneshotZone "oneshot_1" 0 10 ["oneshot1"]) in
  let r := @updateLocationAudio lineHost (Some (at_metre 0)) (post (reset s)) in
  (isReady s = true ∧ z ∈ audioZones s ∧ Zone.isOneshot z = true
   ∧ num_le (@zoneDistance lineHost (at_metre 0) z) (triggerRadius z) = true
   ∧ Zone.id z ≠ "oneshot_finale" ∧ "oneshot_1" ∈ playedOneshots s)
  ∧ (fireCount (Zone.id z) (out r) = 1%nat
     ∨ fireCount "oneshot_finale" (out r) = 1%nat).
Proof.
  intros s z r.
  assert (isReady s = true) as Hready by by_evaluation.
  assert (z ∈ audioZones s) as Hz by by_evaluation.
  assert (num_le (@zoneDistance lineHost (at_metre 0) z) (triggerRadius z) = true)
    as Hrange by by_evaluation.
  assert (Zone.id z ≠ "oneshot_finale") as Hid by by_evaluation.
  assert ("oneshot_1" ∈ playedOneshots s) as Hplayed by by_evaluation.
  exact (conj (conj Hready (conj Hz (conj eq_refl (conj Hrange (conj Hid Hplayed)))))
           (@reset_lets_zones_fire_again lineHost s (at_metre 0) z
              Hready Hz eq_refl Hrange Hid)).
Defined.

(** X21 for a layer registered with volume 2 and without looping. *)
Lemma registered_layer_keeps_settings_and_buffer_witness :
  let s := @after lineHost [Initialize] in
  let b := {| decodedFrom := "a.mp3" |} in
  let s1 := post (registerLayerDefaults "A" (Some false) (Some (Fin 2)) (Some "a.mp3") s) in
  let s2 := post (@ensureLayerLoaded lineHost "A" s1) in
  ("a.mp3" ≠ "" ∧ is_Some (audioContext s)
   ∧ @fetchAndDecode lineHost "a.mp3" = Some b ∧ layerLoaded s "A" = false)
  ∧ JSMap.get "A" (audioLayers s2)
    = Some {| Layer.buffer := Some b; Layer.source := None; Layer.gainNode := None;
              Layer.isPlaying := false; Layer.loop := false;
              Layer.volume := num_max (Fin 0) (num_min (Fin 1) (Fin 2));
              Layer.url := Some "a.mp3" |}.
Proof.
  intros s b s1 s2.
  assert ("a.mp3" ≠ "") as Hurl by done.
  assert (∃ ctx, audioContext s = Some ctx) as (ctx & Hctx)
    by (eexists; by_evaluation).
  assert (@fetchAndDecode lineHost "a.mp3" = Some b) as Hfetch by by_evaluation.
  assert (layerLoaded s "A" = false) as Hnew by by_evaluation.
  refine (conj (conj Hurl (conj (ex_intro _ ctx Hctx) (conj Hfetch Hnew))) _).
  exact (proj1 (@registered_layer_keeps_settings_and_buffer lineHost "A" "a.mp3"
                  (Some false) (Some (Fin 2)) s ctx b Hurl Hctx Hfetch Hnew)).
Defined.

(** X23 for part P, started three times with a [stopAll()] in between. *)
Lemma parts_start_at_most_once_witness :
  let s := @after lineHost partWithBusyMember in
  let calls := [StartPart "P"; StartPart "P"; StopAll; StartPart "P"] in
  let r := @runSession lineHost calls s in
  Forall (λ c, isResetCall c = false) calls
  ∧ startedParts s ⊆ startedParts (post r)
  ∧ (partStarts "P" (out r) ≤ 1)%nat.
Proof.
  intros s calls r.
  assert (Forall (λ c, isResetCall c = false) calls) as Hcalls
    by (by repeat constructor).
  destruct (@parts_start_at_most_once lineHost "P" calls s Hcalls)
    as (Hgrows & _ & Hmost).
  exact (conj Hcalls (conj Hgrows Hmost)).
Defined.

(** X24 on the part with a busy member: layer A is playing when the walk
    is paused. *)
Lemma pause_silences_music_and_keeps_history_witness :
  let app := {| isWalking := true; isPaused := false |} in
  let s := @after lineHost partWithBusyMember in
  let r := pauseWalk app s in
  let r' := forEach (@runTask lineHost) (timerTasks (out r)) (post r) in
  (isWalking app = true ∧ isPaused app = false)
  ∧ (∃ l, JSMap.get "A" (audioLayers s) = Some l ∧ Layer.isPlaying l = true)
  ∧ res r = Returned {| isWalking := true; isPaused := true |}
  ∧ (∀ layerId l, JSMap.get layerId (audioLayers (post r')) = Some l →
                  Layer.isPlaying l = true →
                  String.prefix "oneshot" layerId = true).
Proof.
  intros app s r r'.
  assert (∃ l, JSMap.get "A" (audioLayers s) = Some l ∧ Layer.isPlaying l = true)
    as Hplaying by (eexists; split; by_evaluation).
  destruct (@pause_silences_music_and_keeps_history lineHost app s eq_refl eq_refl)
    as (Hres & _ & Hsilent & _).
  exact (conj (conj eq_refl eq_refl) (conj Hplaying (conj Hres Hsilent))).
Defined.

(** X25 for a feature of radius 40 with a fade distance of 30. *)
Lemma debug_map_outer_circle_is_silent_witness :
  let props := {| DebugMap.Name := Some "music 1-1";
                  DebugMap.radius_m := Some (Fin 40);
                  DebugMap.fadeDistance := Some (Fin 30) |} in
  let z := zoneOf (musicZone "music 1-1" 40 30 1 ["A"]) in
  (0 < 40 ∧ 0 < 30)
  ∧ (λ m, DebugMap.circleRadius <$> DebugMap.zoneCircles m)
    <$> DebugMap.addZoneMarker props (Fin 2, Fin 1) DebugMap.constructor
    = Some [Fin 40; Fin (40 + 30)]
  ∧ zoneVolume (Fin 50) z = Fin 0.
Proof.
  intros props z.
  assert (0 < 40) as Hr by lra.
  assert (0 < 30) as Hf by lra.
  assert (40 < 50) as Hd by lra.
  destruct (debug_map_outer_circle_is_silent props (Fin 2, Fin 1)
              DebugMap.constructor "music 1-1" 40 30 1 z
              eq_refl eq_refl eq_refl Hr Hf eq_refl eq_refl eq_refl)
    as (marker & inner & outer & Hadd & _ & _ & _ & Hinner & _ & Houter & _
        & Hsilent & _).
  refine (conj (conj Hr Hf) (conj _ (Hsilent 50 Hd))).
  rewrite Hadd. simpl. by rewrite Hinner, Houter.
Defined.
